(** * TSHD dredging simulation: engine, segment allocator, vessel workflow
      and campaign driver

    Shallow embedding of [des_framework.py], [segments.py], [tshd.py] and of
    [run_simulation_streamlit] from [base-app.py], followed by the
    properties of the specification, each proved or refuted on the
    embedding.

    Modelling conventions.
    - Python floats are exact rationals ([Q]).  Values that the program
      copies are compared with Leibniz equality, values that it computes
      are compared with the order of [Q].
    - Python exceptions are the [Raise] results of an error monad.
    - Entity objects live in an object store ([objects], a list indexed by
      reference); [entities] maps an id to a reference, as the Python
      dictionary maps it to the object itself.
    - [np.random.normal] reads a process-wide generator: the generator is a
      function of the requested mean, the requested spread and the number
      of draws made so far, and that number is part of the state.
    - Loops that may not end ([Simulation.run], the [while True] of the
      driver) take a fuel, the number of rounds they may make, and yield
      [OutOfFuel] when it is used up.
    - The debug side channel of [tshd.py] ([_debug_log], with the flags
      [_debug_logged_once] and the [run_id] it prints) writes a file and
      swallows every exception; it does not touch the simulation and is
      left out, as is the [type_label] attribute, a copy of the id. *)

From Stdlib Require Import QArith Qminmax Qround Lia Lqa ZArith.
From stdpp Require Import gmap strings list fin_maps.
From stdpp Require Import pretty.

Local Open Scope Q_scope.

(** ** Floats *)

Definition Qltb (a b : Q) : bool := negb (Qle_bool b a).

(** [max(a, b)] of Python: [b] when [b > a], else [a]. *)
Definition pymax (a b : Q) : Q := if Qltb a b then b else a.

(** [min(a, b)] of Python: [b] when [b < a], else [a]. *)
Definition pymin (a b : Q) : Q := if Qltb b a then b else a.

(** [min(l)] of Python on a non-empty list. *)
Definition pymin_list (x : Q) (l : list Q) : Q := fold_left pymin l x.

(** [sum(l)] of Python. *)
Definition pysum (l : list Q) : Q := fold_left Qplus l 0.

(** Truth value of a float: everything but zero. *)
Definition float_truthy (x : Q) : bool := negb (Qeq_bool x 0).

(** ** Exceptions *)

Inductive Exn : Type :=
| ZeroDivisionError
| ValueError
| TypeError
| IndexError
| DanglingReference.

Inductive result (A : Type) : Type :=
| Ok (a : A)
| Raise (e : Exn).
Arguments Ok {A} a.
Arguments Raise {A} e.

#[global] Instance result_ret : MRet result := λ A a, Ok a.
#[global] Instance result_bind : MBind result := λ A B k r,
  match r with
  | Ok a => k a
  | Raise e => Raise e
  end.

(** Float division raises on a zero divisor. *)
Definition pydiv (a b : Q) : result Q :=
  if Qeq_bool b 0 then Raise ZeroDivisionError else Ok (a / b).

(** ** des_framework.py: events *)

Inductive EventType : Type :=
| DREDGING_START
| DREDGING_COMPLETE
| MOVE_TO_DA_START
| MOVE_TO_DA_COMPLETE
| DUMPING_START
| DUMPING_COMPLETE
| MOVE_BACK_START
| MOVE_BACK_COMPLETE.

(** Values stored in the [data] dictionary of an event. *)
Inductive Value : Type :=
| VFloat (q : Q)
| VInt (n : Z)
| VNone.

Record Event : Type := mkEvent {
  time : Q;
  event_type : EventType;
  entity_id : string;
  data : gmap string Value
}.

(** [Event.__lt__]: ordering by time only. *)
Definition Event_lt (a b : Event) : bool := Qltb (time a) (time b).

(** [float(v)] on a dictionary value. *)
Definition to_float (v : Value) : result Q :=
  match v with
  | VFloat q => Ok q
  | VInt n => Ok (inject_Z n)
  | VNone => Raise TypeError
  end.

(** A value used as a number in [+=]. *)
Definition as_number (v : Value) : result Q := to_float v.

(** [d.get(key, default)]. *)
Definition dict_get (d : gmap string Value) (key : string) (default : Value) : Value :=
  match d !! key with
  | Some v => v
  | None => default
  end.

(** ** heapq (CPython, Lib/heapq.py) on lists of events

    The engine keeps its queue with [heapq.heappush] and [heapq.heappop];
    the order in which events of equal time leave the queue is the one
    these two functions produce, so they are embedded as they are written. *)

Module Heapq.

(** The loop of [_siftdown(heap, startpos, pos)]:
<<
    newitem = heap[pos]
    while pos > startpos:
        parentpos = (pos - 1) >> 1
        parent = heap[parentpos]
        if newitem < parent:
            heap[pos] = parent
            pos = parentpos
            continue
        break
    heap[pos] = newitem
>>
    [pos] is the hole; every round moves it to the parent, so [pos] rounds
    are enough. *)
Fixpoint siftdown_loop (n : nat) (heap : list Event) (startpos pos : nat)
    (newitem : Event) : list Event :=
  match n with
  | O => <[pos := newitem]> heap
  | S n' =>
      if (startpos <? pos)%nat then
        let parentpos := ((pos - 1) / 2)%nat in
        match heap !! parentpos with
        | Some parent =>
            if Event_lt newitem parent
            then siftdown_loop n' (<[pos := parent]> heap) startpos parentpos newitem
            else <[pos := newitem]> heap
        | None => <[pos := newitem]> heap
        end
      else <[pos := newitem]> heap
  end.

Definition _siftdown (heap : list Event) (startpos pos : nat) : list Event :=
  match heap !! pos with
  | Some newitem => siftdown_loop pos heap startpos pos newitem
  | None => heap
  end.

(** The loop of [_siftup(heap, pos)]:
<<
    endpos = len(heap); startpos = pos; newitem = heap[pos]
    childpos = 2*pos + 1
    while childpos < endpos:
        rightpos = childpos + 1
        if rightpos < endpos and not heap[childpos] < heap[rightpos]:
            childpos = rightpos
        heap[pos] = heap[childpos]
        pos = childpos
        childpos = 2*pos + 1
    heap[pos] = newitem
    _siftdown(heap, startpos, pos)
>>
    The function returns the heap with the smaller children moved up and
    the position of the final hole; the hole moves down at every round, so
    [len(heap)] rounds are enough. *)
Fixpoint siftup_loop (n : nat) (heap : list Event) (pos : nat) : list Event * nat :=
  match n with
  | O => (heap, pos)
  | S n' =>
      let endpos := length heap in
      let childpos := (2 * pos + 1)%nat in
      if (childpos <? endpos)%nat then
        let rightpos := (childpos + 1)%nat in
        let childpos :=
          match heap !! childpos, heap !! rightpos with
          | Some l, Some r => if negb (Event_lt l r) then rightpos else childpos
          | _, _ => childpos
          end in
        match heap !! childpos with
        | Some c => siftup_loop n' (<[pos := c]> heap) childpos
        | None => (heap, pos)
        end
      else (heap, pos)
  end.

Definition _siftup (heap : list Event) (pos : nat) : list Event :=
  match heap !! pos with
  | Some newitem =>
      let '(heap', leaf) := siftup_loop (length heap) heap pos in
      _siftdown (<[leaf := newitem]> heap') pos leaf
  | None => heap
  end.

(** [heappush(heap, item)]: [heap.append(item)], then
    [_siftdown(heap, 0, len(heap) - 1)]. *)
Definition heappush (heap : list Event) (item : Event) : list Event :=
  _siftdown (heap ++ [item]) 0 (length heap).

(** [heappop(heap)]:
<<
    lastelt = heap.pop()
    if heap:
        returnitem = heap[0]
        heap[0] = lastelt
        _siftup(heap, 0)
        return returnitem
    return lastelt
>>
    [None] stands for the [IndexError] on an empty heap. *)
Definition heappop (heap : list Event) : option (Event * list Event) :=
  match last heap with
  | None => None
  | Some lastelt =>
      match removelast heap with
      | [] => Some (lastelt, [])
      | returnitem :: rest =>
          Some (returnitem, _siftup (lastelt :: rest) 0)
      end
  end.

End Heapq.

(** ** segments.py *)

Record SegmentAllocation : Type := mkAllocation {
  segment_index : nat;
  volume_m3 : Q;
  distance_to_da_nm : Q
}.

Record SegmentManager : Type := mkSegmentManager {
  segment_length_nm : Q;
  remaining_m3 : list Q
}.

Definition SegmentManager_init (segment_volumes_m3 : list Q) (length_nm : Q)
  : result SegmentManager :=
  if Qle_bool length_nm 0 then Raise ValueError
  else Ok {| segment_length_nm := length_nm;
             remaining_m3 := map (pymax 0) segment_volumes_m3 |}.

Definition total_remaining (m : SegmentManager) : Q := pysum (remaining_m3 m).

(** The [for i, v in enumerate(...)] loop, [i] being the index of the head. *)
Fixpoint first_with_work (i : nat) (l : list Q) : option nat :=
  match l with
  | [] => None
  | v :: l' => if Qltb 0 v then Some (i + 1)%nat else first_with_work (S i) l'
  end.

Definition next_segment_with_work (m : SegmentManager) : option nat :=
  first_with_work 0 (remaining_m3 m).

(** [allocate] returns the allocation (or [None]) and the updated manager.
    The index read cannot fail (lemma [first_with_work_lookup]); the model
    returns [None] there. *)
Definition allocate (m : SegmentManager) (requested_m3 : Q)
  : option SegmentAllocation * SegmentManager :=
  if Qle_bool requested_m3 0 then (None, m)
  else
    match next_segment_with_work m with
    | None => (None, m)
    | Some seg_idx =>
        match remaining_m3 m !! (seg_idx - 1)%nat with
        | None => (None, m)
        | Some remaining =>
            let take := pymin requested_m3 remaining in
            (Some {| segment_index := seg_idx;
                     volume_m3 := take;
                     distance_to_da_nm :=
                       inject_Z (Z.of_nat seg_idx - 1) * segment_length_nm m |},
             {| segment_length_nm := segment_length_nm m;
                remaining_m3 := <[(seg_idx - 1)%nat := remaining - take]> (remaining_m3 m) |})
        end
    end.

(** ** tshd.py: vessel data *)

Inductive TSHDState : Type := IDLE | DREDGING | MOVING_TO_DA | DUMPING | MOVING_BACK.

Record TSHDConfig : Type := mkConfig {
  dredging_time : Q;
  dredging_stdev_pct : Q;
  speed_to_da : Q;
  distance_to_da : Q;
  moving_stdev_pct : Q;
  dumping_time : Q;
  dumping_stdev_pct : Q;
  speed_back : Q;
  distance_back : Q;
  hopper_capacity : Q
}.

(** The texts logged under the key ['event']; formatted numbers are kept
    as arguments. *)
Inductive Message : Type :=
| Starting_dredging
| No_segment_work_remaining
| Dredging_complete (hopper : Q)
| Moving_to_dumping_area
| Arrived_at_dumping_area
| Starting_dumping
| Dumping_complete (cycle : Z)
| Moving_back_to_dredging_area
| Arrived_back_at_dredging_area.

(** Entries of [event_log]: a plain message, or a sampled task.  An
    optional field is a key that the dictionary may lack. *)
Inductive LogEntry : Type :=
| LogEvent (at_time : Q) (event : Message) (state : TSHDState)
| LogTask (at_time : Q) (task : string) (duration_h : Q)
    (volume : option Q) (distance_nm : option Q) (segment : option Value)
    (state : TSHDState).

Record TSHD : Type := mkTSHD {
  tshd_entity_id : string;
  config : TSHDConfig;
  state : TSHDState;
  hopper_level : Q;
  total_dredged : Q;
  cycle_count : Z;
  event_log : list LogEntry;
  state_history : list (Q * TSHDState);
  current_segment_index : option nat
}.

Definition TSHD_init (id : string) (cfg : TSHDConfig) : TSHD :=
  {| tshd_entity_id := id; config := cfg; state := IDLE;
     hopper_level := 0; total_dredged := 0; cycle_count := 0;
     event_log := []; state_history := []; current_segment_index := None |}.

Definition set_state (st : TSHDState) (v : TSHD) : TSHD :=
  {| tshd_entity_id := tshd_entity_id v; config := config v; state := st;
     hopper_level := hopper_level v; total_dredged := total_dredged v;
     cycle_count := cycle_count v; event_log := event_log v;
     state_history := state_history v;
     current_segment_index := current_segment_index v |}.

Definition set_hopper_level (x : Q) (v : TSHD) : TSHD :=
  {| tshd_entity_id := tshd_entity_id v; config := config v; state := state v;
     hopper_level := x; total_dredged := total_dredged v;
     cycle_count := cycle_count v; event_log := event_log v;
     state_history := state_history v;
     current_segment_index := current_segment_index v |}.

Definition set_total_dredged (x : Q) (v : TSHD) : TSHD :=
  {| tshd_entity_id := tshd_entity_id v; config := config v; state := state v;
     hopper_level := hopper_level v; total_dredged := x;
     cycle_count := cycle_count v; event_log := event_log v;
     state_history := state_history v;
     current_segment_index := current_segment_index v |}.

Definition set_cycle_count (n : Z) (v : TSHD) : TSHD :=
  {| tshd_entity_id := tshd_entity_id v; config := config v; state := state v;
     hopper_level := hopper_level v; total_dredged := total_dredged v;
     cycle_count := n; event_log := event_log v;
     state_history := state_history v;
     current_segment_index := current_segment_index v |}.

(** [self.event_log.append(entry)] *)
Definition log_append (entry : LogEntry) (v : TSHD) : TSHD :=
  {| tshd_entity_id := tshd_entity_id v; config := config v; state := state v;
     hopper_level := hopper_level v; total_dredged := total_dredged v;
     cycle_count := cycle_count v; event_log := event_log v ++ [entry];
     state_history := state_history v;
     current_segment_index := current_segment_index v |}.

(** [self.state_history.append({'time': t, 'state': st})] *)
Definition history_append (t : Q) (st : TSHDState) (v : TSHD) : TSHD :=
  {| tshd_entity_id := tshd_entity_id v; config := config v; state := state v;
     hopper_level := hopper_level v; total_dredged := total_dredged v;
     cycle_count := cycle_count v; event_log := event_log v;
     state_history := state_history v ++ [(t, st)];
     current_segment_index := current_segment_index v |}.

Definition set_current_segment_index (i : option nat) (v : TSHD) : TSHD :=
  {| tshd_entity_id := tshd_entity_id v; config := config v; state := state v;
     hopper_level := hopper_level v; total_dredged := total_dredged v;
     cycle_count := cycle_count v; event_log := event_log v;
     state_history := state_history v;
     current_segment_index := i |}.

(** ** des_framework.py: the engine *)

Record Statistics : Type := mkStatistics {
  total_dredging_time : Q;
  total_moving_time : Q;
  total_dumping_time : Q;
  dredging_cycles : Z;
  events_processed : Z
}.

(** A line printed by the engine. *)
Inductive Output : Type :=
| Warning_entity_not_found (id : string) (ty : EventType).

(** The [Simulation] object, followed by what it is run with: the optional
    [segment_manager] attribute that vessels look up, the object store,
    the number of draws made from the shared generator, and the printed
    lines. *)
Record Simulation : Type := mkSimulation {
  clock : Q;
  event_queue : list Event;
  entities : gmap string nat;
  statistics : Statistics;
  running : bool;
  segment_manager : option SegmentManager;
  objects : list TSHD;
  rng_draws : nat;
  stdout : list Output
}.

Definition Simulation_init (objs : list TSHD) (draws : nat) (out : list Output)
  : Simulation :=
  {| clock := 0; event_queue := []; entities := ∅;
     statistics := {| total_dredging_time := 0; total_moving_time := 0;
                      total_dumping_time := 0; dredging_cycles := 0;
                      events_processed := 0 |};
     running := false; segment_manager := None;
     objects := objs; rng_draws := draws; stdout := out |}.

Definition set_clock (t : Q) (s : Simulation) : Simulation :=
  {| clock := t; event_queue := event_queue s; entities := entities s;
     statistics := statistics s; running := running s;
     segment_manager := segment_manager s; objects := objects s;
     rng_draws := rng_draws s; stdout := stdout s |}.

Definition set_event_queue (q : list Event) (s : Simulation) : Simulation :=
  {| clock := clock s; event_queue := q; entities := entities s;
     statistics := statistics s; running := running s;
     segment_manager := segment_manager s; objects := objects s;
     rng_draws := rng_draws s; stdout := stdout s |}.

Definition set_entities (m : gmap string nat) (s : Simulation) : Simulation :=
  {| clock := clock s; event_queue := event_queue s; entities := m;
     statistics := statistics s; running := running s;
     segment_manager := segment_manager s; objects := objects s;
     rng_draws := rng_draws s; stdout := stdout s |}.

Definition set_statistics (st : Statistics) (s : Simulation) : Simulation :=
  {| clock := clock s; event_queue := event_queue s; entities := entities s;
     statistics := st; running := running s;
     segment_manager := segment_manager s; objects := objects s;
     rng_draws := rng_draws s; stdout := stdout s |}.

Definition set_running (b : bool) (s : Simulation) : Simulation :=
  {| clock := clock s; event_queue := event_queue s; entities := entities s;
     statistics := statistics s; running := b;
     segment_manager := segment_manager s; objects := objects s;
     rng_draws := rng_draws s; stdout := stdout s |}.

Definition set_segment_manager (m : option SegmentManager) (s : Simulation)
  : Simulation :=
  {| clock := clock s; event_queue := event_queue s; entities := entities s;
     statistics := statistics s; running := running s;
     segment_manager := m; objects := objects s;
     rng_draws := rng_draws s; stdout := stdout s |}.

Definition set_objects (l : list TSHD) (s : Simulation) : Simulation :=
  {| clock := clock s; event_queue := event_queue s; entities := entities s;
     statistics := statistics s; running := running s;
     segment_manager := segment_manager s; objects := l;
     rng_draws := rng_draws s; stdout := stdout s |}.

Definition set_rng_draws (n : nat) (s : Simulation) : Simulation :=
  {| clock := clock s; event_queue := event_queue s; entities := entities s;
     statistics := statistics s; running := running s;
     segment_manager := segment_manager s; objects := objects s;
     rng_draws := n; stdout := stdout s |}.

Definition print (o : Output) (s : Simulation) : Simulation :=
  {| clock := clock s; event_queue := event_queue s; entities := entities s;
     statistics := statistics s; running := running s;
     segment_manager := segment_manager s; objects := objects s;
     rng_draws := rng_draws s; stdout := stdout s ++ [o] |}.

Definition add_dredging_time (x : Q) (st : Statistics) : Statistics :=
  {| total_dredging_time := total_dredging_time st + x;
     total_moving_time := total_moving_time st;
     total_dumping_time := total_dumping_time st;
     dredging_cycles := dredging_cycles st;
     events_processed := events_processed st |}.

Definition add_moving_time (x : Q) (st : Statistics) : Statistics :=
  {| total_dredging_time := total_dredging_time st;
     total_moving_time := total_moving_time st + x;
     total_dumping_time := total_dumping_time st;
     dredging_cycles := dredging_cycles st;
     events_processed := events_processed st |}.

Definition add_dumping_time (x : Q) (st : Statistics) : Statistics :=
  {| total_dredging_time := total_dredging_time st;
     total_moving_time := total_moving_time st;
     total_dumping_time := total_dumping_time st + x;
     dredging_cycles := dredging_cycles st;
     events_processed := events_processed st |}.

Definition incr_dredging_cycles (st : Statistics) : Statistics :=
  {| total_dredging_time := total_dredging_time st;
     total_moving_time := total_moving_time st;
     total_dumping_time := total_dumping_time st;
     dredging_cycles := dredging_cycles st + 1;
     events_processed := events_processed st |}.

Definition incr_events_processed (st : Statistics) : Statistics :=
  {| total_dredging_time := total_dredging_time st;
     total_moving_time := total_moving_time st;
     total_dumping_time := total_dumping_time st;
     dredging_cycles := dredging_cycles st;
     events_processed := events_processed st + 1 |}.

(** [Simulation.schedule_event] *)
Definition schedule_event (event : Event) (s : Simulation) : Simulation :=
  set_event_queue (Heapq.heappush (event_queue s) event) s.

(** [Simulation.get_next_event] *)
Definition get_next_event (s : Simulation) : option Event * Simulation :=
  match event_queue s with
  | [] => (None, s)
  | _ :: _ =>
      match Heapq.heappop (event_queue s) with
      | Some (event, q) => (Some event, set_event_queue q s)
      | None => (None, s)
      end
  end.

(** [Simulation.stop] *)
Definition stop (s : Simulation) : Simulation := set_running false s.

(** What one round of the loop of [run] does, and what a bounded number of
    rounds yields. *)
Inductive iteration : Type :=
| Continue (s : Simulation)
| Break (s : Simulation)
| Abort (e : Exn).

Inductive outcome (A : Type) : Type :=
| Done (a : A)
| Raised (e : Exn)
| OutOfFuel.
Arguments Done {A} a.
Arguments Raised {A} e.
Arguments OutOfFuel {A}.

(** ** tshd.py: the vessel workflow *)

Section Workflow.

(** The shared generator: [normal mean stdev k] is what the [k]-th draw of
    the process returns when asked for [np.random.normal(mean, stdev)]. *)
Variable normal : Q → Q → nat → Q.

(** [np.random.normal(mean, stdev)]: a negative spread is refused. *)
Definition np_random_normal (mean stdev : Q) (sim : Simulation)
  : result (Q * Simulation) :=
  if Qltb stdev 0 then Raise ValueError
  else Ok (normal mean stdev (rng_draws sim),
           set_rng_draws (S (rng_draws sim)) sim).

Definition _start_dredging (self : TSHD) (event : Event) (sim : Simulation)
  : result (TSHD * Simulation) :=
  let self := set_state DREDGING self in
  let self := log_append (LogEvent (clock sim) Starting_dredging (state self)) self in
  let self := history_append (clock sim) (state self) self in
  let proceed (self : TSHD) (sim : Simulation)
      (allocated_volume_m3 distance_to_da_nm' : Q) (seg_idx : Value) :=
    ratio ← pydiv allocated_volume_m3 (hopper_capacity (config self));
    let mean_time := dredging_time (config self) * ratio in
    let stdev := mean_time * (dredging_stdev_pct (config self) / 100) in
    '(sample, sim) ← np_random_normal mean_time stdev sim;
    let actual_dredging_time := pymax (1 # 10) sample in
    let self :=
      log_append (LogTask (clock sim) "dredging" actual_dredging_time
                    (Some allocated_volume_m3) None (Some seg_idx) (state self))
        self in
    let completion_time := clock sim + actual_dredging_time in
    let sim :=
      schedule_event
        {| time := completion_time;
           event_type := DREDGING_COMPLETE;
           entity_id := tshd_entity_id self;
           data := <["actual_dredging_time" := VFloat actual_dredging_time]>
                   (<["allocated_volume_m3" := VFloat allocated_volume_m3]>
                   (<["distance_to_da_nm" := VFloat distance_to_da_nm']>
                   (<["segment_index" := seg_idx]> ∅))) |} sim in
    Ok (self, sim) in
  match segment_manager sim with
  | Some seg_mgr =>
      let '(alloc, seg_mgr) := allocate seg_mgr (hopper_capacity (config self)) in
      let sim := set_segment_manager (Some seg_mgr) sim in
      let idle (_ : unit) :=
        let self := set_state IDLE self in
        let self :=
          log_append (LogEvent (clock sim) No_segment_work_remaining (state self))
            self in
        Ok (self, sim) in
      match alloc with
      | None => idle ()
      | Some alloc =>
          if Qle_bool (volume_m3 alloc) 0 then idle ()
          else
            let self := set_current_segment_index (Some (segment_index alloc)) self in
            proceed self sim (volume_m3 alloc) (distance_to_da_nm alloc)
              (VInt (Z.of_nat (segment_index alloc)))
      end
  | None =>
      proceed self sim (hopper_capacity (config self))
        (distance_to_da (config self)) VNone
  end.

Definition _complete_dredging (self : TSHD) (event : Event) (sim : Simulation)
  : result (TSHD * Simulation) :=
  loaded_m3 ← to_float (dict_get (data event) "allocated_volume_m3"
                          (VFloat (hopper_capacity (config self))));
  let self := set_hopper_level loaded_m3 self in
  let self := set_total_dredged (total_dredged self + loaded_m3) self in
  actual_dredging_time ←
    as_number (dict_get (data event) "actual_dredging_time"
                 (VFloat (dredging_time (config self))));
  let sim :=
    set_statistics (add_dredging_time actual_dredging_time (statistics sim)) sim in
  let self :=
    log_append (LogEvent (clock sim) (Dredging_complete (hopper_level self))
                  (state self)) self in
  let self := set_state MOVING_TO_DA self in
  distance_to_da_nm' ← to_float (dict_get (data event) "distance_to_da_nm"
                                   (VFloat (distance_to_da (config self))));
  mean_travel_time ← pydiv distance_to_da_nm' (speed_to_da (config self));
  let stdev := mean_travel_time * (moving_stdev_pct (config self) / 100) in
  '(sample, sim) ← np_random_normal mean_travel_time stdev sim;
  let travel_time := pymax (1 # 100) sample in
  let self :=
    log_append (LogTask (clock sim) "moving_to_da" travel_time None
                  (Some distance_to_da_nm')
                  (Some (dict_get (data event) "segment_index" VNone))
                  (state self)) self in
  let sim :=
    schedule_event
      {| time := clock sim; event_type := MOVE_TO_DA_START;
         entity_id := tshd_entity_id self; data := ∅ |} sim in
  let sim :=
    schedule_event
      {| time := clock sim + travel_time; event_type := MOVE_TO_DA_COMPLETE;
         entity_id := tshd_entity_id self;
         data := <["actual_travel_time" := VFloat travel_time]>
                 (<["distance_to_da_nm" := VFloat distance_to_da_nm']> ∅) |} sim in
  Ok (self, sim).

Definition _start_move_to_da (self : TSHD) (event : Event) (sim : Simulation)
  : result (TSHD * Simulation) :=
  let self := set_state MOVING_TO_DA self in
  let self :=
    log_append (LogEvent (clock sim) Moving_to_dumping_area (state self)) self in
  let self := history_append (clock sim) (state self) self in
  Ok (self, sim).

Definition _complete_move_to_da (self : TSHD) (event : Event) (sim : Simulation)
  : result (TSHD * Simulation) :=
  distance_to_da_nm' ← to_float (dict_get (data event) "distance_to_da_nm"
                                   (VFloat (distance_to_da (config self))));
  (* the default of [get] is evaluated before the lookup *)
  default_travel ← pydiv distance_to_da_nm' (speed_to_da (config self));
  travel_time ←
    as_number (dict_get (data event) "actual_travel_time" (VFloat default_travel));
  let sim := set_statistics (add_moving_time travel_time (statistics sim)) sim in
  let self :=
    log_append (LogEvent (clock sim) Arrived_at_dumping_area (state self)) self in
  let self := set_state DUMPING self in
  let self := history_append (clock sim) (state self) self in
  let mean_time := dumping_time (config self) in
  let stdev := mean_time * (dumping_stdev_pct (config self) / 100) in
  '(sample, sim) ← np_random_normal mean_time stdev sim;
  let actual_dumping_time := pymax (5 # 100) sample in
  let self :=
    log_append (LogTask (clock sim) "dumping" actual_dumping_time None None None
                  (state self)) self in
  let sim :=
    schedule_event
      {| time := clock sim; event_type := DUMPING_START;
         entity_id := tshd_entity_id self; data := ∅ |} sim in
  let sim :=
    schedule_event
      {| time := clock sim + actual_dumping_time; event_type := DUMPING_COMPLETE;
         entity_id := tshd_entity_id self;
         data := <["actual_dumping_time" := VFloat actual_dumping_time]> ∅ |} sim in
  Ok (self, sim).

Definition _start_dumping (self : TSHD) (event : Event) (sim : Simulation)
  : result (TSHD * Simulation) :=
  let self := set_state DUMPING self in
  let self := log_append (LogEvent (clock sim) Starting_dumping (state self)) self in
  Ok (self, sim).

Definition _complete_dumping (self : TSHD) (event : Event) (sim : Simulation)
  : result (TSHD * Simulation) :=
  let self := set_hopper_level 0 self in
  actual_dumping_time ←
    as_number (dict_get (data event) "actual_dumping_time"
                 (VFloat (dumping_time (config self))));
  let sim :=
    set_statistics (add_dumping_time actual_dumping_time (statistics sim)) sim in
  let self := set_cycle_count (cycle_count self + 1) self in
  let sim := set_statistics (incr_dredging_cycles (statistics sim)) sim in
  let self :=
    log_append (LogEvent (clock sim) (Dumping_complete (cycle_count self))
                  (state self)) self in
  let self := set_state MOVING_BACK self in
  let self := history_append (clock sim) (state self) self in
  distance_to_da_nm' ← to_float (dict_get (data event) "distance_to_da_nm"
                                   (VFloat (distance_back (config self))));
  mean_travel_time ← pydiv distance_to_da_nm' (speed_back (config self));
  let stdev := mean_travel_time * (moving_stdev_pct (config self) / 100) in
  '(sample, sim) ← np_random_normal mean_travel_time stdev sim;
  let travel_time := pymax (1 # 100) sample in
  let self :=
    log_append (LogTask (clock sim) "moving_back" travel_time None
                  (Some distance_to_da_nm') None (state self)) self in
  let sim :=
    schedule_event
      {| time := clock sim; event_type := MOVE_BACK_START;
         entity_id := tshd_entity_id self; data := ∅ |} sim in
  let sim :=
    schedule_event
      {| time := clock sim + travel_time; event_type := MOVE_BACK_COMPLETE;
         entity_id := tshd_entity_id self;
         data := <["actual_travel_time" := VFloat travel_time]>
                 (<["distance_to_da_nm" := VFloat distance_to_da_nm']> ∅) |} sim in
  Ok (self, sim).

Definition _start_move_back (self : TSHD) (event : Event) (sim : Simulation)
  : result (TSHD * Simulation) :=
  let self := set_state MOVING_BACK self in
  let self :=
    log_append (LogEvent (clock sim) Moving_back_to_dredging_area (state self))
      self in
  Ok (self, sim).

Definition _complete_move_back (self : TSHD) (event : Event) (sim : Simulation)
  : result (TSHD * Simulation) :=
  (* the default of [get] is evaluated before the lookup *)
  default_travel ← pydiv (distance_back (config self)) (speed_back (config self));
  travel_time ←
    as_number (dict_get (data event) "actual_travel_time" (VFloat default_travel));
  let sim := set_statistics (add_moving_time travel_time (statistics sim)) sim in
  let self :=
    log_append (LogEvent (clock sim) Arrived_back_at_dredging_area (state self))
      self in
  let self := set_state DREDGING self in
  let self := history_append (clock sim) (state self) self in
  let sim :=
    schedule_event
      {| time := clock sim; event_type := DREDGING_START;
         entity_id := tshd_entity_id self; data := ∅ |} sim in
  Ok (self, sim).

(** [TSHD.handle_event] *)
Definition TSHD_handle_event (self : TSHD) (event : Event) (sim : Simulation)
  : result (TSHD * Simulation) :=
  match event_type event with
  | DREDGING_START => _start_dredging self event sim
  | DREDGING_COMPLETE => _complete_dredging self event sim
  | MOVE_TO_DA_START => _start_move_to_da self event sim
  | MOVE_TO_DA_COMPLETE => _complete_move_to_da self event sim
  | DUMPING_START => _start_dumping self event sim
  | DUMPING_COMPLETE => _complete_dumping self event sim
  | MOVE_BACK_START => _start_move_back self event sim
  | MOVE_BACK_COMPLETE => _complete_move_back self event sim
  end.

(** [TSHD.start_work] *)
Definition start_work (self : TSHD) (sim : Simulation) : Simulation :=
  schedule_event
    {| time := 0; event_type := DREDGING_START;
       entity_id := tshd_entity_id self; data := ∅ |} sim.

(** [entity.handle_event(event, self)] on the object behind a reference:
    the handler works on the object and the result is the object's new
    contents. *)
Definition dispatch (ref : nat) (event : Event) (sim : Simulation)
  : result Simulation :=
  match objects sim !! ref with
  | None => Raise DanglingReference
  | Some self =>
      '(self, sim) ← TSHD_handle_event self event sim;
      Ok (set_objects (<[ref := self]> (objects sim)) sim)
  end.

(** ** des_framework.py: [Simulation.run] *)

(** [end_time and event.time > end_time] *)
Definition horizon_exceeded (end_time : option Q) (event : Event) : bool :=
  match end_time with
  | None => false
  | Some t => float_truthy t && Qltb t (time event)
  end.

(** The part of the loop body after the horizon test: the clock moves to
    the event, the counter is incremented and the event is dispatched. *)
Definition process_event (event : Event) (s : Simulation) : iteration :=
  let s := set_clock (time event) s in
  let s := set_statistics (incr_events_processed (statistics s)) s in
  match entities s !! entity_id event with
  | Some ref =>
      match dispatch ref event s with
      | Ok s => Continue s
      | Raise e => Abort e
      end
  | None =>
      Continue (print (Warning_entity_not_found (entity_id event)
                         (event_type event)) s)
  end.

(** One round of the [while] loop of [run].  The loop enters it with a
    non-empty queue, so [get_next_event] returns an event. *)
Definition run_body (end_time : option Q) (s : Simulation) : iteration :=
  match get_next_event s with
  | (None, _) => Abort IndexError
  | (Some event, s) =>
      match end_time with
      | Some t =>
          if float_truthy t && Qltb t (time event)
          then Break (set_clock t (schedule_event event s))
          else process_event event s
      | None => process_event event s
      end
  end.

(** [while self.event_queue and self.running], then [self.running = False].
    [fuel] bounds the number of rounds. *)
Fixpoint run_loop (fuel : nat) (end_time : option Q) (s : Simulation)
  : outcome Simulation :=
  match event_queue s, running s with
  | _ :: _, true =>
      match fuel with
      | O => OutOfFuel
      | S fuel' =>
          match run_body end_time s with
          | Continue s' => run_loop fuel' end_time s'
          | Break s' => Done (set_running false s')
          | Abort e => Raised e
          end
      end
  | _, _ => Done (set_running false s)
  end.

(** [Simulation.run] *)
Definition run (fuel : nat) (end_time : option Q) (s : Simulation)
  : outcome Simulation :=
  run_loop fuel end_time (set_running true s).

(** ** base-app.py: the campaign driver *)

(** The [for type_label, cfg in fleet_vessels] loop. *)
Fixpoint register_fleet (fleet_vessels : list (string * TSHDConfig))
    (sim : Simulation) (dredgers : list nat) (cycle_times : list Q)
  : result (Simulation * list nat * list Q) :=
  match fleet_vessels with
  | [] => Ok (sim, dredgers, cycle_times)
  | (type_label, cfg) :: rest =>
      out ← pydiv (distance_to_da cfg) (speed_to_da cfg);
      back ← pydiv (distance_back cfg) (speed_back cfg);
      let mean_cycle := dredging_time cfg + out + dumping_time cfg + back in
      let cycle_times := cycle_times ++ [mean_cycle] in
      let dredger := TSHD_init type_label cfg in
      let ref := length (objects sim) in
      let sim := set_objects (objects sim ++ [dredger]) sim in
      let dredgers := dredgers ++ [ref] in
      let sim := set_entities (<[tshd_entity_id dredger := ref]> (entities sim)) sim in
      let sim := start_work dredger sim in
      register_fleet rest sim dredgers cycle_times
  end.

(** [sum(d.total_dredged for d in dredgers)] *)
Definition total_material (sim : Simulation) (dredgers : list nat) : Q :=
  pysum (omap (λ ref, total_dredged <$> objects sim !! ref) dredgers).

Definition max_simulation_time : Q := 24 * 365.

(** [step_h = max(0.25, float(min(cycle_times)) if cycle_times else 1.0)] *)
Definition step_of (cycle_times : list Q) : Q :=
  pymax (25 # 100)
    match cycle_times with
    | [] => 1
    | c :: cs => pymin_list c cs
    end.

(** The [while True] loop; [fuel] bounds its rounds and the rounds of every
    [run] it calls. *)
Fixpoint campaign_loop (fuel rounds : nat) (sim : Simulation) (dredgers : list nat)
    (target_volume step_h current_end_time : Q) : outcome Simulation :=
  match rounds with
  | O => OutOfFuel
  | S rounds' =>
      match run fuel (Some current_end_time) sim with
      | Done sim =>
          if Qle_bool target_volume (total_material sim dredgers)
             || Qle_bool max_simulation_time (clock sim)
          then Done sim
          else campaign_loop fuel rounds' sim dredgers target_volume step_h
                 (current_end_time + step_h)
      | Raised e => Raised e
      | OutOfFuel => OutOfFuel
      end
  end.

(** [run_simulation_streamlit]; [draws] is the number of draws made from
    the shared generator before the call, one more goes into [run_id]. *)
Definition run_simulation_streamlit (fuel : nat)
    (fleet_vessels : list (string * TSHDConfig)) (target_volume : Q) (draws : nat)
  : outcome (Simulation * list nat) :=
  let sim := Simulation_init [] (S draws) [] in
  match register_fleet fleet_vessels sim [] [] with
  | Raise e => Raised e
  | Ok (sim, dredgers, cycle_times) =>
      let step_h := step_of cycle_times in
      match campaign_loop fuel fuel sim dredgers target_volume step_h step_h with
      | Done sim => Done (sim, dredgers)
      | Raised e => Raised e
      | OutOfFuel => OutOfFuel
      end
  end.

End Workflow.

(** * The reports: statistics, console runner, result rows and timeline *)

(** ** des_framework.py: [Simulation.get_statistics] *)

(** The dictionary that [get_statistics] returns: the five counters of
    [statistics], the clock under ['simulation_time'] and the number of
    registered ids under ['entities']. *)
Record StatisticsReport : Type := mkReport {
  counters : Statistics;
  stat_simulation_time : Q;
  stat_entities : nat
}.

Definition get_statistics (s : Simulation) : StatisticsReport :=
  {| counters := statistics s;
     stat_simulation_time := clock s;
     stat_entities := size (entities s) |}.

(** ** simulation_runner.py *)

(** The lines that [run_simulation] writes to the console, the lines of
    the engine among them; formatted numbers are kept as arguments. *)
Inductive Line : Type :=
| Rule
| Title
| Requested_time (hours : Q)
| Number_of_dredgers (n : Z)
| Blank
| From_engine (o : Output)
| Statistics_title
| Simulation_time (hours : Q)
| Total_events_processed (n : Z)
| Total_dredging_cycles (n : Z)
| Total_dredging_time (hours : Q)
| Total_moving_time (hours : Q)
| Total_dumping_time (hours : Q)
| Dredger_name (id : string)
| Cycles_completed (n : Z)
| Total_material_dredged (m3 : Q)
| Current_state (st : TSHDState)
| Hopper_level (m3 : Q).

(** The configuration that [run_simulation] gives every dredger: seven
    fields are written out, the three spreads keep the defaults of the
    dataclass. *)
Definition runner_config : TSHDConfig :=
  {| dredging_time := 2; dredging_stdev_pct := 10; speed_to_da := 10;
     distance_to_da := 5; moving_stdev_pct := 15; dumping_time := 1 # 2;
     dumping_stdev_pct := 10; speed_back := 10; distance_back := 5;
     hopper_capacity := 5000 |}.

(** The [for i in range(num_dredgers)] loop: [count] rounds are left and
    [i] is the index of the next one. *)
Fixpoint create_dredgers (count i : nat) (sim : Simulation) (dredgers : list nat)
  : Simulation * list nat :=
  match count with
  | O => (sim, dredgers)
  | S count' =>
      let dredger := TSHD_init ("TSHD-" +:+ pretty (i + 1)%nat) runner_config in
      let ref := length (objects sim) in
      let sim := set_objects (objects sim ++ [dredger]) sim in
      let dredgers := dredgers ++ [ref] in
      let sim := set_entities (<[tshd_entity_id dredger := ref]> (entities sim)) sim in
      let sim := start_work dredger sim in
      create_dredgers count' (S i) sim dredgers
  end.

(** The lines printed for one dredger. *)
Definition dredger_lines (sim : Simulation) (ref : nat) : list Line :=
  match objects sim !! ref with
  | Some dredger =>
      [Dredger_name (tshd_entity_id dredger);
       Cycles_completed (cycle_count dredger);
       Total_material_dredged (total_dredged dredger);
       Current_state (state dredger);
       Hopper_level (hopper_level dredger)]
  | None => []
  end.

(** [run_simulation(simulation_time, num_dredgers)]: the engine that the
    function returns and everything it has printed.  [draws] is the number
    of draws made from the shared generator before the call. *)
Definition run_simulation (normal : Q → Q → nat → Q) (fuel : nat)
    (simulation_time : Q) (num_dredgers : Z) (draws : nat)
  : outcome (Simulation * list Line) :=
  let sim := Simulation_init [] draws [] in
  let '(sim, dredgers) := create_dredgers (Z.to_nat num_dredgers) 0 sim [] in
  let heading :=
    [Rule; Title; Rule; Requested_time simulation_time;
     Number_of_dredgers num_dredgers; Rule; Blank] in
  match run normal fuel (Some simulation_time) sim with
  | Done sim =>
      let stats := get_statistics sim in
      Done (sim,
            heading ++ map From_engine (stdout sim)
            ++ [Blank; Rule; Statistics_title; Rule;
                Simulation_time (stat_simulation_time stats);
                Total_events_processed (events_processed (counters stats));
                Total_dredging_cycles (dredging_cycles (counters stats));
                Total_dredging_time (total_dredging_time (counters stats));
                Total_moving_time (total_moving_time (counters stats));
                Total_dumping_time (total_dumping_time (counters stats));
                Blank]
            ++ flat_map (dredger_lines sim) dredgers ++ [Rule])
  | Raised e => Raised e
  | OutOfFuel => OutOfFuel
  end.

(** ** base-app.py: the rows of sampled durations *)

(** A row of the table of sampled durations.  [dredger_type] is the
    [type_label] of the vessel, which the driver sets to the id. *)
Record DurationRow : Type := mkRow {
  row_run : Z;
  row_dredger : string;
  row_dredger_type : string;
  row_task : string;
  row_duration_h : Q
}.

(** The inner loop of [_collect_duration_samples]: one row for every entry
    of the log that has both a ['duration_h'] and a ['task']. *)
Definition rows_of_log (run_idx : Z) (dredger : TSHD) : list DurationRow :=
  omap (λ e,
          match e with
          | LogTask _ task duration _ _ _ _ =>
              Some {| row_run := run_idx;
                      row_dredger := tshd_entity_id dredger;
                      row_dredger_type := tshd_entity_id dredger;
                      row_task := task;
                      row_duration_h := duration |}
          | LogEvent _ _ _ => None
          end) (event_log dredger).

Definition _collect_duration_samples (dredgers : list TSHD) (run_idx : Z)
  : list DurationRow :=
  flat_map (rows_of_log run_idx) dredgers.

(** The vessels behind a list of references, as the driver returns them. *)
Definition vessels (sim : Simulation) (dredgers : list nat) : list TSHD :=
  omap (λ ref, objects sim !! ref) dredgers.

(** ** base-app.py: the state timeline *)

Definition state_colors (st : TSHDState) : string :=
  match st with
  | DREDGING => "#2ecc71"
  | MOVING_TO_DA => "#3498db"
  | DUMPING => "#e74c3c"
  | MOVING_BACK => "#f39c12"
  | IDLE => "#95a5a6"
  end.

(** The position of a state in [state_order]. *)
Definition state_y_positions (st : TSHDState) : nat :=
  match st with
  | DREDGING => 0
  | MOVING_TO_DA => 1
  | DUMPING => 2
  | MOVING_BACK => 3
  | IDLE => 4
  end.

(** A horizontal line of the figure: from [x_from] to [x_to] at the height
    of the state, named after the vessel and the state. *)
Record Trace : Type := mkTrace {
  x_from : Q;
  x_to : Q;
  y_level : nat;
  trace_dredger : string;
  trace_state : TSHDState;
  trace_color : string
}.

Definition segment_trace (id : string) (from to : Q) (st : TSHDState) : Trace :=
  {| x_from := from; x_to := to; y_level := state_y_positions st;
     trace_dredger := id; trace_state := st; trace_color := state_colors st |}.

(** The [for entry in dredger.state_history] loop: a line is added for the
    previous state when the entry is later than the previous one. *)
Fixpoint timeline_loop (id : string) (history : list (Q * TSHDState))
    (prev_time : Q) (prev_state : TSHDState) (fig : list Trace)
  : Q * TSHDState * list Trace :=
  match history with
  | [] => (prev_time, prev_state, fig)
  | (t, st) :: history' =>
      let fig :=
        if Qltb prev_time t
        then fig ++ [segment_trace id prev_time t prev_state]
        else fig in
      timeline_loop id history' t st fig
  end.

(** The body of the [for dredger in dredgers] loop. *)
Definition timeline_of (simulation_time : Q) (fig : list Trace) (dredger : TSHD)
  : list Trace :=
  match state_history dredger with
  | [] => fig
  | _ :: _ =>
      let '(prev_time, prev_state, fig) :=
        timeline_loop (tshd_entity_id dredger) (state_history dredger) 0 IDLE fig in
      if Qltb prev_time simulation_time
      then fig ++ [segment_trace (tshd_entity_id dredger) prev_time simulation_time
                     prev_state]
      else fig
  end.

(** [create_state_timeline]: the lines of the figure, in the order in which
    they are added; the layout of the figure is a constant. *)
Definition create_state_timeline (dredgers : list TSHD) (simulation_time : Q)
  : list Trace :=
  foldl (timeline_of simulation_time) [] dredgers.

(** * Specification vocabulary *)

(** Scenario B of the allocator: volumes 1000, 0, 500 and segments of
    length 2. *)
Definition scenario_B : SegmentManager :=
  {| segment_length_nm := 2; remaining_m3 := map (pymax 0) [1000; 0; 500] |}.

(** The heap invariant of [heapq]: no event is earlier than its parent. *)
Definition heap_ordered (h : list Event) : Prop :=
  ∀ i c p, (1 ≤ i)%nat → h !! i = Some c → h !! ((i - 1) / 2)%nat = Some p →
           time p <= time c.

(** The same, but for the pairs that involve the position [hole]. *)
Definition ordered_except (h : list Event) (hole : nat) : Prop :=
  ∀ i c p, (1 ≤ i)%nat → i ≠ hole → ((i - 1) / 2)%nat ≠ hole →
           h !! i = Some c → h !! ((i - 1) / 2)%nat = Some p →
           time p <= time c.

(** Every child of the position [hole] is at [x] or later. *)
Definition children_ge (h : list Event) (hole : nat) (x : Q) : Prop :=
  ∀ c ev, (1 ≤ c)%nat → ((c - 1) / 2)%nat = hole → h !! c = Some ev →
          x <= time ev.

(** The three state-entry markers; their handlers only log. *)
Definition is_marker (ty : EventType) : bool :=
  match ty with
  | MOVE_TO_DA_START | DUMPING_START | MOVE_BACK_START => true
  | _ => false
  end.

(** Several calls of [schedule_event] in a row. *)
Definition schedule_all (l : list Event) (q : list Event) : list Event :=
  foldl Heapq.heappush q l.

(** What a handler schedules, by the type of the handled event: [clk] is
    the clock, [id] the vessel's id, [mgr] tells whether a segment manager
    is attached. *)
Inductive follow_ups (clk : Q) (id : string) (mgr : bool)
  : EventType → list Event → Prop :=
| fu_idle :
    mgr = true → follow_ups clk id mgr DREDGING_START []
| fu_dredge c :
    event_type c = DREDGING_COMPLETE → entity_id c = id →
    clk + (1 # 10) <= time c →
    follow_ups clk id mgr DREDGING_START [c]
| fu_out m c :
    event_type m = MOVE_TO_DA_START → entity_id m = id → time m = clk →
    event_type c = MOVE_TO_DA_COMPLETE → entity_id c = id →
    clk + (1 # 100) <= time c →
    follow_ups clk id mgr DREDGING_COMPLETE [m; c]
| fu_out_marker :
    follow_ups clk id mgr MOVE_TO_DA_START []
| fu_dump m c :
    event_type m = DUMPING_START → entity_id m = id → time m = clk →
    event_type c = DUMPING_COMPLETE → entity_id c = id →
    clk + (5 # 100) <= time c →
    follow_ups clk id mgr MOVE_TO_DA_COMPLETE [m; c]
| fu_dump_marker :
    follow_ups clk id mgr DUMPING_START []
| fu_back m c :
    event_type m = MOVE_BACK_START → entity_id m = id → time m = clk →
    event_type c = MOVE_BACK_COMPLETE → entity_id c = id →
    clk + (1 # 100) <= time c →
    follow_ups clk id mgr DUMPING_COMPLETE [m; c]
| fu_back_marker :
    follow_ups clk id mgr MOVE_BACK_START []
| fu_again d :
    event_type d = DREDGING_START → entity_id d = id → time d = clk →
    follow_ups clk id mgr MOVE_BACK_COMPLETE [d].

(** The defaults of the [TSHDConfig] dataclass. *)
Definition TSHDConfig_default : TSHDConfig :=
  {| dredging_time := 2; dredging_stdev_pct := 10; speed_to_da := 10;
     distance_to_da := 5; moving_stdev_pct := 15; dumping_time := 1 # 2;
     dumping_stdev_pct := 10; speed_back := 10; distance_back := 5;
     hopper_capacity := 5000 |}.

(** Two generators: one that always returns the requested mean, one that
    always returns zero. *)
Definition exact_mean (mean stdev : Q) (k : nat) : Q := mean.
Definition zero_draw (mean stdev : Q) (k : nat) : Q := 0.

(** An engine with one registered vessel that has started work. *)
Definition one_vessel (id : string) (cfg : TSHDConfig) : Simulation :=
  start_work (TSHD_init id cfg)
    (set_entities (<[id := 0%nat]> ∅) (Simulation_init [TSHD_init id cfg] 0 [])).

(** The floor of each sampled phase. *)
Definition task_floor (task : string) : option Q :=
  if String.eqb task "dredging" then Some (1 # 10)
  else if String.eqb task "moving_to_da" then Some (1 # 100)
  else if String.eqb task "dumping" then Some (5 # 100)
  else if String.eqb task "moving_back" then Some (1 # 100)
  else None.

(** A sampled task is one of the four phases and lasts at least the floor
    of its phase. *)
Definition entry_floor_ok (entry : LogEntry) : Prop :=
  match entry with
  | LogEvent _ _ _ => True
  | LogTask _ task d _ _ _ _ =>
      match task_floor task with
      | Some f => f <= d
      | None => False
      end
  end.

Definition floors_ok (s : Simulation) : Prop :=
  Forall (λ v, Forall entry_floor_ok (event_log v)) (objects s).

(** The distances recorded with the sampled transits of a vessel. *)
Definition task_distances (v : TSHD) : list (string * Q) :=
  omap (λ entry,
          match entry with
          | LogTask _ task _ _ (Some d) _ _ => Some (task, d)
          | _ => None
          end) (event_log v).

(** An engine with no entity and one event, due at time 1. *)
Definition lone_event : Event :=
  {| time := 1; event_type := DREDGING_START; entity_id := "ghost"; data := ∅ |}.
Definition engine_with_lone_event : Simulation :=
  schedule_event lone_event (Simulation_init [] 0 []).

(** A default vessel on a channel whose first segment is empty: the work
    is in segment 2, at distance 2, while the configured distances are 5. *)
Definition far_segment : Simulation :=
  set_segment_manager
    (Some {| segment_length_nm := 2; remaining_m3 := map (pymax 0) [0; 1000] |})
    (one_vessel "TSHD-1" TSHDConfig_default).

(** The queue is a heap and holds no event earlier than the clock. *)
Definition engine_ok (s : Simulation) : Prop :=
  heap_ordered (event_queue s) ∧ Forall (λ e, clock s <= time e) (event_queue s).

(** A bound that [run] honours (a non-zero one) is not earlier than the
    clock. *)
Definition bound_ok (s : Simulation) (end_time : option Q) : Prop :=
  match end_time with
  | Some t => float_truthy t = true → clock s <= t
  | None => True
  end.

(** Calls made on an engine from outside. *)
Inductive call : Type :=
| Call_schedule_event (event : Event)
| Call_run (end_time : option Q).

(** A sequence of calls in which no event is scheduled earlier than the
    clock and no bound is earlier than the clock, each [run] returning. *)
Inductive timely_calls (normal : Q → Q → nat → Q)
  : Simulation → list call → Simulation → Prop :=
| timely_none s :
    timely_calls normal s [] s
| timely_schedule s event calls s' :
    clock s <= time event →
    timely_calls normal (schedule_event event s) calls s' →
    timely_calls normal s (Call_schedule_event event :: calls) s'
| timely_run s end_time fuel s1 calls s' :
    bound_ok s end_time →
    run normal fuel end_time s = Done s1 →
    timely_calls normal s1 calls s' →
    timely_calls normal s (Call_run end_time :: calls) s'.

(** An engine with no entity and one event, due at time 6. *)
Definition late_event : Event :=
  {| time := 6; event_type := DREDGING_START; entity_id := "ghost"; data := ∅ |}.
Definition engine_with_late_event : Simulation :=
  schedule_event late_event (Simulation_init [] 0 []).

(** Every registered reference leads to an object, and that object carries
    the id it is registered under (the callers register a vessel with
    [sim.entities[dredger.entity_id] = dredger]). *)
Definition registry_ok (s : Simulation) : Prop :=
  ∀ id ref, entities s !! id = Some ref →
            ∃ v, objects s !! ref = Some v ∧ tshd_entity_id v = id.

(** No segment manager is attached and the queue holds an event of a
    registered vessel that is not a marker. *)
Definition keeps_going (s : Simulation) : Prop :=
  segment_manager s = None ∧ registry_ok s ∧
  ∃ e, e ∈ event_queue s ∧ is_marker (event_type e) = false ∧
       is_Some (entities s !! entity_id e).

(** Sum of a list of floats, for statements up to the order of the terms. *)
Definition Qsum (l : list Q) : Q := foldr Qplus 0 l.

(** The volumes recorded with the dredging samples of a vessel: the
    ['volume_m3'] of the entries of [event_log] whose ['task'] is
    ['dredging']. *)
Definition logged_volumes (v : TSHD) : list Q :=
  omap (λ entry,
          match entry with
          | LogTask _ task _ (Some vol) _ _ _ =>
              if String.eqb task "dredging" then Some vol else None
          | _ => None
          end) (event_log v).

(** The volume an event carries under ['allocated_volume_m3']. *)
Definition event_volume (e : Event) : Q :=
  match data e !! "allocated_volume_m3" with
  | Some (VFloat x) => x
  | _ => 0
  end.

(** The volume a DREDGING_COMPLETE event will load; nothing for the other
    events. *)
Definition dc_volume (e : Event) : Q :=
  match event_type e with
  | DREDGING_COMPLETE => event_volume e
  | _ => 0
  end.

(** What the queued event [e] will load into the object [ref]. *)
Definition in_progress (registry : gmap string nat) (ref : nat) (e : Event) : Q :=
  match registry !! entity_id e with
  | Some r => if decide (r = ref) then dc_volume e else 0
  | None => 0
  end.

(** The volume of the dredging phases of the object [ref] that have been
    sampled and are not completed yet. *)
Definition volume_in_progress (s : Simulation) (ref : nat) : Q :=
  Qsum (map (in_progress (entities s) ref) (event_queue s)).

(** A DREDGING_COMPLETE event carries a volume, and that volume is not
    negative. *)
Definition carries_volume (e : Event) : Prop :=
  event_type e = DREDGING_COMPLETE →
  ∃ x, data e !! "allocated_volume_m3" = Some (VFloat x) ∧ 0 <= x.

(** The accounting of dredged volumes: for every vessel, what its log
    records is what it has loaded plus what it is loading. *)
Definition accounting_ok (s : Simulation) : Prop :=
  registry_ok s ∧
  Forall carries_volume (event_queue s) ∧
  ∀ ref v, objects s !! ref = Some v →
    0 <= hopper_capacity (config v) ∧
    Qsum (logged_volumes v) == total_dredged v + volume_in_progress s ref.

(** A bound on the rounds that a queued event can still cause before the
    horizon [h]: nothing once it is beyond the horizon, one round for a
    marker, and otherwise a number that grows with the hundredths of a time
    unit left before the horizon (every completion is at least 0.01 after
    the event that schedules it). *)
Definition hops (h t : Q) : nat := Z.to_nat (Qfloor ((h - t) * 100)).

Definition weight (h : Q) (e : Event) : nat :=
  if Qltb h (time e) then 0%nat
  else
    match event_type e with
    | MOVE_TO_DA_START | DUMPING_START | MOVE_BACK_START => 1%nat
    | DREDGING_START => (4 * hops h (time e) + 2)%nat
    | _ => (4 * hops h (time e) + 4)%nat
    end.

Definition queue_weight (h : Q) (q : list Event) : nat := sum_list_with (weight h) q.






(** The mean duration of a full cycle of a vessel. *)
Definition mean_cycle (cfg : TSHDConfig) : Q :=
  dredging_time cfg + distance_to_da cfg / speed_to_da cfg + dumping_time cfg
  + distance_back cfg / speed_back cfg.





(** A queue with at most one event, or with a marker and one later event:
    what the queue of an engine with a single vessel looks like. *)
Definition tidy (q : list Event) : Prop :=
  q = [] ∨ (∃ e, q = [e]) ∨
  ∃ m c, q = [m; c] ∧ is_marker (event_type m) = true ∧ time m < time c.

(** Successive calls of [run] on the same engine with the given bounds,
    each with the given fuel; an exception ends the sequence. *)
Fixpoint run_each (normal : Q → Q → nat → Q) (fuel : nat) (bounds : list Q)
    (s : Simulation) : outcome Simulation :=
  match bounds with
  | [] => Done s
  | bound :: bounds' =>
      match run normal fuel (Some bound) s with
      | Done s1 => run_each normal fuel bounds' s1
      | Raised e => Raised e
      | OutOfFuel => OutOfFuel
      end
  end.

(** A generator whose third draw is one spread above the mean, the others
    being the mean. *)
Definition third_draw_high (mean stdev : Q) (k : nat) : Q :=
  if Nat.eqb k 2 then mean + stdev else mean.

(** Two default vessels, registered and started in this order. *)
Definition two_vessels : Simulation :=
  start_work (TSHD_init "B" TSHDConfig_default)
    (start_work (TSHD_init "A" TSHDConfig_default)
       (set_entities (<["B" := 1%nat]> (<["A" := 0%nat]> ∅))
          (Simulation_init [TSHD_init "A" TSHDConfig_default;
                            TSHD_init "B" TSHDConfig_default] 0 []))).

(** The sampled durations a vessel has recorded, in lowest terms. *)
Definition sampled_durations (v : TSHD) : list (string * Q) :=
  omap (λ entry,
          match entry with
          | LogTask _ task d _ _ _ _ => Some (task, Qred d)
          | _ => None
          end) (event_log v).

(** ** Vocabulary of the further properties *)

(** The messages of a log: its entries that are not sampled tasks. *)
Definition is_message (entry : LogEntry) : bool :=
  match entry with
  | LogEvent _ _ _ => true
  | LogTask _ _ _ _ _ _ _ => false
  end.

Definition messages (log : list LogEntry) : nat :=
  sum_list_with (λ entry, if is_message entry then 1%nat else 0%nat) log.

(** The messages logged by all the vessels of an engine, and the cycles
    they have completed. *)
Definition total_messages (s : Simulation) : nat :=
  sum_list_with (λ v, messages (event_log v)) (objects s).

Definition total_cycles (s : Simulation) : Z :=
  foldr Z.add 0%Z (map cycle_count (objects s)).


(** A reference under which no id is registered. *)
Definition unregistered (s : Simulation) (ref : nat) : Prop :=
  ∀ id, entities s !! id ≠ Some ref.



(** The event with which [start_work] starts the vessel [id]. *)
Definition start_event (id : string) : Event :=
  {| time := 0; event_type := DREDGING_START; entity_id := id; data := ∅ |}.

(** A configuration with which the mean cycle cannot be computed. *)
Definition zero_speed (cfg : TSHDConfig) : Prop :=
  speed_to_da cfg == 0 ∨ speed_back cfg == 0.

(** No two events of the queue are due at the same time. *)
Fixpoint tie_free (q : list Event) : Prop :=
  match q with
  | [] => True
  | e :: q' => Forall (λ x, ¬ time x == time e) q' ∧ tie_free q'
  end.

(** Calling [run] with each of the bounds in turn, every call that returns
    leaves a queue in which no two events are due at the same time. *)
Fixpoint stops_without_ties (normal : Q → Q → nat → Q) (bounds : list Q)
    (s : Simulation) : Prop :=
  match bounds with
  | [] => True
  | bound :: bounds' =>
      ∀ fuel s1, run normal fuel (Some bound) s = Done s1 →
                 tie_free (event_queue s1) ∧ stops_without_ties normal bounds' s1
  end.

(** Two vessels with different dredging times, registered and started in
    this order. *)
Definition slow_config : TSHDConfig :=
  {| dredging_time := 22 # 10; dredging_stdev_pct := 10; speed_to_da := 10;
     distance_to_da := 5; moving_stdev_pct := 15; dumping_time := 1 # 2;
     dumping_stdev_pct := 10; speed_back := 10; distance_back := 5;
     hopper_capacity := 5000 |}.

Definition two_different_vessels : Simulation :=
  start_work (TSHD_init "B" slow_config)
    (start_work (TSHD_init "A" TSHDConfig_default)
       (set_entities (<["B" := 1%nat]> (<["A" := 0%nat]> ∅))
          (Simulation_init [TSHD_init "A" TSHDConfig_default;
                            TSHD_init "B" slow_config] 0 []))).

(** * Properties *)

(** ** Facts on the float model *)

Lemma Qltb_lt (a b : Q) : Qltb a b = true ↔ a < b.
Proof.
  unfold Qltb. rewrite negb_true_iff. split.
  - intros H. apply Qnot_le_lt. intros Hle.
    apply Qle_bool_iff in Hle. congruence.
  - intros H. destruct (Qle_bool b a) eqn:E; [|reflexivity].
    apply Qle_bool_iff in E. exfalso. exact (Qlt_not_le _ _ H E).
Qed.

Lemma Qltb_ge (a b : Q) : Qltb a b = false ↔ b <= a.
Proof.
  unfold Qltb. rewrite negb_false_iff. apply Qle_bool_iff.
Qed.

Lemma Qle_bool_false (a b : Q) : Qle_bool a b = false ↔ b < a.
Proof.
  rewrite <- Qltb_lt. unfold Qltb. rewrite negb_true_iff. reflexivity.
Qed.

Lemma pymax_floor (a b : Q) : a <= pymax a b.
Proof.
  unfold pymax. destruct (Qltb a b) eqn:E.
  - apply Qltb_lt in E. apply Qlt_le_weak. exact E.
  - apply Qle_refl.
Qed.

Lemma pymax_arg (a b : Q) : b <= pymax a b.
Proof.
  unfold pymax. destruct (Qltb a b) eqn:E.
  - apply Qle_refl.
  - apply Qltb_ge in E. exact E.
Qed.

Lemma pymin_Qmin (a b : Q) : pymin a b = Qmin a b.
Proof.
  unfold pymin, Qmin, GenericMinMax.gmin.
  destruct (Qltb b a) eqn:E.
  - apply Qltb_lt in E. apply Qgt_alt in E. rewrite E. reflexivity.
  - apply Qltb_ge in E. destruct (a ?= b) eqn:C; try reflexivity.
    apply Qgt_alt in C. exfalso. exact (Qlt_not_le _ _ C E).
Qed.

(** ** segments.py: the allocation policy *)

Lemma first_with_work_None (i : nat) (l : list Q) :
  first_with_work i l = None ↔ Forall (λ v, ¬ 0 < v) l.
Proof.
  revert i. induction l as [|v l IH]; intros i; simpl.
  - split; [constructor | reflexivity].
  - destruct (Qltb 0 v) eqn:E.
    + apply Qltb_lt in E. split; [discriminate|].
      intros H. inversion H; subst. contradiction.
    + apply Qltb_ge in E. rewrite IH. split.
      * intros H. constructor; [|exact H]. apply Qle_not_lt. exact E.
      * intros H. inversion H; subst. assumption.
Qed.

Lemma first_with_work_lookup (i : nat) (l : list Q) (k : nat) :
  first_with_work i l = Some k →
  (i < k)%nat ∧
  ∃ v, l !! (k - 1 - i)%nat = Some v ∧ 0 < v ∧
       ∀ j w, (j < k - 1 - i)%nat → l !! j = Some w → ¬ 0 < w.
Proof.
  revert i. induction l as [|v l IH]; intros i; simpl; [discriminate|].
  destruct (Qltb 0 v) eqn:E.
  - intros [= <-]. apply Qltb_lt in E. split; [lia|].
    exists v. replace (i + 1 - 1 - i)%nat with 0%nat by lia.
    split; [reflexivity|]. split; [exact E|]. intros j w Hj. lia.
  - intros H. apply IH in H as (Hlt & w & Hw & Hpos & Hbefore).
    apply Qltb_ge in E. split; [lia|]. exists w.
    replace (k - 1 - i)%nat with (S (k - 1 - S i)) by lia.
    split; [exact Hw|]. split; [exact Hpos|].
    intros [|j] u Hj Hu; simpl in Hu.
    + injection Hu as <-. apply Qle_not_lt. exact E.
    + apply (Hbefore j u); [lia | exact Hu].
Qed.


(** C4.  [allocate v] with [v > 0] is [None] exactly when no segment has a
    positive remaining volume; otherwise it serves the lowest-index segment
    with positive remaining volume, takes [min v remaining] from it and
    from it alone, and reports the distance [(index - 1) * length].  With
    volumes [1000, 0, 500] and length 2, three calls of [allocate 5000]
    give (1, 1000, 0), (3, 500, 4) and [None].  With [v <= 0] the result is
    [None] and nothing changes. *)
Theorem allocate_policy (m : SegmentManager) (v : Q) :
  (0 < v →
     (fst (allocate m v) = None ↔ Forall (λ r, ¬ 0 < r) (remaining_m3 m)) ∧
     (fst (allocate m v) = None → snd (allocate m v) = m) ∧
     ∀ a, fst (allocate m v) = Some a →
       ∃ r, (1 ≤ segment_index a)%nat ∧
            remaining_m3 m !! (segment_index a - 1)%nat = Some r ∧
            0 < r ∧
            (∀ j w, (j < segment_index a - 1)%nat →
                    remaining_m3 m !! j = Some w → ¬ 0 < w) ∧
            volume_m3 a = Qmin v r ∧
            distance_to_da_nm a =
              inject_Z (Z.of_nat (segment_index a) - 1) * segment_length_nm m ∧
            segment_length_nm (snd (allocate m v)) = segment_length_nm m ∧
            remaining_m3 (snd (allocate m v)) =
              <[(segment_index a - 1)%nat := r - Qmin v r]> (remaining_m3 m)) ∧
  (v <= 0 → allocate m v = (None, m)) ∧
  (SegmentManager_init [1000; 0; 500] 2 = Ok scenario_B ∧
   let '(a1, m1) := allocate scenario_B 5000 in
   let '(a2, m2) := allocate m1 5000 in
   let '(a3, m3) := allocate m2 5000 in
   a1 = Some {| segment_index := 1; volume_m3 := 1000; distance_to_da_nm := 0 |} ∧
   a2 = Some {| segment_index := 3; volume_m3 := 500; distance_to_da_nm := 4 |} ∧
   a3 = None).
Proof.
  split; [|split].
  - intros Hv. unfold allocate.
    assert (Qle_bool v 0 = false) as -> by (apply Qle_bool_false; exact Hv).
    unfold next_segment_with_work.
    destruct (first_with_work 0 (remaining_m3 m)) as [k|] eqn:F.
    + pose proof (first_with_work_lookup _ _ _ F) as (Hk & r & Hr & Hpos & Hbefore).
      replace (k - 1 - 0)%nat with (k - 1)%nat in * by lia.
      rewrite Hr. simpl. split; [|split].
      * split; [discriminate|]. intros HF.
        apply first_with_work_None with (i := 0%nat) in HF. congruence.
      * discriminate.
      * intros a [= <-]. simpl. exists r. rewrite pymin_Qmin.
        repeat split; try assumption; try reflexivity; lia.
    + simpl. split; [|split].
      * split; [|reflexivity]. intros _. eapply first_with_work_None. exact F.
      * reflexivity.
      * discriminate.
  - intros Hv. unfold allocate.
    apply Qle_bool_iff in Hv. rewrite Hv. reflexivity.
  - vm_compute. repeat split; reflexivity.
Qed.

Lemma allocate_policy_witness :
  fst (allocate scenario_B 5000) ≠ None ∧ allocate scenario_B (-1) = (None, scenario_B).
Proof.
  destruct (allocate_policy scenario_B 5000) as (H & _ & _).
  destruct (allocate_policy scenario_B (-1)) as (_ & H' & _).
  split.
  - assert (0 < 5000) as Hv by reflexivity.
    destruct (H Hv) as (Hnone & _ & _). intros E. apply Hnone in E.
    inversion E as [|? ? Hx _]; subst. apply Hx. reflexivity.
  - apply H'. discriminate.
Defined.
(** ** heapq: pushes and pops keep the events *)

Section HeapqFacts.
Import Heapq.

Lemma insert_cons_Permutation (l : list Event) (i : nat) (a b : Event) :
  l !! i = Some a → a :: <[i := b]> l ≡ₚ b :: l.
Proof.
  revert i. induction l as [|x l IH]; intros [|i] H; simpl in *; try discriminate.
  - injection H as ->. apply perm_swap.
  - rewrite (perm_swap x a). rewrite (IH i H). apply perm_swap.
Qed.

(** Filling a hole at [j] with the item at [i] and putting [y] at [i] is, up
    to order, putting [y] in the hole. *)
Lemma hole_move_Permutation (h : list Event) (i j : nat) (x y : Event) :
  i ≠ j → h !! i = Some x → (j < length h)%nat →
  <[i := y]> (<[j := x]> h) ≡ₚ <[j := y]> h.
Proof.
  intros Hij Hi Hj.
  destruct (lookup_lt_is_Some_2 h j Hj) as [z Hz].
  apply (Permutation_cons_inv (a := x)).
  apply (Permutation_cons_inv (a := z)).
  assert (<[j := x]> h !! i = Some x) as Hi'.
  { rewrite list_lookup_insert_ne by congruence. exact Hi. }
  rewrite (insert_cons_Permutation _ _ _ y Hi').
  rewrite (perm_swap y z).
  rewrite (insert_cons_Permutation _ _ _ x Hz).
  rewrite (perm_swap x z).
  rewrite (insert_cons_Permutation _ _ _ y Hz).
  rewrite (perm_swap x y). reflexivity.
Qed.

Lemma siftdown_loop_Permutation (n : nat) (heap : list Event)
    (startpos pos : nat) (newitem : Event) :
  (pos < length heap)%nat →
  siftdown_loop n heap startpos pos newitem ≡ₚ <[pos := newitem]> heap.
Proof.
  revert heap pos. induction n as [|n IH]; intros heap pos Hpos;
    cbn [siftdown_loop].
  - reflexivity.
  - destruct (startpos <? pos)%nat eqn:E; [|reflexivity].
    apply Nat.ltb_lt in E.
    destruct (heap !! ((pos - 1) / 2)%nat) as [parent|] eqn:P; [|reflexivity].
    destruct (Event_lt newitem parent); [|reflexivity].
    assert ((pos - 1) / 2 < pos)%nat as Hlt.
    { apply Nat.Div0.div_lt_upper_bound. lia. }
    rewrite IH by (rewrite length_insert; lia).
    apply hole_move_Permutation; [lia | exact P | exact Hpos].
Qed.

Lemma _siftdown_Permutation (heap : list Event) (startpos pos : nat) :
  _siftdown heap startpos pos ≡ₚ heap.
Proof.
  unfold _siftdown. destruct (heap !! pos) as [x|] eqn:E; [|reflexivity].
  rewrite siftdown_loop_Permutation by (eapply lookup_lt_Some; exact E).
  rewrite list_insert_id by exact E. reflexivity.
Qed.

Lemma siftup_loop_Permutation (n : nat) (heap : list Event) (pos : nat) :
  (pos < length heap)%nat →
  let '(heap', leaf) := siftup_loop n heap pos in
  (leaf < length heap')%nat ∧
  ∀ x, <[leaf := x]> heap' ≡ₚ <[pos := x]> heap.
Proof.
  revert heap pos. induction n as [|n IH]; intros heap pos Hpos;
    cbn [siftup_loop].
  - split; [exact Hpos | reflexivity].
  - destruct (2 * pos + 1 <? length heap)%nat eqn:E;
      [|split; [exact Hpos | reflexivity]].
    set (c := match heap !! (2 * pos + 1)%nat with
              | Some l =>
                  match heap !! (2 * pos + 1 + 1)%nat with
                  | Some r =>
                      if negb (Event_lt l r)
                      then (2 * pos + 1 + 1)%nat
                      else (2 * pos + 1)%nat
                  | None => (2 * pos + 1)%nat
                  end
              | None => (2 * pos + 1)%nat
              end).
    assert (pos < c)%nat as Hc.
    { subst c. destruct (heap !! _); [|lia].
      destruct (heap !! _); [|lia]. destruct (negb _); lia. }
    destruct (heap !! c) as [x|] eqn:X; [|split; [exact Hpos | reflexivity]].
    assert (c < length heap)%nat as Hlen by (eapply lookup_lt_Some; exact X).
    specialize (IH (<[pos := x]> heap) c).
    rewrite length_insert in IH. specialize (IH Hlen).
    destruct (siftup_loop n (<[pos := x]> heap) c) as [heap' leaf].
    destruct IH as [Hleaf IH]. split; [exact Hleaf|].
    intros y. rewrite IH.
    apply hole_move_Permutation; [lia | exact X | exact Hpos].
Qed.

Lemma _siftup_Permutation (heap : list Event) (pos : nat) :
  _siftup heap pos ≡ₚ heap.
Proof.
  unfold _siftup. destruct (heap !! pos) as [x|] eqn:E; [|reflexivity].
  assert (pos < length heap)%nat as Hpos by (eapply lookup_lt_Some; exact E).
  pose proof (siftup_loop_Permutation (length heap) heap pos Hpos) as H.
  destruct (siftup_loop (length heap) heap pos) as [heap' leaf].
  destruct H as [_ H]. rewrite _siftdown_Permutation, H.
  rewrite list_insert_id by exact E. reflexivity.
Qed.

Lemma heappush_Permutation (heap : list Event) (item : Event) :
  heappush heap item ≡ₚ item :: heap.
Proof.
  unfold heappush. rewrite _siftdown_Permutation.
  symmetry. apply Permutation_cons_append.
Qed.

Lemma heappop_Permutation (heap : list Event) (e : Event) (rest : list Event) :
  heappop heap = Some (e, rest) → heap ≡ₚ e :: rest.
Proof.
  unfold heappop. destruct (last heap) as [lastelt|] eqn:L; [|discriminate].
  apply last_Some in L as [front ->]. rewrite removelast_last.
  destruct front as [|returnitem front].
  - intros [= <- <-]. reflexivity.
  - intros [= <- <-]. rewrite _siftup_Permutation. simpl.
    apply perm_skip. rewrite <- Permutation_cons_append. reflexivity.
Qed.

Lemma heappop_nonempty (heap : list Event) :
  heap ≠ [] → ∃ e rest, heappop heap = Some (e, rest).
Proof.
  intros H. unfold heappop.
  destruct (last heap) as [lastelt|] eqn:L.
  - destruct (removelast heap); eauto.
  - apply last_None in L. contradiction.
Qed.

(** The popped event is the root of the heap. *)
Lemma heappop_root (heap : list Event) (e : Event) (rest : list Event) :
  heappop heap = Some (e, rest) → heap !! 0%nat = Some e.
Proof.
  unfold heappop. destruct (last heap) as [lastelt|] eqn:L; [|discriminate].
  apply last_Some in L as [front ->]. rewrite removelast_last.
  destruct front as [|returnitem front]; intros [= <- <-]; reflexivity.
Qed.

End HeapqFacts.
(** ** heapq: pushes and pops keep the heap invariant *)

Section HeapqOrder.
Import Heapq.

Lemma parent_children (c pos : nat) :
  (1 ≤ c)%nat →
  ((c - 1) / 2 = pos)%nat ↔ (c = 2 * pos + 1 ∨ c = 2 * pos + 2)%nat.
Proof.
  intros H. split.
  - intros <-. pose proof (Nat.div_mod_eq (c - 1) 2).
    pose proof (Nat.mod_upper_bound (c - 1) 2). lia.
  - intros [-> | ->].
    + replace (2 * pos + 1 - 1)%nat with (pos * 2)%nat by lia.
      apply Nat.div_mul. lia.
    + replace (2 * pos + 2 - 1)%nat with (1 + pos * 2)%nat by lia.
      rewrite Nat.div_add by lia. reflexivity.
Qed.

Lemma parent_lt (i : nat) : (1 ≤ i)%nat → ((i - 1) / 2 < i)%nat.
Proof. intros H. apply Nat.Div0.div_lt_upper_bound. lia. Qed.

Lemma Event_lt_spec (a b : Event) : Event_lt a b = true ↔ time a < time b.
Proof. apply Qltb_lt. Qed.

Lemma Event_lt_false (a b : Event) : Event_lt a b = false ↔ time b <= time a.
Proof. apply Qltb_ge. Qed.

Lemma heap_ordered_except (h : list Event) (hole : nat) :
  heap_ordered h → ordered_except h hole.
Proof. intros H i c p Hi _ _. apply H. exact Hi. Qed.

(** Filling the hole with an item that fits gives a heap. *)
Lemma fill_hole_ordered (h : list Event) (pos : nat) (x : Event) :
  ordered_except h pos →
  children_ge h pos (time x) →
  (∀ p, (1 ≤ pos)%nat → h !! ((pos - 1) / 2)%nat = Some p → time p <= time x) →
  heap_ordered (<[pos := x]> h).
Proof.
  intros Ha Hb Hp i c p Hi Hc Hpar.
  destruct (decide (i = pos)) as [->|Hne].
  - pose proof (parent_lt pos Hi).
    rewrite list_lookup_insert_ne in Hpar by lia.
    apply lookup_lt_Some in Hc as Hlen. rewrite length_insert in Hlen.
    rewrite list_lookup_insert_eq in Hc by exact Hlen.
    injection Hc as <-. apply (Hp p Hi Hpar).
  - rewrite list_lookup_insert_ne in Hc by congruence.
    destruct (decide (((i - 1) / 2)%nat = pos)) as [E|E].
    + rewrite E in Hpar. apply lookup_lt_Some in Hpar as Hlen.
      rewrite length_insert in Hlen.
      rewrite list_lookup_insert_eq in Hpar by exact Hlen.
      injection Hpar as <-. apply (Hb i c Hi E Hc).
    + rewrite list_lookup_insert_ne in Hpar by congruence.
      apply (Ha i c p Hi Hne E Hc Hpar).
Qed.

Lemma siftdown_loop_ordered (n : nat) (h : list Event) (pos : nat)
    (newitem : Event) :
  (pos ≤ n)%nat → (pos < length h)%nat →
  ordered_except h pos →
  children_ge h pos (time newitem) →
  (∀ p, (1 ≤ pos)%nat → h !! ((pos - 1) / 2)%nat = Some p →
        children_ge h pos (time p)) →
  heap_ordered (siftdown_loop n h 0 pos newitem).
Proof.
  revert h pos. induction n as [|n IH]; intros h pos Hn Hlen Ha Hb Hc;
    cbn [siftdown_loop].
  - apply fill_hole_ordered; [exact Ha | exact Hb | intros; lia].
  - destruct (0 <? pos)%nat eqn:E.
    2:{ apply Nat.ltb_ge in E.
        apply fill_hole_ordered; [exact Ha | exact Hb | intros; lia]. }
    apply Nat.ltb_lt in E. pose proof (parent_lt pos E) as Hpar.
    destruct (h !! ((pos - 1) / 2)%nat) as [parent|] eqn:P.
    2:{ apply fill_hole_ordered; [exact Ha | exact Hb | intros; congruence]. }
    destruct (Event_lt newitem parent) eqn:L.
    2:{ apply Event_lt_false in L.
        apply fill_hole_ordered; [exact Ha | exact Hb |].
        intros p _ Hp. congruence. }
    apply Event_lt_spec in L.
    specialize (Hc parent E eq_refl).
    apply IH; [lia | rewrite length_insert; lia | | |].
    + intros i c p Hi Hne Hne' Hic Hip.
      destruct (decide (i = pos)) as [->|Hipos]; [congruence|].
      rewrite list_lookup_insert_ne in Hic by congruence.
      destruct (decide (((i - 1) / 2)%nat = pos)) as [Epos|Epos].
      * rewrite Epos in Hip. rewrite list_lookup_insert_eq in Hip by exact Hlen.
        injection Hip as <-. apply (Hc i c Hi Epos Hic).
      * rewrite list_lookup_insert_ne in Hip by congruence.
        apply (Ha i c p Hi Hipos Epos Hic Hip).
    + intros c ev Hc1 Hcp Hcev.
      destruct (decide (c = pos)) as [->|Hcpos].
      * rewrite list_lookup_insert_eq in Hcev by exact Hlen.
        injection Hcev as <-. apply Qlt_le_weak. exact L.
      * rewrite list_lookup_insert_ne in Hcev by congruence.
        apply Qlt_le_weak. eapply Qlt_le_trans; [exact L|].
        apply (Ha c ev parent Hc1 Hcpos); [lia | exact Hcev |].
        rewrite Hcp. exact P.
    + intros g Hg Hgp c ev Hc1 Hcp Hcev.
      pose proof (parent_lt _ Hg) as Hgl.
      rewrite list_lookup_insert_ne in Hgp by lia.
      assert (time g <= time parent) as Hgparent.
      { apply (Ha ((pos - 1) / 2)%nat parent g Hg); [lia | lia | exact P | exact Hgp]. }
      destruct (decide (c = pos)) as [->|Hcpos].
      * rewrite list_lookup_insert_eq in Hcev by exact Hlen.
        injection Hcev as <-. exact Hgparent.
      * rewrite list_lookup_insert_ne in Hcev by congruence.
        eapply Qle_trans; [exact Hgparent|].
        apply (Ha c ev parent Hc1 Hcpos); [lia | exact Hcev |].
        rewrite Hcp. exact P.
Qed.

Lemma siftup_loop_ordered (n : nat) (h : list Event) (pos : nat) :
  (length h ≤ n + pos)%nat → (pos < length h)%nat →
  ordered_except h pos →
  (∀ p, (1 ≤ pos)%nat → h !! ((pos - 1) / 2)%nat = Some p →
        children_ge h pos (time p)) →
  let '(h', leaf) := siftup_loop n h pos in
  (leaf < length h')%nat ∧ (length h' ≤ 2 * leaf + 1)%nat ∧
  ordered_except h' leaf.
Proof.
  revert h pos. induction n as [|n IH]; intros h pos Hn Hlen Ha Hc;
    cbn [siftup_loop].
  - split; [exact Hlen|]. split; [lia | exact Ha].
  - destruct (2 * pos + 1 <? length h)%nat eqn:E.
    2:{ apply Nat.ltb_ge in E. split; [exact Hlen|]. split; [lia | exact Ha]. }
    apply Nat.ltb_lt in E.
    destruct (lookup_lt_is_Some_2 h (2 * pos + 1) E) as [l Hl].
    rewrite Hl.
    set (cp := match h !! (2 * pos + 1 + 1)%nat with
               | Some r => if negb (Event_lt l r) then (2 * pos + 1 + 1)%nat
                           else (2 * pos + 1)%nat
               | None => (2 * pos + 1)%nat
               end).
    assert (∃ x, h !! cp = Some x ∧ (cp = 2 * pos + 1 ∨ cp = 2 * pos + 2)%nat ∧
                 children_ge h pos (time x)) as (x & Hx & Hcp & Hmin).
    { subst cp. destruct (h !! (2 * pos + 1 + 1)%nat) as [r|] eqn:R.
      - destruct (Event_lt l r) eqn:L; simpl.
        + apply Event_lt_spec in L. exists l. split; [exact Hl|].
          split; [lia|]. intros c ev Hc1 Hcpar Hcev.
          apply parent_children in Hcpar; [|exact Hc1]. destruct Hcpar as [-> | ->].
          * rewrite Hl in Hcev. injection Hcev as <-. apply Qle_refl.
          * replace (2 * pos + 2)%nat with (2 * pos + 1 + 1)%nat in Hcev by lia.
            rewrite R in Hcev. injection Hcev as <-. apply Qlt_le_weak. exact L.
        + apply Event_lt_false in L. exists r. split; [exact R|].
          split; [lia|]. intros c ev Hc1 Hcpar Hcev.
          apply parent_children in Hcpar; [|exact Hc1]. destruct Hcpar as [-> | ->].
          * rewrite Hl in Hcev. injection Hcev as <-. exact L.
          * replace (2 * pos + 2)%nat with (2 * pos + 1 + 1)%nat in Hcev by lia.
            rewrite R in Hcev. injection Hcev as <-. apply Qle_refl.
      - exists l. split; [exact Hl|]. split; [lia|].
        intros c ev Hc1 Hcpar Hcev.
        apply parent_children in Hcpar; [|exact Hc1]. destruct Hcpar as [-> | ->].
        + rewrite Hl in Hcev. injection Hcev as <-. apply Qle_refl.
        + replace (2 * pos + 2)%nat with (2 * pos + 1 + 1)%nat in Hcev by lia.
          congruence. }
    rewrite Hx.
    assert (cp < length h)%nat as Hcplen by (eapply lookup_lt_Some; exact Hx).
    assert (((cp - 1) / 2)%nat = pos) as Hcppar.
    { apply parent_children; lia. }
    specialize (IH (<[pos := x]> h) cp).
    rewrite length_insert in IH.
    assert (ordered_except (<[pos := x]> h) cp) as Ha'.
    { intros i c p Hi Hne Hne' Hic Hip.
      destruct (decide (i = pos)) as [->|Hipos].
      - rewrite list_lookup_insert_eq in Hic by exact Hlen. injection Hic as <-.
        pose proof (parent_lt pos Hi).
        rewrite list_lookup_insert_ne in Hip by lia.
        apply (Hc p Hi Hip cp x); [lia | exact Hcppar | exact Hx].
      - rewrite list_lookup_insert_ne in Hic by congruence.
        destruct (decide (((i - 1) / 2)%nat = pos)) as [Epos|Epos].
        + rewrite Epos in Hip.
          rewrite list_lookup_insert_eq in Hip by exact Hlen.
          injection Hip as <-. apply (Hmin i c Hi Epos Hic).
        + rewrite list_lookup_insert_ne in Hip by congruence.
          apply (Ha i c p Hi Hipos Epos Hic Hip). }
    assert (∀ p, (1 ≤ cp)%nat → <[pos := x]> h !! ((cp - 1) / 2)%nat = Some p →
                 children_ge (<[pos := x]> h) cp (time p)) as Hc'.
    { intros p _ Hp. rewrite Hcppar in Hp.
      rewrite list_lookup_insert_eq in Hp by exact Hlen. injection Hp as <-.
      intros c ev Hc1 Hcpar Hcev.
      assert (c ≠ pos).
      { intros ->. pose proof (parent_lt pos Hc1). lia. }
      rewrite list_lookup_insert_ne in Hcev by congruence.
      apply (Ha c ev x Hc1); [congruence | lia | exact Hcev |].
      rewrite Hcpar. exact Hx. }
    specialize (IH ltac:(lia) Hcplen Ha' Hc').
    destruct (siftup_loop n (<[pos := x]> h) cp) as [h' leaf]. exact IH.
Qed.

Lemma _siftup_root_ordered (h : list Event) :
  ordered_except h 0 → heap_ordered (_siftup h 0).
Proof.
  intros Ha. unfold _siftup.
  destruct (h !! 0%nat) as [newitem|] eqn:E.
  2:{ destruct h; [|discriminate]. intros i c p _ Hc. discriminate. }
  assert (0 < length h)%nat as Hlen by (eapply lookup_lt_Some; exact E).
  pose proof (siftup_loop_ordered (length h) h 0 ltac:(lia) Hlen Ha
                ltac:(intros; lia)) as H.
  destruct (siftup_loop (length h) h 0) as [h' leaf].
  destruct H as (Hleaf & Hnochild & Ha').
  unfold _siftdown. rewrite list_lookup_insert_eq by exact Hleaf.
  assert (∀ x, children_ge (<[leaf := newitem]> h') leaf x) as Hnone.
  { intros x c ev Hc1 Hcpar Hcev. apply lookup_lt_Some in Hcev.
    rewrite length_insert in Hcev.
    apply parent_children in Hcpar; lia. }
  apply siftdown_loop_ordered;
    [lia | rewrite length_insert; exact Hleaf | | apply Hnone
     | intros; apply Hnone].
  intros i c p Hi Hne Hne' Hic Hip.
  rewrite list_lookup_insert_ne in Hic by congruence.
  rewrite list_lookup_insert_ne in Hip by congruence.
  apply (Ha' i c p Hi Hne Hne' Hic Hip).
Qed.

Lemma heappush_ordered (h : list Event) (item : Event) :
  heap_ordered h → heap_ordered (heappush h item).
Proof.
  intros Hh. unfold heappush, _siftdown.
  rewrite lookup_app_r by lia. rewrite Nat.sub_diag. simpl.
  assert (∀ x, children_ge (h ++ [item]) (length h) x) as Hnone.
  { intros x c ev Hc1 Hcpar Hcev. apply lookup_lt_Some in Hcev.
    rewrite length_app in Hcev. simpl in Hcev.
    apply parent_children in Hcpar; lia. }
  apply siftdown_loop_ordered;
    [lia | rewrite length_app; simpl; lia | | apply Hnone | intros; apply Hnone].
  intros i c p Hi Hne Hne' Hic Hip.
  assert (i < length h)%nat as Hil.
  { apply lookup_lt_Some in Hic. rewrite length_app in Hic. simpl in Hic. lia. }
  pose proof (parent_lt i Hi).
  rewrite lookup_app_l in Hic by lia. rewrite lookup_app_l in Hip by lia.
  apply (Hh i c p Hi Hic Hip).
Qed.

Lemma heappop_ordered (h : list Event) (e : Event) (rest : list Event) :
  heap_ordered h → heappop h = Some (e, rest) → heap_ordered rest.
Proof.
  intros Hh. unfold heappop.
  destruct (last h) as [lastelt|] eqn:L; [|discriminate].
  apply last_Some in L as [front ->]. rewrite removelast_last.
  destruct front as [|returnitem front].
  - intros [= <- <-]. intros i c p _ Hc. discriminate.
  - intros [= <- <-]. apply _siftup_root_ordered.
    intros i c p Hi Hne Hne' Hic Hip.
    destruct i as [|i]; [lia|]. simpl in Hic.
    destruct ((S i - 1) / 2)%nat as [|j] eqn:J; [lia|]. simpl in Hip.
    apply (Hh (S i) c p Hi).
    + simpl. apply lookup_app_l_Some. exact Hic.
    + rewrite J. simpl. apply lookup_app_l_Some. exact Hip.
Qed.

(** In a heap the root is an earliest event. *)
Lemma heap_root_minimal (h : list Event) (r : Event) :
  heap_ordered h → h !! 0%nat = Some r → ∀ x, x ∈ h → time r <= time x.
Proof.
  intros Hh Hr x Hx. apply list_elem_of_lookup in Hx as [i Hi].
  revert x Hi. induction i as [i IH] using lt_wf_ind. intros x Hi.
  destruct (decide (i = 0%nat)) as [->|Hne].
  - rewrite Hr in Hi. injection Hi as <-. apply Qle_refl.
  - assert (1 ≤ i)%nat as H1 by lia. pose proof (parent_lt i H1) as Hlt.
    apply lookup_lt_Some in Hi as Hlen.
    destruct (lookup_lt_is_Some_2 h ((i - 1) / 2)%nat ltac:(lia)) as [p Hp].
    eapply Qle_trans; [apply (IH _ Hlt p Hp)|].
    apply (Hh i x p H1 Hi Hp).
Qed.

Lemma heappop_minimal (h : list Event) (e : Event) (rest : list Event) :
  heap_ordered h → heappop h = Some (e, rest) →
  ∀ x, x ∈ h → time e <= time x.
Proof.
  intros Hh Hpop. apply heap_root_minimal; [exact Hh|].
  eapply heappop_root. exact Hpop.
Qed.

End HeapqOrder.
(** ** The handlers: what they schedule and what they leave alone *)

Arguments Heapq.heappush : simpl never.
Arguments Heapq.heappop : simpl never.

(** Reduces the field reads and writes of the two records. *)
Ltac fields :=
  cbn beta iota zeta delta
    [mbind result_bind fst snd
     tshd_entity_id config state hopper_level total_dredged cycle_count
     event_log state_history current_segment_index
     set_state set_hopper_level set_total_dredged set_cycle_count log_append
     history_append set_current_segment_index
     clock event_queue entities statistics running segment_manager objects
     rng_draws stdout
     set_clock set_event_queue set_entities set_statistics set_running
     set_segment_manager set_objects set_rng_draws print schedule_event
     total_dredging_time total_moving_time total_dumping_time dredging_cycles
     events_processed add_dredging_time add_moving_time add_dumping_time
     incr_dredging_cycles incr_events_processed
     time event_type entity_id data].

Ltac fields_in H :=
  cbn beta iota zeta delta
    [mbind result_bind fst snd
     tshd_entity_id config state hopper_level total_dredged cycle_count
     event_log state_history current_segment_index
     set_state set_hopper_level set_total_dredged set_cycle_count log_append
     history_append set_current_segment_index
     clock event_queue entities statistics running segment_manager objects
     rng_draws stdout
     set_clock set_event_queue set_entities set_statistics set_running
     set_segment_manager set_objects set_rng_draws print schedule_event
     total_dredging_time total_moving_time total_dumping_time dredging_cycles
     events_processed add_dredging_time add_moving_time add_dumping_time
     incr_dredging_cycles incr_events_processed
     time event_type entity_id data] in H.

(** The test on which a computation is waiting. *)
Ltac stuck_on t :=
  lazymatch t with
  | mbind _ ?x => stuck_on x
  | match ?x with _ => _ end => stuck_on x
  | _ => t
  end.

(** Splits a computation that returned normally along the tests it made. *)
Ltac split_ok H :=
  repeat (fields_in H;
          lazymatch type of H with
          | Ok _ = Ok _ => fail
          | ?l = Ok _ =>
              let x := stuck_on l in
              let E := fresh "E" in destruct x eqn:E; try discriminate H
          end).

Ltac unfold_handlers H :=
  unfold TSHD_handle_event, _start_dredging, _complete_dredging,
    _start_move_to_da, _complete_move_to_da, _start_dumping,
    _complete_dumping, _start_move_back, _complete_move_back,
    np_random_normal, pydiv, as_number in H.

Section HandlerFacts.
Variable normal : Q → Q → nat → Q.

Lemma handler_frame (self : TSHD) (event : Event) (sim : Simulation)
    (self' : TSHD) (sim' : Simulation) :
  TSHD_handle_event normal self event sim = Ok (self', sim') →
  clock sim' = clock sim ∧ entities sim' = entities sim ∧
  objects sim' = objects sim ∧ running sim' = running sim ∧
  stdout sim' = stdout sim ∧
  events_processed (statistics sim') = events_processed (statistics sim) ∧
  tshd_entity_id self' = tshd_entity_id self ∧ config self' = config self ∧
  (segment_manager sim = None → segment_manager sim' = None).
Proof.
  intros H. unfold_handlers H.
  destruct (event_type event); split_ok H;
    injection H as <- <-; fields; repeat split; try reflexivity;
    congruence.
Qed.

Lemma handler_follow_ups (self : TSHD) (event : Event) (sim : Simulation)
    (self' : TSHD) (sim' : Simulation) :
  TSHD_handle_event normal self event sim = Ok (self', sim') →
  ∃ l, event_queue sim' = schedule_all l (event_queue sim) ∧
       follow_ups (clock sim) (tshd_entity_id self)
         (bool_decide (is_Some (segment_manager sim))) (event_type event) l.
Proof.
  intros H. unfold_handlers H.
  destruct (event_type event); split_ok H;
    injection H as <- <-; fields;
    lazymatch goal with
    | |- ∃ l, Heapq.heappush (Heapq.heappush _ ?m) ?c = _ ∧ _ => exists [m; c]
    | |- ∃ l, Heapq.heappush _ ?c = _ ∧ _ => exists [c]
    | |- ∃ l, _ => exists []
    end;
    (split; [reflexivity|]);
    econstructor; fields; try reflexivity;
    try (apply Qplus_le_r; apply pymax_floor).
Qed.

End HandlerFacts.
(** ** The loop of [run], one round at a time *)

Section LoopFacts.
Variable normal : Q → Q → nat → Q.

Lemma schedule_all_Permutation (l q : list Event) : schedule_all l q ≡ₚ l ++ q.
Proof.
  revert q. induction l as [|e l IH]; intros q; simpl; [reflexivity|].
  unfold schedule_all in *. simpl. rewrite IH.
  rewrite heappush_Permutation. symmetry. apply Permutation_middle.
Qed.

Lemma schedule_all_ordered (l q : list Event) :
  heap_ordered q → heap_ordered (schedule_all l q).
Proof.
  revert q. induction l as [|e l IH]; intros q H; [exact H|].
  apply IH. apply heappush_ordered. exact H.
Qed.

(** The round pops the root of the heap, then either puts it back and
    stops at the horizon, or processes it. *)
Lemma run_body_pop (end_time : option Q) (s : Simulation) :
  event_queue s ≠ [] →
  ∃ e rest, Heapq.heappop (event_queue s) = Some (e, rest) ∧
    run_body normal end_time s =
      if horizon_exceeded end_time e
      then Break (set_clock (default 0 end_time)
                    (schedule_event e (set_event_queue rest s)))
      else process_event normal e (set_event_queue rest s).
Proof.
  intros Hq. destruct (heappop_nonempty _ Hq) as (e & rest & Hpop).
  exists e, rest. split; [exact Hpop|].
  unfold run_body, get_next_event. destruct (event_queue s); [congruence|].
  rewrite Hpop. destruct end_time as [t|]; simpl; [|reflexivity].
  destruct (float_truthy t && Qltb t (time e)); reflexivity.
Qed.

(** What processing an event does to the engine. *)
Lemma process_event_effect (e : Event) (s s' : Simulation) :
  process_event normal e s = Continue s' →
  clock s' = time e ∧ entities s' = entities s ∧ running s' = running s ∧
  length (objects s') = length (objects s) ∧
  events_processed (statistics s') = (events_processed (statistics s) + 1)%Z ∧
  (segment_manager s = None → segment_manager s' = None) ∧
  ((entities s !! entity_id e = None ∧ event_queue s' = event_queue s ∧
    objects s' = objects s ∧ segment_manager s' = segment_manager s ∧
    rng_draws s' = rng_draws s ∧
    stdout s' = stdout s ++ [Warning_entity_not_found (entity_id e) (event_type e)])
   ∨
   ∃ ref self self' sim' l,
     entities s !! entity_id e = Some ref ∧ objects s !! ref = Some self ∧
     TSHD_handle_event normal self e
       (set_statistics (incr_events_processed (statistics s))
          (set_clock (time e) s)) = Ok (self', sim') ∧
     s' = set_objects (<[ref := self']> (objects sim')) sim' ∧
     objects s' = <[ref := self']> (objects s) ∧
     tshd_entity_id self' = tshd_entity_id self ∧ config self' = config self ∧
     stdout s' = stdout s ∧
     event_queue s' = schedule_all l (event_queue s) ∧
     follow_ups (time e) (tshd_entity_id self)
       (bool_decide (is_Some (segment_manager s))) (event_type e) l).
Proof.
  unfold process_event. fields.
  destruct (entities s !! entity_id e) as [ref|] eqn:R.
  - unfold dispatch. fields.
    destruct (objects s !! ref) as [self|] eqn:O; [|discriminate].
    match goal with
    | |- context [TSHD_handle_event normal self e ?s1] =>
        destruct (TSHD_handle_event normal self e s1) as [[self' sim']|] eqn:H
    end; [|discriminate].
    fields. intros [= <-]. fields.
    pose proof (handler_frame normal _ _ _ _ _ H) as
      (Hc & He & Ho & Hr & Hout & Hn & Hid & Hcfg & Hm).
    pose proof (handler_follow_ups normal _ _ _ _ _ H) as (l & Hq & Hf).
    revert Hc He Ho Hr Hout Hn Hm Hq Hf. fields. intros.
    repeat split; try assumption.
    + rewrite length_insert. congruence.
    + right. exists ref, self, self', sim', l. rewrite Ho.
      repeat split; assumption.
  - intros [= <-]. fields. repeat split; try reflexivity; try assumption.
    + intros Hm. exact Hm.
    + left. repeat split; reflexivity.
Qed.

(** An invariant of the rounds is an invariant of the loop. *)
Lemma run_loop_invariant (P : Simulation → Prop) (end_time : option Q) :
  (∀ s b, P s → P (set_running b s)) →
  (∀ s s', P s → event_queue s ≠ [] →
           run_body normal end_time s = Continue s' → P s') →
  (∀ s s', P s → event_queue s ≠ [] →
           run_body normal end_time s = Break s' → P s') →
  ∀ fuel s s', P s → run_loop normal fuel end_time s = Done s' → P s'.
Proof.
  intros Hrun Hcont Hbreak fuel.
  induction fuel as [|fuel IH]; intros s s' HP; cbn [run_loop].
  - destruct (event_queue s); [|destruct (running s)];
      try discriminate; intros [= <-]; apply Hrun; exact HP.
  - destruct (event_queue s) as [|x q] eqn:Q.
    { intros [= <-]. apply Hrun. exact HP. }
    destruct (running s).
    2:{ intros [= <-]. apply Hrun. exact HP. }
    destruct (run_body normal end_time s) as [s1|s1|] eqn:B.
    + apply IH. apply (Hcont s s1 HP); [congruence | exact B].
    + intros [= <-]. apply Hrun. apply (Hbreak s s1 HP); [congruence | exact B].
    + discriminate.
Qed.

Lemma run_invariant (P : Simulation → Prop) (end_time : option Q) :
  (∀ s b, P s → P (set_running b s)) →
  (∀ s s', P s → event_queue s ≠ [] →
           run_body normal end_time s = Continue s' → P s') →
  (∀ s s', P s → event_queue s ≠ [] →
           run_body normal end_time s = Break s' → P s') →
  ∀ fuel s s', P s → run normal fuel end_time s = Done s' → P s'.
Proof.
  intros Hrun Hcont Hbreak fuel s s' HP. unfold run.
  apply (run_loop_invariant P end_time Hrun Hcont Hbreak). apply Hrun. exact HP.
Qed.

End LoopFacts.
(** ** Claims on single rounds and single handlers *)

Section RoundClaims.
Variable normal : Q → Q → nat → Q.


(** Scenario A of the specification: one vessel with hopper 5000, dredging
    2 h, transits of 5 nm at 10 kn, dumping 0.5 h and no spread completes
    one cycle in 3.5 h. *)
Example scenario_A :
  ∃ s' v, run exact_mean 20 (Some (35 # 10))
            (one_vessel "TSHD-1" TSHDConfig_default) = Done s' ∧
          objects s' !! 0%nat = Some v ∧
          cycle_count v = 1%Z ∧ total_dredged v = 5000 ∧ clock s' = 35 # 10.
Proof.
  eexists. eexists. split; [vm_compute; reflexivity|]. repeat split.
Qed.


End RoundClaims.


(** C1, at the bound 0.  The queue holds one event, due at time 1, and
    [run] is called with the bound 0: the event is later than the bound,
    yet it is consumed, the clock ends on 1 and not on 0, and
    [events_processed] counts it.  With the bound 1/2 the same event is put
    back and the clock stops on the bound. *)
Theorem run_zero_bound_is_no_bound (normal : Q → Q → nat → Q) :
  (∃ s', run normal 2 (Some 0) engine_with_lone_event = Done s' ∧
         event_queue s' = [] ∧ clock s' = 1 ∧
         events_processed (statistics s') = 1%Z) ∧
  (∃ s', run normal 2 (Some (1 # 2)) engine_with_lone_event = Done s' ∧
         event_queue s' = [lone_event] ∧ clock s' = 1 # 2 ∧
         events_processed (statistics s') = 0%Z).
Proof.
  split; eexists; (split; [vm_compute; reflexivity|]);
    repeat split; reflexivity.
Qed.

(** For every other bound the round does what C1 says: the popped event is
    the root of the heap, an earliest event; if it is later than the bound
    it is put back (the queue holds the same events) and the clock is set
    to the bound; otherwise the clock moves to the event and
    [events_processed] is incremented once. *)
Lemma run_round_at_nonzero_bound (normal : Q → Q → nat → Q) (t : Q)
    (s : Simulation) (e : Event) (rest : list Event) :
  float_truthy t = true → heap_ordered (event_queue s) →
  Heapq.heappop (event_queue s) = Some (e, rest) →
  (∀ x, x ∈ event_queue s → time e <= time x) ∧
  (t < time e →
   ∃ s', run_body normal (Some t) s = Break s' ∧ clock s' = t ∧
         event_queue s' ≡ₚ event_queue s ∧ statistics s' = statistics s ∧
         objects s' = objects s) ∧
  (time e <= t →
   ∀ s', run_body normal (Some t) s = Continue s' →
         clock s' = time e ∧
         events_processed (statistics s') = (events_processed (statistics s) + 1)%Z).
Proof.
  intros Ht Hheap Hpop.
  assert (event_queue s ≠ []) as Hq.
  { intros E. rewrite E in Hpop. discriminate. }
  destruct (run_body_pop normal (Some t) s Hq) as (e' & rest' & Hpop' & Hbody).
  rewrite Hpop in Hpop'. injection Hpop' as <- <-.
  split; [apply (heappop_minimal _ _ _ Hheap Hpop)|]. split.
  - intros Hlt. simpl in Hbody. rewrite Ht in Hbody.
    apply Qltb_lt in Hlt. rewrite Hlt in Hbody. simpl in Hbody.
    eexists. split; [exact Hbody|]. fields.
    split; [reflexivity|]. split; [|split; reflexivity].
    rewrite heappush_Permutation. symmetry. apply heappop_Permutation. exact Hpop.
  - intros Hle s' Hcont. simpl in Hbody. apply Qltb_ge in Hle.
    rewrite Hle, andb_false_r in Hbody. rewrite Hbody in Hcont.
    apply process_event_effect in Hcont as (Hc & _ & _ & _ & Hn & _).
    split; [exact Hc | exact Hn].
Qed.

(** C3, on a channel whose work is in segment 2.  The allocator gives the
    outbound leg the distance 2; the return leg sampled when dumping
    completes is recorded with the configured return distance 5. *)
Theorem return_leg_uses_configured_distance :
  ∃ s' v, run exact_mean 20 (Some 2) far_segment = Done s' ∧
          objects s' !! 0%nat = Some v ∧
          task_distances v = [("moving_to_da"%string, 2); ("moving_back"%string, 5)] ∧
          distance_back (config v) = 5.
Proof.
  eexists. eexists. split; [vm_compute; reflexivity|].
  split; [reflexivity|]. split; reflexivity.
Qed.

(** The reason, for every vessel and every draw: the DUMPING_COMPLETE event
    scheduled on arrival carries no distance, so that the handler of that
    event falls back on the configured return distance. *)
Lemma dumping_complete_carries_no_distance (normal : Q → Q → nat → Q)
    (self : TSHD) (event : Event) (sim : Simulation)
    (self' : TSHD) (sim' : Simulation) :
  _complete_move_to_da normal self event sim = Ok (self', sim') →
  ∃ m c, event_queue sim' = schedule_all [m; c] (event_queue sim) ∧
         event_type c = DUMPING_COMPLETE ∧
         dict_get (data c) "distance_to_da_nm" (VFloat (distance_back (config self')))
         = VFloat (distance_back (config self')).
Proof.
  intros H. unfold _complete_move_to_da, np_random_normal, pydiv, as_number in H.
  split_ok H. injection H as <- <-. fields.
  eexists. eexists. split; [reflexivity|]. split; reflexivity.
Qed.

(** ** C9: floors of the sampled durations *)

(** C9 as stated fails.  With a draw of 0 the dredging sample of a default
    vessel is the floor 0.1 itself, which is not strictly greater than the
    floor. *)
Lemma sample_can_equal_floor :
  ∃ self' sim' d,
    TSHD_handle_event zero_draw (TSHD_init "TSHD-1" TSHDConfig_default)
      {| time := 0; event_type := DREDGING_START; entity_id := "TSHD-1";
         data := ∅ |} (one_vessel "TSHD-1" TSHDConfig_default)
    = Ok (self', sim') ∧
    LogTask 0 "dredging" d (Some 5000) None (Some VNone) DREDGING
      ∈ event_log self' ∧
    d = 1 # 10 ∧ ¬ (1 # 10 < d).
Proof.
  eexists. eexists. eexists. split; [vm_compute; reflexivity|].
  split; [|split; [reflexivity|]].
  - apply list_elem_of_In. right. left. reflexivity.
  - intros H. vm_compute in H. discriminate.
Qed.

Section Floors.
Variable normal : Q → Q → nat → Q.

Lemma handler_floors (self : TSHD) (event : Event) (sim : Simulation)
    (self' : TSHD) (sim' : Simulation) :
  TSHD_handle_event normal self event sim = Ok (self', sim') →
  Forall entry_floor_ok (event_log self) →
  Forall entry_floor_ok (event_log self').
Proof.
  intros H Hlog. unfold_handlers H.
  destruct (event_type event); split_ok H; injection H as <- <-; fields;
    repeat (apply Forall_app; split); try exact Hlog;
    apply Forall_singleton; try exact I;
    apply pymax_floor.
Qed.

Lemma floors_ok_round (end_time : option Q) (s s' : Simulation) :
  floors_ok s → event_queue s ≠ [] →
  run_body normal end_time s = Continue s' ∨
  run_body normal end_time s = Break s' →
  floors_ok s'.
Proof.
  intros Hok Hq Hbody.
  destruct (run_body_pop normal end_time s Hq) as (e & rest & Hpop & Heq).
  rewrite Heq in Hbody. destruct (horizon_exceeded end_time e).
  - destruct Hbody as [Hbody|Hbody]; [discriminate|].
    injection Hbody as <-. exact Hok.
  - destruct Hbody as [Hbody|Hbody].
    2:{ unfold process_event in Hbody. revert Hbody. fields.
        destruct (entities s !! entity_id e); [|discriminate].
        destruct (dispatch _ _ _ _); discriminate. }
    apply process_event_effect in Hbody
      as (_ & _ & _ & _ & _ & _ & [(_ & _ & Ho & _)|Hdisp]).
    + unfold floors_ok. rewrite Ho. exact Hok.
    + destruct Hdisp as (ref & self & self' & sim' & l & _ & Hself & Hh & _ & Ho & _).
      revert Ho Hself. fields. intros Ho Hself.
      unfold floors_ok. rewrite Ho. apply Forall_insert; [exact Hok|].
      apply (handler_floors _ _ _ _ _ Hh).
      unfold floors_ok in Hok. rewrite Forall_lookup in Hok.
      apply (Hok ref self Hself).
Qed.

(** C9, amended.  Whatever the generator draws, every sampled duration a
    vessel records is one of the four phases and is at least the floor of
    its phase (0.1 for dredging, 0.01 for either transit, 0.05 for
    dumping): the property holds after every round of [run] and when [run]
    returns. *)
Theorem sampled_durations_respect_floors (end_time : option Q) (s : Simulation) :
  floors_ok s →
  (∀ s', event_queue s ≠ [] →
         run_body normal end_time s = Continue s' → floors_ok s') ∧
  (∀ fuel s', run normal fuel end_time s = Done s' → floors_ok s').
Proof.
  intros Hok. split.
  - intros s' Hq Hbody. eapply floors_ok_round; eauto.
  - intros fuel s'. apply (run_invariant normal floors_ok end_time); [| | |exact Hok].
    + intros s0 b H. exact H.
    + intros s0 s1 H Hq Hbody. eapply floors_ok_round; eauto.
    + intros s0 s1 H Hq Hbody. eapply floors_ok_round; eauto.
Qed.

End Floors.

Lemma sampled_durations_respect_floors_witness :
  floors_ok (one_vessel "TSHD-1" TSHDConfig_default) ∧
  ∀ fuel s', run zero_draw fuel (Some 1) (one_vessel "TSHD-1" TSHDConfig_default)
             = Done s' → floors_ok s'.
Proof.
  assert (floors_ok (one_vessel "TSHD-1" TSHDConfig_default)) as H.
  { apply Forall_singleton. apply Forall_nil. exact I. }
  split; [exact H|].
  apply (sampled_durations_respect_floors zero_draw (Some 1) _ H).
Defined.
(** ** C2: the clock *)

(** C2 as stated fails.  After [run(5)] the clock is 5; a later [run(3)]
    finds the queued event beyond its bound and sets the clock back to 3. *)
Lemma clock_regresses_on_earlier_bound :
  ∃ s1 s2, run exact_mean 5 (Some 5) engine_with_late_event = Done s1 ∧
           run exact_mean 5 (Some 3) s1 = Done s2 ∧
           clock s1 = 5 ∧ clock s2 = 3 ∧ clock s2 < clock s1.
Proof.
  eexists. eexists. split; [vm_compute; reflexivity|].
  split; [vm_compute; reflexivity|]. repeat split.
Qed.

Section Clock.
Variable normal : Q → Q → nat → Q.

Lemma follow_ups_times (clk : Q) (id : string) (mgr : bool) (ty : EventType)
    (l : list Event) :
  follow_ups clk id mgr ty l → Forall (λ x, clk <= time x) l.
Proof.
  assert (∀ f, 0 <= f → clk <= clk + f) as Hadd.
  { intros f Hf. rewrite <- (Qplus_0_r clk) at 1. apply Qplus_le_r. exact Hf. }
  assert (∀ f t, 0 <= f → clk + f <= t → clk <= t) as Hle.
  { intros f t Hf Ht. eapply Qle_trans; [apply (Hadd f Hf) | exact Ht]. }
  destruct 1; repeat constructor;
    try (match goal with H : time _ = clk |- _ => rewrite H; apply Qle_refl end);
    try (eapply Hle; [|eassumption]; discriminate).
Qed.

Lemma horizon_not_exceeded (end_time : option Q) (e : Event) (t : Q) :
  horizon_exceeded end_time e = false → end_time = Some t →
  float_truthy t = true → time e <= t.
Proof.
  intros H -> Ht. simpl in H. rewrite Ht in H. simpl in H.
  apply Qltb_ge. exact H.
Qed.

Lemma horizon_is_exceeded (end_time : option Q) (e : Event) :
  horizon_exceeded end_time e = true →
  ∃ t, end_time = Some t ∧ float_truthy t = true ∧ t < time e.
Proof.
  destruct end_time as [t|]; [|discriminate]. simpl.
  intros H. apply andb_true_iff in H as [Ht Hlt]. exists t.
  split; [reflexivity|]. split; [exact Ht|]. apply Qltb_lt. exact Hlt.
Qed.

Lemma engine_ok_round (end_time : option Q) (s s' : Simulation) :
  engine_ok s → bound_ok s end_time → event_queue s ≠ [] →
  run_body normal end_time s = Continue s' ∨
  run_body normal end_time s = Break s' →
  clock s <= clock s' ∧ engine_ok s' ∧ bound_ok s' end_time.
Proof.
  intros [Hheap Htimes] Hbound Hq Hbody.
  destruct (run_body_pop normal end_time s Hq) as (e & rest & Hpop & Heq).
  rewrite Heq in Hbody.
  pose proof (heappop_Permutation _ _ _ Hpop) as Hperm.
  pose proof (heappop_ordered _ _ _ Hheap Hpop) as Hrest.
  pose proof (heappop_minimal _ _ _ Hheap Hpop) as Hmin.
  assert (clock s <= time e) as Hce.
  { rewrite Forall_forall in Htimes. apply Htimes. rewrite Hperm. left. }
  assert (Forall (λ x, time e <= time x) rest) as Hrest_ge.
  { apply Forall_forall. intros x Hx. apply Hmin. rewrite Hperm. right. exact Hx. }
  destruct (horizon_exceeded end_time e) eqn:Hex.
  - destruct Hbody as [Hbody|Hbody]; [discriminate|].
    injection Hbody as <-.
    destruct (horizon_is_exceeded _ _ Hex) as (t & -> & Htruthy & Hlt).
    fields. split; [apply Hbound; exact Htruthy|].
    split; [split|].
    + fields. apply heappush_ordered. exact Hrest.
    + fields. rewrite heappush_Permutation. constructor.
      * apply Qlt_le_weak. exact Hlt.
      * eapply Forall_impl; [exact Hrest_ge|]. intros x Hx. simpl in Hx.
        apply Qlt_le_weak. eapply Qlt_le_trans; [exact Hlt | exact Hx].
    + intros _. fields. apply Qle_refl.
  - destruct Hbody as [Hbody|Hbody].
    2:{ unfold process_event in Hbody. revert Hbody. fields.
        destruct (entities s !! entity_id e); [|discriminate].
        destruct (dispatch _ _ _ _); discriminate. }
    assert (bound_ok s' end_time) as Hbound'.
    { apply process_event_effect in Hbody as (Hclock & _).
      destruct end_time as [t|]; [|exact I]. intros Ht. rewrite Hclock.
      eapply horizon_not_exceeded; eauto. }
    apply process_event_effect in Hbody
      as (Hclock & _ & _ & _ & _ & _ & [(_ & Hqueue & _)|Hdisp]).
    + revert Hqueue. fields. intros Hqueue. unfold engine_ok.
      rewrite Hclock, Hqueue.
      split; [exact Hce|]. split; [|exact Hbound'].
      split; [exact Hrest | exact Hrest_ge].
    + destruct Hdisp as (ref & self & self' & sim' & l & _ & _ & _ & _ & _ & _ & _ & _
                         & Hqueue & Hfollow).
      revert Hqueue. fields. intros Hqueue. unfold engine_ok.
      rewrite Hclock, Hqueue.
      split; [exact Hce|]. split; [|exact Hbound'].
      split.
      * apply schedule_all_ordered. exact Hrest.
      * rewrite schedule_all_Permutation. apply Forall_app. split.
        -- eapply follow_ups_times. exact Hfollow.
        -- exact Hrest_ge.
Qed.

Lemma run_clock (end_time : option Q) (fuel : nat) (s s' : Simulation) :
  engine_ok s → bound_ok s end_time →
  run normal fuel end_time s = Done s' →
  clock s <= clock s' ∧ engine_ok s'.
Proof.
  intros Hok Hbound Hrun.
  pose (P := λ x, clock s <= clock x ∧ engine_ok x ∧ bound_ok x end_time).
  assert (P s') as (Hc & Hok' & _).
  { apply (run_invariant normal P end_time) with (fuel := fuel) (s := s).
    - intros x b (H1 & H2 & H3). split; [exact H1|]. split; [exact H2|].
      destruct end_time; exact H3.
    - intros x x' (H1 & H2 & H3) Hq Hbody.
      destruct (engine_ok_round end_time x x' H2 H3 Hq (or_introl Hbody))
        as (Hc & Hok' & Hb').
      split; [eapply Qle_trans; eauto|]. split; assumption.
    - intros x x' (H1 & H2 & H3) Hq Hbody.
      destruct (engine_ok_round end_time x x' H2 H3 Hq (or_intror Hbody))
        as (Hc & Hok' & Hb').
      split; [eapply Qle_trans; eauto|]. split; assumption.
    - split; [apply Qle_refl|]. split; assumption.
    - exact Hrun. }
  split; assumption.
Qed.

Lemma schedule_event_engine_ok (s : Simulation) (event : Event) :
  engine_ok s → clock s <= time event → engine_ok (schedule_event event s).
Proof.
  intros [Hheap Htimes] Hle. split; fields.
  - apply heappush_ordered. exact Hheap.
  - rewrite heappush_Permutation. constructor; assumption.
Qed.

(** C2, amended.  On an engine whose queue is a heap with no event earlier
    than the clock (a fresh engine is one), every round of [run] called
    with a bound not earlier than the clock leaves the clock where it was
    or moves it forward, and so does every sequence of [schedule_event] and
    [run] calls in which no event is scheduled earlier than the clock and
    no non-zero bound is earlier than the clock. *)
Theorem clock_is_monotone (s : Simulation) :
  engine_ok s →
  (∀ end_time s', bound_ok s end_time → event_queue s ≠ [] →
     run_body normal end_time s = Continue s' ∨
     run_body normal end_time s = Break s' →
     clock s <= clock s' ∧ engine_ok s') ∧
  (∀ calls s', timely_calls normal s calls s' →
     clock s <= clock s' ∧ engine_ok s').
Proof.
  intros Hok. split.
  - intros end_time s' Hb Hq Hbody.
    destruct (engine_ok_round end_time s s' Hok Hb Hq Hbody) as (H1 & H2 & _).
    split; assumption.
  - intros calls s' Hcalls. induction Hcalls as
      [s | s event calls s' Hle Hcalls IH | s end_time fuel s1 calls s' Hb Hrun Hcalls IH].
    + split; [apply Qle_refl | exact Hok].
    + destruct (IH (schedule_event_engine_ok s event Hok Hle)) as [Hc Hok'].
      split; [exact Hc | exact Hok'].
    + destruct (run_clock end_time fuel s s1 Hok Hb Hrun) as [Hc1 Hok1].
      destruct (IH Hok1) as [Hc Hok'].
      split; [eapply Qle_trans; eauto | exact Hok'].
Qed.

End Clock.

Lemma fresh_engine_ok (objs : list TSHD) (draws : nat) (out : list Output) :
  engine_ok (Simulation_init objs draws out).
Proof.
  split; simpl.
  - intros i c p _ Hc. discriminate.
  - constructor.
Qed.

Lemma clock_is_monotone_witness :
  ∃ s', timely_calls exact_mean (Simulation_init [] 0 [])
          [Call_schedule_event late_event; Call_run (Some 5); Call_run (Some 7)] s' ∧
        clock (Simulation_init [] 0 []) <= clock s'.
Proof.
  eexists. split.
  - apply timely_schedule; [vm_compute; discriminate|].
    eapply (timely_run _ _ _ 5%nat).
    + intros _. vm_compute. discriminate.
    + vm_compute. reflexivity.
    + eapply (timely_run _ _ _ 5%nat).
      * intros _. vm_compute. discriminate.
      * vm_compute. reflexivity.
      * apply timely_none.
  - match goal with
    | |- _ <= clock ?x =>
        assert (timely_calls exact_mean (Simulation_init [] 0 [])
                  [Call_schedule_event late_event; Call_run (Some 5);
                   Call_run (Some 7)] x) as H
    end.
    { apply timely_schedule; [vm_compute; discriminate|].
      eapply (timely_run _ _ _ 5%nat).
      + intros _. vm_compute. discriminate.
      + vm_compute. reflexivity.
      + eapply (timely_run _ _ _ 5%nat).
        * intros _. vm_compute. discriminate.
        * vm_compute. reflexivity.
        * apply timely_none. }
    destruct (clock_is_monotone exact_mean (Simulation_init [] 0 [])
                (fresh_engine_ok [] 0 [])) as [_ Hcalls].
    destruct (Hcalls _ _ H) as [Hc _]. exact Hc.
Defined.
(** ** C10: without a segment manager the queue never runs dry *)

(** C10 as stated fails on its first part.  The handler of a marker event
    (here MOVE_TO_DA_START) schedules nothing, with no segment manager
    attached: the queue is as it was. *)
Lemma marker_handler_schedules_nothing :
  ∃ self' sim',
    TSHD_handle_event exact_mean (TSHD_init "TSHD-1" TSHDConfig_default)
      {| time := 0; event_type := MOVE_TO_DA_START; entity_id := "TSHD-1";
         data := ∅ |} (one_vessel "TSHD-1" TSHDConfig_default)
    = Ok (self', sim') ∧
    segment_manager (one_vessel "TSHD-1" TSHDConfig_default) = None ∧
    event_queue sim' = event_queue (one_vessel "TSHD-1" TSHDConfig_default).
Proof.
  eexists. eexists. split; [vm_compute; reflexivity|]. split; reflexivity.
Qed.

Section KeepsGoing.
Variable normal : Q → Q → nat → Q.

Lemma follow_ups_productive (clk : Q) (id : string) (ty : EventType)
    (l : list Event) :
  follow_ups clk id false ty l → is_marker ty = false →
  ∃ c, c ∈ l ∧ is_marker (event_type c) = false ∧ entity_id c = id.
Proof.
  destruct 1; intros Hm; try discriminate;
    match goal with
    | Hty : event_type ?c = _, Hid : entity_id ?c = id |- _ =>
        exists c; split; [set_solver|];
        split; [rewrite Hty; reflexivity | exact Hid]
    end.
Qed.

Lemma follow_ups_marker (clk : Q) (id : string) (mgr : bool) (ty : EventType)
    (l : list Event) :
  follow_ups clk id mgr ty l → is_marker ty = true → l = [].
Proof. destruct 1; intros Hm; try discriminate; reflexivity. Qed.

(** What the handlers schedule when no segment manager is attached:
    nothing for a marker, and otherwise at least one event of the same
    vessel that is not a marker. *)
Lemma handler_keeps_going (self : TSHD) (event : Event) (sim : Simulation)
    (self' : TSHD) (sim' : Simulation) :
  segment_manager sim = None →
  TSHD_handle_event normal self event sim = Ok (self', sim') →
  ∃ l, event_queue sim' = schedule_all l (event_queue sim) ∧
       if is_marker (event_type event) then l = []
       else ∃ c, c ∈ l ∧ is_marker (event_type c) = false ∧
                 entity_id c = tshd_entity_id self.
Proof.
  intros Hm H. destruct (handler_follow_ups normal _ _ _ _ _ H) as (l & Hq & Hf).
  rewrite Hm in Hf. exists l. split; [exact Hq|].
  destruct (is_marker (event_type event)) eqn:M.
  - eapply follow_ups_marker; eauto.
  - eapply follow_ups_productive; eauto.
Qed.

Lemma registry_ok_insert (s s' : Simulation) (ref : nat) (self self' : TSHD) :
  registry_ok s → entities s' = entities s →
  objects s !! ref = Some self →
  objects s' = <[ref := self']> (objects s) →
  tshd_entity_id self' = tshd_entity_id self →
  registry_ok s'.
Proof.
  intros Hreg He Hself Ho Hid id r Hr. rewrite He in Hr.
  destruct (Hreg id r Hr) as (v & Hv & Hvid). rewrite Ho.
  destruct (decide (r = ref)) as [->|Hne].
  - exists self'. split.
    + apply list_lookup_insert_eq. eapply lookup_lt_Some. exact Hv.
    + rewrite Hid. congruence.
  - exists v. split; [|exact Hvid].
    rewrite list_lookup_insert_ne by congruence. exact Hv.
Qed.

Lemma registry_ok_round (end_time : option Q) (s s' : Simulation) :
  registry_ok s → event_queue s ≠ [] →
  run_body normal end_time s = Continue s' ∨
  run_body normal end_time s = Break s' →
  registry_ok s'.
Proof.
  intros Hreg Hq Hbody.
  destruct (run_body_pop normal end_time s Hq) as (e & rest & Hpop & Heq).
  rewrite Heq in Hbody. destruct (horizon_exceeded end_time e).
  - destruct Hbody as [Hbody|Hbody]; [discriminate|].
    injection Hbody as <-. exact Hreg.
  - destruct Hbody as [Hbody|Hbody].
    2:{ unfold process_event in Hbody. revert Hbody. fields.
        destruct (entities s !! entity_id e); [|discriminate].
        destruct (dispatch _ _ _ _); discriminate. }
    apply process_event_effect in Hbody
      as (_ & He & _ & _ & _ & _ & [(_ & _ & Ho & _)|Hdisp]).
    + intros id r Hr. rewrite He in Hr. rewrite Ho. apply (Hreg id r Hr).
    + destruct Hdisp as (ref & self & self' & sim' & l & _ & Hself & _ & _ & Ho
                         & Hid & _).
      eapply registry_ok_insert; eauto.
Qed.

Lemma keeps_going_round (end_time : option Q) (s s' : Simulation) :
  keeps_going s → event_queue s ≠ [] →
  run_body normal end_time s = Continue s' ∨
  run_body normal end_time s = Break s' →
  keeps_going s'.
Proof.
  intros (Hm & Hreg & w & Hw & Hwm & Hwreg) Hq Hbody.
  pose proof (registry_ok_round end_time s s' Hreg Hq Hbody) as Hreg'.
  destruct (run_body_pop normal end_time s Hq) as (e & rest & Hpop & Heq).
  rewrite Heq in Hbody.
  pose proof (heappop_Permutation _ _ _ Hpop) as Hperm.
  rewrite Hperm in Hw.
  destruct (horizon_exceeded end_time e).
  - destruct Hbody as [Hbody|Hbody]; [discriminate|].
    injection Hbody as <-. split; [exact Hm|]. split; [exact Hreg'|].
    exists w. fields. rewrite heappush_Permutation.
    split; [exact Hw|]. split; assumption.
  - destruct Hbody as [Hbody|Hbody].
    2:{ unfold process_event in Hbody. revert Hbody. fields.
        destruct (entities s !! entity_id e); [|discriminate].
        destruct (dispatch _ _ _ _); discriminate. }
    apply process_event_effect in Hbody
      as (_ & He & _ & _ & _ & Hm' & [(Hnone & Hqueue & _)|Hdisp]).
    + revert Hnone Hqueue Hm'. fields. intros Hnone Hqueue Hm'.
      split; [apply Hm'; exact Hm|]. split; [exact Hreg'|].
      exists w. rewrite Hqueue, He. fields.
      apply elem_of_cons in Hw as [->|Hw].
      * rewrite Hnone in Hwreg. destruct Hwreg as [? ?]. discriminate.
      * split; [exact Hw|]. split; assumption.
    + destruct Hdisp as (ref & self & self' & sim' & l & Href & Hself & _ & _ & _
                         & _ & _ & _ & Hqueue & Hfollow).
      revert Href Hself Hqueue Hfollow Hm'. fields.
      intros Href Hself Hqueue Hfollow Hm'.
      split; [apply Hm'; exact Hm|]. split; [exact Hreg'|].
      rewrite Hqueue, He. fields.
      apply elem_of_cons in Hw as [->|Hw].
      * rewrite Hm in Hfollow.
        destruct (follow_ups_productive _ _ _ _ Hfollow Hwm) as (c & Hc & Hcm & Hcid).
        exists c. rewrite schedule_all_Permutation.
        split; [apply elem_of_app; left; exact Hc|]. split; [exact Hcm|].
        destruct (Hreg _ _ Href) as (v & Hv & Hvid).
        rewrite Hself in Hv. injection Hv as <-.
        rewrite Hcid, Hvid. exact Hwreg.
      * exists w. rewrite schedule_all_Permutation.
        split; [apply elem_of_app; right; exact Hw|]. split; assumption.
Qed.

Lemma keeps_going_nonempty (s : Simulation) : keeps_going s → event_queue s ≠ [].
Proof.
  intros (_ & _ & w & Hw & _) E. rewrite E in Hw. inversion Hw.
Qed.

Lemma run_loop_never_done (fuel : nat) (s s' : Simulation) :
  keeps_going s → running s = true → run_loop normal fuel None s ≠ Done s'.
Proof.
  revert s. induction fuel as [|fuel IH]; intros s Hk Hrun; cbn [run_loop];
    pose proof (keeps_going_nonempty s Hk) as Hq;
    destruct (event_queue s) as [|x q] eqn:Q; try congruence;
    rewrite Hrun; [discriminate|].
  destruct (run_body normal None s) as [s1|s1|] eqn:B; [| |discriminate].
  - apply IH.
    + apply (keeps_going_round None s s1 Hk); [congruence | left; exact B].
    + destruct (run_body_pop normal None s ltac:(congruence))
        as (e & rest & _ & Heq).
      rewrite Heq in B. simpl in B.
      apply process_event_effect in B as (_ & _ & Hr & _). rewrite Hr. exact Hrun.
  - destruct (run_body_pop normal None s ltac:(congruence))
      as (e & rest & _ & Heq).
    rewrite Heq in B. simpl in B.
    unfold process_event in B. revert B. fields.
    destruct (entities s !! entity_id e); [|discriminate].
    destruct (dispatch _ _ _ _); discriminate.
Qed.

(** After [start_work] of a registered vessel on an engine without segment
    manager the queue holds a DREDGING_START of that vessel. *)
Lemma start_work_keeps_going (v : TSHD) (s : Simulation) :
  segment_manager s = None → registry_ok s →
  is_Some (entities s !! tshd_entity_id v) →
  keeps_going (start_work v s).
Proof.
  intros Hm Hreg Hv. split; [exact Hm|]. split; [exact Hreg|].
  eexists. unfold start_work. fields. rewrite heappush_Permutation.
  split; [left|]. split; [reflexivity | exact Hv].
Qed.

(** C10, amended.  With no segment manager attached, the handler of a
    marker event schedules nothing and the handler of any other event
    schedules at least one event of the same vessel that is not a marker.
    Hence, once the queue holds such an event of a registered vessel (as
    it does after [start_work]), it is non-empty at every round of the
    loop, and [run] called without bound never returns. *)
Theorem unbounded_run_never_returns (s : Simulation) :
  keeps_going s →
  (∀ self event sim self' sim',
     segment_manager sim = None →
     TSHD_handle_event normal self event sim = Ok (self', sim') →
     ∃ l, event_queue sim' = schedule_all l (event_queue sim) ∧
          if is_marker (event_type event) then l = []
          else ∃ c, c ∈ l ∧ is_marker (event_type c) = false ∧
                    entity_id c = tshd_entity_id self) ∧
  event_queue s ≠ [] ∧
  (∀ s', run_body normal None s = Continue s' →
         keeps_going s' ∧ event_queue s' ≠ []) ∧
  (∀ fuel s', run normal fuel None s ≠ Done s').
Proof.
  intros Hk. split; [apply handler_keeps_going|].
  split; [apply keeps_going_nonempty; exact Hk|]. split.
  - intros s' Hbody.
    assert (keeps_going s') as Hk'.
    { apply (keeps_going_round None s s' Hk);
        [apply keeps_going_nonempty; exact Hk | left; exact Hbody]. }
    split; [exact Hk' | apply keeps_going_nonempty; exact Hk'].
  - intros fuel s'. apply run_loop_never_done; [|reflexivity].
    destruct Hk as (Hm & Hreg & Hw). split; [exact Hm|]. split; [exact Hreg|].
    exact Hw.
Qed.

End KeepsGoing.

Lemma one_vessel_registry_ok (id : string) (cfg : TSHDConfig) :
  registry_ok (one_vessel id cfg).
Proof.
  intros i r Hr. unfold one_vessel, start_work in Hr. revert Hr. fields.
  simpl. intros Hr. apply lookup_insert_Some in Hr as [[<- <-]|[_ Hr]].
  - eexists. split; reflexivity.
  - rewrite lookup_empty in Hr. discriminate.
Qed.

Lemma one_vessel_keeps_going (id : string) (cfg : TSHDConfig) :
  keeps_going (one_vessel id cfg).
Proof.
  apply (start_work_keeps_going (TSHD_init id cfg)).
  - reflexivity.
  - apply one_vessel_registry_ok.
  - simpl. rewrite lookup_insert_eq. eexists. reflexivity.
Qed.

Lemma unbounded_run_never_returns_witness :
  keeps_going (one_vessel "TSHD-1" TSHDConfig_default) ∧
  ∀ fuel s', run exact_mean fuel None (one_vessel "TSHD-1" TSHDConfig_default)
             ≠ Done s'.
Proof.
  split; [apply one_vessel_keeps_going|].
  apply (unbounded_run_never_returns exact_mean _
           (one_vessel_keeps_going "TSHD-1" TSHDConfig_default)).
Defined.
(** ** C5: dredged volumes *)

Lemma Qsum_app (l l' : list Q) : Qsum (l ++ l') == Qsum l + Qsum l'.
Proof.
  induction l as [|x l IH]; simpl.
  - rewrite Qplus_0_l. reflexivity.
  - rewrite IH. apply Qplus_assoc.
Qed.

Lemma Qsum_Permutation (l l' : list Q) : l ≡ₚ l' → Qsum l == Qsum l'.
Proof.
  induction 1 as [|x l l' _ IH|x y l|l l' l'' _ IH1 _ IH2]; simpl.
  - reflexivity.
  - rewrite IH. reflexivity.
  - ring.
  - rewrite IH1. exact IH2.
Qed.

Lemma Qsum_zero (l : list Q) : Forall (λ x, x = 0) l → Qsum l == 0.
Proof.
  induction 1 as [|x l -> _ IH]; simpl; [reflexivity|].
  rewrite IH. reflexivity.
Qed.

Lemma Qsum_nonneg (l : list Q) : Forall (λ x, 0 <= x) l → 0 <= Qsum l.
Proof.
  induction 1 as [|x l Hx _ IH]; simpl; [apply Qle_refl|].
  replace 0 with (0 + 0) by reflexivity. apply Qplus_le_compat; assumption.
Qed.

Lemma pysum_Qsum (l : list Q) : pysum l == Qsum l.
Proof.
  unfold pysum. assert (∀ a, fold_left Qplus l a == a + Qsum l) as H.
  { induction l as [|x l IH]; intros a; simpl.
    - rewrite Qplus_0_r. reflexivity.
    - rewrite IH. symmetry. apply Qplus_assoc. }
  rewrite H. apply Qplus_0_l.
Qed.

Lemma dredging_data_volume (a c d : Value) (b : Q) :
  (<["actual_dredging_time" := a]>
     (<["allocated_volume_m3" := VFloat b]>
        (<["distance_to_da_nm" := c]> (<["segment_index" := d]> ∅))) : gmap string Value)
    !! "allocated_volume_m3" = Some (VFloat b).
Proof. rewrite lookup_insert_ne by done. apply lookup_insert_eq. Qed.

Section Accounting.
Variable normal : Q → Q → nat → Q.

Lemma Qle_plus_nonneg (a x : Q) : 0 <= x → a <= a + x.
Proof.
  intros H. rewrite <- (Qplus_0_r a) at 1. apply Qplus_le_r. exact H.
Qed.

(** What a handler does to the volumes: it loads what the handled event
    carries, and it logs what the events it schedules will load. *)
Lemma handler_accounting (self : TSHD) (event : Event) (sim : Simulation)
    (self' : TSHD) (sim' : Simulation) :
  TSHD_handle_event normal self event sim = Ok (self', sim') →
  carries_volume event → 0 <= hopper_capacity (config self) →
  ∃ l, event_queue sim' = schedule_all l (event_queue sim) ∧
       Forall (λ c, entity_id c = tshd_entity_id self ∧ carries_volume c) l ∧
       total_dredged self' == total_dredged self + dc_volume event ∧
       total_dredged self <= total_dredged self' ∧
       Qsum (logged_volumes self') ==
         Qsum (logged_volumes self) + Qsum (map dc_volume l).
Proof.
  intros H Hcarry Hcap. unfold_handlers H. unfold carries_volume in Hcarry.
  unfold dc_volume at 1.
  destruct (event_type event) eqn:Ty; split_ok H; injection H as <- <-; fields;
    lazymatch goal with
    | |- ∃ l, Heapq.heappush (Heapq.heappush _ ?m) ?c = _ ∧ _ => exists [m; c]
    | |- ∃ l, Heapq.heappush _ ?c = _ ∧ _ => exists [c]
    | |- ∃ l, _ => exists []
    end;
    (split; [reflexivity|]);
    (split; [repeat constructor; intros [=]|]);
    unfold logged_volumes; fields; rewrite ?omap_app;
    cbn [omap list_omap String.eqb Ascii.eqb Bool.eqb app map dc_volume event_type Qsum foldr].
  all: try (eexists; split; [apply dredging_data_volume|];
            first [exact Hcap | apply Qlt_le_weak, Qle_bool_false; assumption]).
  all: rewrite ?app_nil_r, ?Qsum_app; unfold event_volume; fields;
    rewrite ?dredging_data_volume; cbn [Qsum foldr].
  all: try (split; [ring|]; split; [apply Qle_refl | ring]).
  destruct (Hcarry eq_refl) as (x & Hx & Hx0).
  match goal with
  | E : to_float (dict_get (data event) _ _) = Ok ?a |- _ =>
      unfold dict_get in E; rewrite Hx in E; simpl in E; injection E as <-
  end.
  rewrite Hx. split; [reflexivity|].
  split; [apply Qle_plus_nonneg; exact Hx0 | ring].
Qed.

Lemma volume_in_progress_Permutation (registry : gmap string nat) (ref : nat)
    (q q' : list Event) :
  q ≡ₚ q' →
  Qsum (map (in_progress registry ref) q) == Qsum (map (in_progress registry ref) q').
Proof. intros H. apply Qsum_Permutation. rewrite H. reflexivity. Qed.

Lemma in_progress_owner (registry : gmap string nat) (ref : nat) (c : Event) :
  registry !! entity_id c = Some ref → in_progress registry ref c = dc_volume c.
Proof.
  intros H. unfold in_progress. rewrite H. rewrite decide_True by reflexivity.
  reflexivity.
Qed.

Lemma in_progress_other (registry : gmap string nat) (ref ref' : nat) (c : Event) :
  registry !! entity_id c = Some ref → ref ≠ ref' →
  in_progress registry ref' c = 0.
Proof.
  intros H Hne. unfold in_progress. rewrite H. rewrite decide_False by exact Hne.
  reflexivity.
Qed.

Lemma in_progress_unknown (registry : gmap string nat) (ref : nat) (c : Event) :
  registry !! entity_id c = None → in_progress registry ref c = 0.
Proof. intros H. unfold in_progress. rewrite H. reflexivity. Qed.

Lemma dc_volume_nonneg (c : Event) : carries_volume c → 0 <= dc_volume c.
Proof.
  intros H. unfold dc_volume, event_volume.
  destruct (event_type c) eqn:Ty; try apply Qle_refl.
  destruct (H Ty) as (x & -> & Hx). exact Hx.
Qed.

Lemma in_progress_nonneg (registry : gmap string nat) (ref : nat) (c : Event) :
  carries_volume c → 0 <= in_progress registry ref c.
Proof.
  intros H. unfold in_progress. destruct (registry !! entity_id c); [|apply Qle_refl].
  destruct (decide _); [apply dc_volume_nonneg; exact H | apply Qle_refl].
Qed.

Lemma accounting_round (end_time : option Q) (s s' : Simulation) :
  accounting_ok s → event_queue s ≠ [] →
  run_body normal end_time s = Continue s' ∨
  run_body normal end_time s = Break s' →
  accounting_ok s' ∧
  ∀ ref v v', objects s !! ref = Some v → objects s' !! ref = Some v' →
              total_dredged v <= total_dredged v'.
Proof.
  intros (Hreg & Hcarry & Hacc) Hq Hbody.
  pose proof (registry_ok_round normal end_time s s' Hreg Hq Hbody) as Hreg'.
  destruct (run_body_pop normal end_time s Hq) as (e & rest & Hpop & Heq).
  rewrite Heq in Hbody.
  pose proof (heappop_Permutation _ _ _ Hpop) as Hperm.
  assert (carries_volume e ∧ Forall carries_volume rest) as [Hce Hcrest].
  { rewrite Hperm in Hcarry. apply Forall_cons in Hcarry. exact Hcarry. }
  assert (∀ ref, volume_in_progress s ref ==
                 in_progress (entities s) ref e +
                 Qsum (map (in_progress (entities s) ref) rest)) as Hsplit.
  { intros ref. unfold volume_in_progress.
    rewrite (volume_in_progress_Permutation _ _ _ _ Hperm). reflexivity. }
  destruct (horizon_exceeded end_time e).
  - destruct Hbody as [Hbody|Hbody]; [discriminate|].
    injection Hbody as <-. split.
    + split; [exact Hreg'|]. split.
      * fields. rewrite heappush_Permutation, <- Hperm. exact Hcarry.
      * intros ref v Hv. revert Hv. fields. intros Hv.
        destruct (Hacc ref v Hv) as [Hcap Hsum]. split; [exact Hcap|].
        rewrite Hsum. unfold volume_in_progress. fields.
        rewrite (volume_in_progress_Permutation _ _ _ _
                   (heappush_Permutation rest e)).
        rewrite (volume_in_progress_Permutation _ _ _ _ Hperm). reflexivity.
    + fields. intros ref v v' Hv Hv'. rewrite Hv in Hv'. injection Hv' as <-.
      apply Qle_refl.
  - destruct Hbody as [Hbody|Hbody].
    2:{ unfold process_event in Hbody. revert Hbody. fields.
        destruct (entities s !! entity_id e); [|discriminate].
        destruct (dispatch _ _ _ _); discriminate. }
    apply process_event_effect in Hbody
      as (_ & He & _ & _ & _ & _ & [(Hnone & Hqueue & Ho & _)|Hdisp]).
    + revert Hnone Hqueue Ho He. fields. intros Hnone Hqueue Ho He. split.
      * split; [exact Hreg'|]. split; [rewrite Hqueue; exact Hcrest|].
        intros ref v Hv. rewrite Ho in Hv.
        destruct (Hacc ref v Hv) as [Hcap Hsum]. split; [exact Hcap|].
        rewrite Hsum, Hsplit. unfold volume_in_progress. rewrite He, Hqueue.
        rewrite (in_progress_unknown _ _ _ Hnone). ring.
      * intros ref v v' Hv Hv'. rewrite Ho, Hv in Hv'. injection Hv' as <-.
        apply Qle_refl.
    + destruct Hdisp as (ref0 & self & self' & sim' & l0 & Href & Hself & Hh & Hs'
                         & Ho & _).
      revert Href Hself Ho He Hh. fields. intros Href Hself Ho He Hh.
      destruct (Hacc ref0 self Hself) as [Hcap Hsum].
      destruct (handler_accounting _ _ _ _ _ Hh Hce Hcap)
        as (l & Hql & Hl & Htot & Hmono & Hlog).
      revert Hql. fields. intros Hql.
      assert (event_queue s' = schedule_all l rest) as Hqs.
      { rewrite Hs'. fields. exact Hql. }
      assert (entities s !! tshd_entity_id self = Some ref0) as Hown.
      { destruct (Hreg _ _ Href) as (v & Hv & Hvid).
        rewrite Hself in Hv. injection Hv as <-. rewrite Hvid. exact Href. }
      assert (∀ ref, volume_in_progress s' ref ==
                     Qsum (map (in_progress (entities s) ref) l) +
                     Qsum (map (in_progress (entities s) ref) rest)) as Hsplit'.
      { intros ref. unfold volume_in_progress. rewrite He, Hqs.
        rewrite (volume_in_progress_Permutation _ _ _ _
                   (schedule_all_Permutation l rest)).
        rewrite map_app. apply Qsum_app. }
      split.
      * split; [exact Hreg'|]. split.
        -- rewrite Hqs, schedule_all_Permutation. apply Forall_app. split.
           ++ eapply Forall_impl; [exact Hl|]. intros c [_ Hc]. exact Hc.
           ++ exact Hcrest.
        -- intros ref v' Hv'. rewrite Ho in Hv'.
           destruct (decide (ref = ref0)) as [->|Hne].
           ++ rewrite list_lookup_insert_eq in Hv'
                by (eapply lookup_lt_Some; exact Hself).
              injection Hv' as <-.
              destruct (handler_frame normal _ _ _ _ _ Hh)
                as (_ & _ & _ & _ & _ & _ & _ & Hcfg & _).
              split; [rewrite Hcfg; exact Hcap|].
              rewrite Hsplit', Hlog, Hsum, Hsplit, Htot.
              rewrite (in_progress_owner _ _ _ Href).
              assert (map (in_progress (entities s) ref0) l = map dc_volume l) as ->.
              { apply map_ext_Forall. eapply Forall_impl; [exact Hl|].
                intros c [Hc _]. apply in_progress_owner. rewrite Hc. exact Hown. }
              ring.
           ++ rewrite list_lookup_insert_ne in Hv' by congruence.
              destruct (Hacc ref v' Hv') as [Hcap' Hsum']. split; [exact Hcap'|].
              rewrite Hsplit', Hsum', Hsplit.
              rewrite (in_progress_other _ _ _ _ Href) by congruence.
              assert (Qsum (map (in_progress (entities s) ref) l) == 0) as ->.
              { apply Qsum_zero. apply Forall_map.
                eapply Forall_impl; [exact Hl|].
                intros c [Hc _]. simpl.
                apply (in_progress_other _ ref0); [|congruence].
                rewrite Hc. exact Hown. }
              ring.
      * intros ref v v' Hv Hv'. rewrite Ho in Hv'.
        destruct (decide (ref = ref0)) as [->|Hne].
        -- rewrite list_lookup_insert_eq in Hv'
             by (eapply lookup_lt_Some; exact Hself).
           injection Hv' as <-. rewrite Hself in Hv. injection Hv as <-.
           exact Hmono.
        -- rewrite list_lookup_insert_ne in Hv' by congruence.
           rewrite Hv in Hv'. injection Hv' as <-. apply Qle_refl.
Qed.

End Accounting.

(** C5 as stated fails.  One hour into the first dredging phase of a
    default vessel (the phase lasts two hours) the log already records the
    5000 m3 of the phase, while [total_dredged] is still 0. *)
Lemma total_dredged_lags_behind_log :
  ∃ s' v, run exact_mean 5 (Some 1) (one_vessel "TSHD-1" TSHDConfig_default)
          = Done s' ∧
          objects s' !! 0%nat = Some v ∧
          total_dredged v = 0 ∧ pysum (logged_volumes v) = 5000 ∧
          ¬ total_dredged v == pysum (logged_volumes v).
Proof.
  eexists. eexists. split; [vm_compute; reflexivity|].
  split; [reflexivity|]. split; [reflexivity|]. split; [reflexivity|].
  intros H. vm_compute in H. discriminate.
Qed.

Section AccountingClaim.
Variable normal : Q → Q → nat → Q.

Lemma accounting_ok_running (s : Simulation) (b : bool) :
  accounting_ok s → accounting_ok (set_running b s).
Proof. intros H. exact H. Qed.

Lemma volume_in_progress_nonneg (s : Simulation) (ref : nat) :
  Forall carries_volume (event_queue s) → 0 <= volume_in_progress s ref.
Proof.
  intros H. apply Qsum_nonneg. apply Forall_map.
  eapply Forall_impl; [exact H|]. intros c Hc. apply in_progress_nonneg. exact Hc.
Qed.

Lemma volume_in_progress_idle (s : Simulation) (ref : nat) :
  Forall (λ e, event_type e ≠ DREDGING_COMPLETE) (event_queue s) →
  volume_in_progress s ref == 0.
Proof.
  intros H. apply Qsum_zero. apply Forall_map.
  eapply Forall_impl; [exact H|]. intros c Hc. simpl.
  unfold in_progress, dc_volume.
  destruct (entities s !! entity_id c); [|reflexivity].
  destruct (decide _); [|reflexivity].
  destruct (event_type c) eqn:Ty; try reflexivity. congruence.
Qed.

Lemma run_accounting (end_time : option Q) (fuel : nat) (s s' : Simulation) :
  accounting_ok s → run normal fuel end_time s = Done s' →
  accounting_ok s' ∧
  ∀ ref v v', objects s !! ref = Some v → objects s' !! ref = Some v' →
              total_dredged v <= total_dredged v'.
Proof.
  intros Hok Hrun.
  pose (P := λ x : Simulation,
          accounting_ok x ∧ length (objects x) = length (objects s) ∧
          ∀ ref v v', objects s !! ref = Some v → objects x !! ref = Some v' →
                      total_dredged v <= total_dredged v').
  assert (P s') as (H1 & _ & H3); [|split; assumption].
  assert (∀ x x', P x → event_queue x ≠ [] →
            run_body normal end_time x = Continue x' ∨
            run_body normal end_time x = Break x' → P x') as Hstep.
  { intros x x' (Hx & Hlen & Hmono) Hq Hbody.
    destruct (accounting_round normal end_time x x' Hx Hq Hbody) as [Hx' Hm].
    assert (length (objects x') = length (objects x)) as Hlen'.
    { destruct (run_body_pop normal end_time x Hq) as (e & rest & _ & Heq).
      rewrite Heq in Hbody. destruct (horizon_exceeded end_time e).
      - destruct Hbody as [Hbody|Hbody]; [discriminate|].
        injection Hbody as <-. reflexivity.
      - destruct Hbody as [Hbody|Hbody].
        + apply process_event_effect in Hbody as (_ & _ & _ & Hl & _). exact Hl.
        + unfold process_event in Hbody. revert Hbody. fields.
          destruct (entities x !! entity_id e); [|discriminate].
          destruct (dispatch _ _ _ _); discriminate. }
    split; [exact Hx'|]. split; [congruence|].
    intros ref v v' Hv Hv'.
    assert (ref < length (objects x))%nat as Hlt.
    { rewrite Hlen. eapply lookup_lt_Some. exact Hv. }
    destruct (lookup_lt_is_Some_2 _ _ Hlt) as [vx Hvx].
    eapply Qle_trans; [apply (Hmono ref v vx Hv Hvx) | apply (Hm ref vx v' Hvx Hv')]. }
  apply (run_invariant normal P end_time) with (fuel := fuel) (s := s).
  - intros x b Hx. exact Hx.
  - intros x x' Hx Hq Hbody. apply (Hstep x x' Hx Hq). left. exact Hbody.
  - intros x x' Hx Hq Hbody. apply (Hstep x x' Hx Hq). right. exact Hbody.
  - split; [exact Hok|]. split; [reflexivity|].
    intros ref v v' Hv Hv'. rewrite Hv in Hv'. injection Hv' as <-. apply Qle_refl.
  - exact Hrun.
Qed.

(** C5, amended.  On an engine whose vessels are registered under their
    own ids, have non-negative hopper capacities, and whose logs account
    for what they loaded and are loading (fresh vessels that have started
    work do): after every round of [run] and when [run] returns, each
    vessel's [total_dredged] is at least what it was, and the sum of the
    volumes recorded with its dredging samples equals [total_dredged] plus
    the volume of its dredging phases in progress, those whose
    DREDGING_COMPLETE event is still queued.  So [total_dredged] never
    exceeds the recorded sum and equals it whenever no DREDGING_COMPLETE
    event is queued. *)
Theorem dredged_volume_accounting (end_time : option Q) (s : Simulation) :
  accounting_ok s →
  (∀ ref v, objects s !! ref = Some v →
     pysum (logged_volumes v) == total_dredged v + volume_in_progress s ref ∧
     total_dredged v <= pysum (logged_volumes v) ∧
     (Forall (λ e, event_type e ≠ DREDGING_COMPLETE) (event_queue s) →
      total_dredged v == pysum (logged_volumes v))) ∧
  (∀ s', event_queue s ≠ [] →
     run_body normal end_time s = Continue s' ∨
     run_body normal end_time s = Break s' →
     accounting_ok s' ∧
     ∀ ref v v', objects s !! ref = Some v → objects s' !! ref = Some v' →
                 total_dredged v <= total_dredged v') ∧
  (∀ fuel s', run normal fuel end_time s = Done s' →
     accounting_ok s' ∧
     ∀ ref v v', objects s !! ref = Some v → objects s' !! ref = Some v' →
                 total_dredged v <= total_dredged v').
Proof.
  intros Hok. split; [|split].
  - destruct Hok as (_ & Hcarry & Hacc). intros ref v Hv.
    destruct (Hacc ref v Hv) as [_ Hsum]. rewrite pysum_Qsum.
    split; [exact Hsum|]. split.
    + rewrite Hsum. apply Qle_plus_nonneg.
      apply volume_in_progress_nonneg. exact Hcarry.
    + intros Hidle. rewrite Hsum, (volume_in_progress_idle s ref Hidle). ring.
  - intros s' Hq Hbody. apply (accounting_round normal end_time s s' Hok Hq Hbody).
  - intros fuel s' Hrun. apply (run_accounting end_time fuel s s' Hok Hrun).
Qed.

End AccountingClaim.

Lemma one_vessel_accounting_ok (id : string) (cfg : TSHDConfig) :
  0 <= hopper_capacity cfg → accounting_ok (one_vessel id cfg).
Proof.
  intros Hcap. split; [apply one_vessel_registry_ok|].
  assert (event_queue (one_vessel id cfg) =
          [{| time := 0; event_type := DREDGING_START; entity_id := id;
              data := ∅ |}]) as Hq by reflexivity.
  split.
  - rewrite Hq. apply Forall_singleton. intros [=].
  - intros ref v Hv. unfold volume_in_progress. rewrite Hq.
    destruct ref as [|ref]; [|discriminate]. injection Hv as <-.
    split; [exact Hcap|]. simpl. unfold in_progress. simpl.
    destruct (_ !! id); [destruct (decide _)|]; reflexivity.
Qed.

Lemma dredged_volume_accounting_witness :
  accounting_ok (one_vessel "TSHD-1" TSHDConfig_default) ∧
  ∀ fuel s', run exact_mean fuel (Some 1) (one_vessel "TSHD-1" TSHDConfig_default)
             = Done s' → accounting_ok s'.
Proof.
  assert (accounting_ok (one_vessel "TSHD-1" TSHDConfig_default)) as H.
  { apply one_vessel_accounting_ok. discriminate. }
  split; [exact H|]. intros fuel s' Hrun.
  destruct (dredged_volume_accounting exact_mean (Some 1) _ H) as (_ & _ & Hr).
  destruct (Hr fuel s' Hrun) as [Hok _]. exact Hok.
Defined.
(** ** A bounded [run] ends *)

Section Termination.
Variable normal : Q → Q → nat → Q.

Lemma floor_gap (a b x x' : Q) : a <= x' → x' <= x - 1 → x < b + 1 → a < b.
Proof. intros. lra. Qed.

Lemma hops_step (h t t' f : Q) :
  1 # 100 <= f → t + f <= t' → t' <= h → (hops h t' + 1 ≤ hops h t)%nat.
Proof.
  intros Hf Ht Hh. unfold hops.
  assert (0 <= (h - t') * 100) as Hx0 by lra.
  assert ((h - t') * 100 <= (h - t) * 100 - 1) as Hxx by lra.
  pose proof (Qfloor_resp_le _ _ Hx0) as H0.
  change (Qfloor 0) with 0%Z in H0.
  pose proof (Qlt_floor ((h - t) * 100)) as Hu.
  rewrite inject_Z_plus in Hu. change (inject_Z 1) with 1 in Hu.
  pose proof (floor_gap _ _ _ _ (Qfloor_le ((h - t') * 100)) Hxx Hu) as Hlt.
  rewrite <- Zlt_Qlt in Hlt. lia.
Qed.

Lemma weight_within (h : Q) (e : Event) : time e <= h → (1 ≤ weight h e)%nat.
Proof.
  intros H. unfold weight. apply Qltb_ge in H. rewrite H.
  destruct (event_type e); lia.
Qed.

Lemma weight_completion (h t f : Q) (c : Event) :
  1 # 100 <= f → t + f <= time c → t <= h →
  (weight h c ≤ 4 * hops h t)%nat.
Proof.
  intros Hf Ht Hh. unfold weight. destruct (Qltb h (time c)) eqn:E; [lia|].
  apply Qltb_ge in E. pose proof (hops_step h t (time c) f Hf Ht E).
  destruct (event_type c); lia.
Qed.

Lemma follow_ups_weight (h : Q) (e : Event) (id : string) (mgr : bool)
    (l : list Event) :
  follow_ups (time e) id mgr (event_type e) l → time e <= h →
  (queue_weight h l < weight h e)%nat.
Proof.
  intros Hf Hh. unfold queue_weight.
  assert (Qltb h (time e) = false) as Hin by (apply Qltb_ge; exact Hh).
  assert (∀ m, time m = time e → is_marker (event_type m) = true →
               weight h m = 1%nat) as Hmark.
  { intros m Hm Hty. unfold weight. rewrite Hm, Hin.
    destruct (event_type m); try discriminate; reflexivity. }
  inversion Hf; subst; unfold weight at 2; rewrite Hin;
    match goal with H : _ = event_type e |- _ => rewrite <- H end;
    cbn [sum_list_with]; try lia.
  - pose proof (weight_completion h (time e) (1 # 10) c ltac:(lra)
                  ltac:(assumption) Hh). lia.
  - rewrite (Hmark m) by (try assumption;
      match goal with H : event_type m = _ |- _ => rewrite H end; reflexivity).
    pose proof (weight_completion h (time e) (1 # 100) c ltac:(lra)
                  ltac:(assumption) Hh). lia.
  - rewrite (Hmark m) by (try assumption;
      match goal with H : event_type m = _ |- _ => rewrite H end; reflexivity).
    pose proof (weight_completion h (time e) (5 # 100) c ltac:(lra)
                  ltac:(assumption) Hh). lia.
  - rewrite (Hmark m) by (try assumption;
      match goal with H : event_type m = _ |- _ => rewrite H end; reflexivity).
    pose proof (weight_completion h (time e) (1 # 100) c ltac:(lra)
                  ltac:(assumption) Hh). lia.
  - unfold weight.
    match goal with H : time d = _ |- _ => rewrite H end. rewrite Hin.
    match goal with H : event_type d = _ |- _ => rewrite H end. lia.
Qed.

(** A round that goes on takes weight off the queue. *)
Lemma round_decreases (h : Q) (s s' : Simulation) :
  float_truthy h = true → event_queue s ≠ [] →
  run_body normal (Some h) s = Continue s' →
  (queue_weight h (event_queue s') < queue_weight h (event_queue s))%nat.
Proof.
  intros Hh Hq Hbody.
  destruct (run_body_pop normal (Some h) s Hq) as (e & rest & Hpop & Heq).
  rewrite Heq in Hbody.
  pose proof (heappop_Permutation _ _ _ Hpop) as Hperm.
  destruct (horizon_exceeded (Some h) e) eqn:Hex; [discriminate|].
  pose proof (horizon_not_exceeded _ _ _ Hex eq_refl Hh) as Hin.
  unfold queue_weight. rewrite Hperm. cbn [sum_list_with].
  apply process_event_effect in Hbody
    as (_ & _ & _ & _ & _ & _ & [(_ & Hqueue & _)|Hdisp]).
  - revert Hqueue. fields. intros ->. pose proof (weight_within h e Hin). lia.
  - destruct Hdisp as (ref & self & self' & sim' & l & _ & _ & _ & _ & _ & _ & _ & _
                       & Hqueue & Hfollow).
    revert Hqueue. fields. intros ->.
    rewrite schedule_all_Permutation, sum_list_with_app.
    pose proof (follow_ups_weight h e _ _ l Hfollow Hin) as Hw.
    unfold queue_weight in Hw. lia.
Qed.

(** With a non-zero bound the loop ends within a number of rounds given by
    the weight of its queue. *)
Lemma run_loop_ends (h : Q) (fuel : nat) (s : Simulation) :
  float_truthy h = true →
  (queue_weight h (event_queue s) < fuel)%nat →
  run_loop normal fuel (Some h) s ≠ OutOfFuel.
Proof.
  intros Hh. revert s. induction fuel as [|fuel IH]; intros s Hw; [lia|].
  cbn [run_loop]. destruct (event_queue s) as [|x q] eqn:Q; [discriminate|].
  destruct (running s); [|discriminate].
  destruct (run_body normal (Some h) s) as [s1|s1|] eqn:B; try discriminate.
  apply IH.
  pose proof (round_decreases h s s1 Hh ltac:(congruence) B) as Hd.
  rewrite Q in Hd. lia.
Qed.

(** More fuel does not change a result. *)
Lemma run_loop_more_fuel (end_time : option Q) (fuel fuel' : nat)
    (s : Simulation) :
  run_loop normal fuel end_time s ≠ OutOfFuel → (fuel ≤ fuel')%nat →
  run_loop normal fuel' end_time s = run_loop normal fuel end_time s.
Proof.
  revert fuel' s. induction fuel as [|fuel IH]; intros fuel' s Hne Hle.
  - cbn [run_loop] in *. destruct fuel'; cbn [run_loop]; [reflexivity|].
    destruct (event_queue s); [reflexivity|].
    destruct (running s); [congruence | reflexivity].
  - destruct fuel' as [|fuel']; [lia|]. cbn [run_loop] in *.
    destruct (event_queue s); [reflexivity|].
    destruct (running s); [|reflexivity].
    destruct (run_body normal end_time s); try reflexivity.
    apply IH; [exact Hne | lia].
Qed.

End Termination.
(** ** Handlers do not raise on valid configurations *)









Section NoRaise.
Variable normal : Q → Q → nat → Q.




End NoRaise.
(** ** A bounded [run] of vessels that keep going stops at its horizon *)

Section Horizon.
Variable normal : Q → Q → nat → Q.




End Horizon.
(** ** C7: the campaign driver *)


Section Campaign.
Variable normal : Q → Q → nat → Q.











End Campaign.


(** ** C6: resuming a run *)

(** C6 as stated fails.  Two default vessels finish dredging at the same
    time 2.  [run(1)] pops one of the two completion events, finds it
    beyond the bound and pushes it back, which leaves it behind the other
    one in the heap.  The later [run(2.2)] therefore serves vessel B
    first, while a single [run(2.2)] serves vessel A first: with the same
    draws, the high third draw goes to the transit of another vessel. *)
Lemma resumed_run_differs_on_ties :
  ∃ s12 s2 a12 a2,
    run_each third_draw_high 20 [1; 22 # 10] two_vessels = Done s12 ∧
    run third_draw_high 20 (Some (22 # 10)) two_vessels = Done s2 ∧
    objects s12 !! 0%nat = Some a12 ∧ objects s2 !! 0%nat = Some a2 ∧
    sampled_durations a12
    = [("dredging"%string, 2); ("moving_to_da"%string, 1 # 2)] ∧
    sampled_durations a2
    = [("dredging"%string, 2); ("moving_to_da"%string, 23 # 40)] ∧
    s12 ≠ s2.
Proof.
  eexists. eexists. eexists. eexists.
  split; [vm_compute; reflexivity|].
  split; [vm_compute; reflexivity|].
  split; [reflexivity|]. split; [reflexivity|].
  split; [vm_compute; reflexivity|].
  split; [vm_compute; reflexivity|].
  intros H.
  apply (f_equal (λ s, sampled_durations <$> objects s !! 0%nat)) in H.
  vm_compute in H. discriminate.
Qed.

(** *** Putting the popped event back *)

Section PutBack.
Import Heapq.

Lemma tie_free_Permutation (q q' : list Event) :
  q ≡ₚ q' → tie_free q → tie_free q'.
Proof.
  induction 1 as [|x l l' Hp IH|x y l|l l' l'' _ IH1 _ IH2]; simpl.
  - auto.
  - intros [H1 H2]. split; [rewrite <- Hp; exact H1 | apply IH; exact H2].
  - intros (Hy & Hx & Hl). apply Forall_cons in Hy as (Hxy & Hy).
    split; [|split; assumption].
    constructor; [|exact Hx]. intros E. apply Hxy. symmetry. exact E.
  - auto.
Qed.

Lemma tie_free_lookup (l : list Event) :
  tie_free l → ∀ i j a b, (i < j)%nat → l !! i = Some a → l !! j = Some b →
  ¬ time a == time b.
Proof.
  induction l as [|x l IH]; intros Hl i j a b Hij Ha Hb; [discriminate|].
  destruct Hl as [Hx Hl]. destruct j as [|j]; [lia|]. simpl in Hb.
  destruct i as [|i]; simpl in Ha.
  - injection Ha as <-. rewrite Forall_forall in Hx. intros E.
    apply (Hx b); [eapply list_elem_of_lookup_2; exact Hb | symmetry; exact E].
  - apply (IH Hl i j); [lia | exact Ha | exact Hb].
Qed.

Lemma siftdown_loop_app (newitem x : Event) (f : nat) :
  ∀ h pos, (pos < length h)%nat →
  siftdown_loop f (h ++ [x]) 0 pos newitem = siftdown_loop f h 0 pos newitem ++ [x].
Proof.
  induction f as [|f IH]; intros h pos Hpos; cbn [siftdown_loop].
  - apply insert_app_l. exact Hpos.
  - destruct (0 <? pos)%nat eqn:E; [|apply insert_app_l; exact Hpos].
    apply Nat.ltb_lt in E.
    assert ((pos - 1) / 2 < pos)%nat as Hlt by (apply parent_lt; lia).
    rewrite lookup_app_l by lia.
    destruct (h !! ((pos - 1) / 2)%nat) as [p|]; [|apply insert_app_l; exact Hpos].
    destruct (Event_lt newitem p); [|apply insert_app_l; exact Hpos].
    rewrite insert_app_l by exact Hpos. apply IH. rewrite length_insert. lia.
Qed.

Variable R : list Event.
Variable e : Event.
Hypothesis Hstrict :
  ∀ i c p, (1 ≤ i)%nat → R !! i = Some c → R !! ((i - 1) / 2)%nat = Some p →
           time p < time c.
Hypothesis Hmin : ∀ x, x ∈ R → time e < time x.

(** Sifting the new smallest item up to the root moves every ancestor one
    step down; sifting the hole down from the root takes the same path
    back and moves every one of them up again. *)
Lemma siftup_undo (fuel : nat) :
  ∀ h pos, (pos ≤ fuel)%nat → (pos < length h)%nat → length h = length R →
  (∀ i, (i < 2 * pos + 1)%nat → h !! i = R !! i) →
  ∀ stale, ∃ d c,
    (d ≤ pos)%nat ∧ (pos = 0%nat → c = stale) ∧
    ((1 ≤ pos)%nat → R !! ((pos - 1) / 2)%nat = Some c) ∧
    siftdown_loop fuel h 0 pos e !! 0%nat = Some e ∧
    length (siftdown_loop fuel h 0 pos e) = length R ∧
    ∀ f2, siftup_loop (d + f2) (<[0%nat := stale]> (siftdown_loop fuel h 0 pos e)) 0
          = siftup_loop f2 (<[pos := c]> h) pos.
Proof.
  assert (∀ h stale, (0 < length h)%nat → length h = length R →
            ∃ d c, (d ≤ 0)%nat ∧ (0%nat = 0%nat → c = stale) ∧
              ((1 ≤ 0)%nat → R !! ((0 - 1) / 2)%nat = Some c) ∧
              <[0%nat := e]> h !! 0%nat = Some e ∧
              length (<[0%nat := e]> h) = length R ∧
              ∀ f2, siftup_loop (d + f2) (<[0%nat := stale]> (<[0%nat := e]> h)) 0
                    = siftup_loop f2 (<[0%nat := c]> h) 0) as Hbase.
  { intros h stale Hlen HlenR. exists 0%nat, stale.
    split; [lia|]. split; [auto|]. split; [lia|].
    split; [apply list_lookup_insert_eq; exact Hlen|].
    split; [rewrite length_insert; exact HlenR|].
    intros f2. rewrite list_insert_insert_eq. reflexivity. }
  induction fuel as [|fuel IH]; intros h pos Hfuel Hpos Hlen Hinv stale.
  { assert (pos = 0%nat) as -> by lia. cbn [siftdown_loop]. apply Hbase; assumption. }
  destruct pos as [|k]; [cbn [siftdown_loop]; apply Hbase; assumption|].
  set (pos := S k) in *. cbn [siftdown_loop].
  assert ((0 <? pos)%nat = true) as -> by (apply Nat.ltb_lt; lia).
  set (pos' := ((pos - 1) / 2)%nat).
  assert (pos' < pos)%nat as Hlt by (apply parent_lt; lia).
  assert (pos = 2 * pos' + 1 ∨ pos = 2 * pos' + 2)%nat as Hchild.
  { apply parent_children; [lia | reflexivity]. }
  assert (h !! pos' = R !! pos') as HP by (apply Hinv; lia).
  destruct (R !! pos') as [P|] eqn:RP.
  2:{ apply lookup_ge_None in RP. lia. }
  rewrite HP.
  assert (Event_lt e P = true) as ->.
  { apply Event_lt_spec, Hmin. eapply list_elem_of_lookup_2. exact RP. }
  edestruct (IH (<[pos := P]> h) pos') with (stale := stale)
    as (d' & c' & Hd' & _ & _ & Hroot & Hlen' & Hup).
  { lia. }
  { rewrite length_insert. lia. }
  { rewrite length_insert. exact Hlen. }
  { intros i Hi. rewrite list_lookup_insert_ne by lia. apply Hinv. lia. }
  exists (S d'), P. split; [lia|]. split; [lia|]. split; [auto|].
  split; [exact Hroot|]. split; [exact Hlen'|].
  intros f2. replace (S d' + f2)%nat with (d' + S f2)%nat by lia.
  rewrite (Hup (S f2)). cbn [siftup_loop].
  rewrite !length_insert.
  assert ((2 * pos' + 1 <? length h)%nat = true) as -> by (apply Nat.ltb_lt; lia).
  assert (∀ j, j ≠ pos' → j ≠ pos → (j < 2 * pos + 1)%nat →
            <[pos' := c']> (<[pos := P]> h) !! j = R !! j) as Hother.
  { intros j H1 H2 H3. rewrite !list_lookup_insert_ne by congruence.
    apply Hinv. exact H3. }
  assert (<[pos' := c']> (<[pos := P]> h) !! pos = Some P) as Hpath.
  { rewrite list_lookup_insert_ne by lia. apply list_lookup_insert_eq. lia. }
  assert (<[pos' := P]> (<[pos' := c']> (<[pos := P]> h)) = <[pos := P]> h) as Hback.
  { rewrite list_insert_insert_eq. rewrite list_insert_insert_ne by lia.
    f_equal. apply list_insert_id. exact HP. }
  destruct Hchild as [Hc|Hc].
  - (* the path goes through the left child *)
    rewrite <- Hc, Hpath.
    replace (pos + 1)%nat with (2 * pos' + 2)%nat by lia.
    destruct (<[pos' := c']> (<[pos := P]> h) !! (2 * pos' + 2)%nat) as [r|] eqn:Er.
    + rewrite Hother in Er by lia.
      assert (Event_lt P r = true) as ->.
      { apply Event_lt_spec. apply (Hstrict (2 * pos' + 2)%nat); [lia | exact Er|].
        replace ((2 * pos' + 2 - 1) / 2)%nat with pos'; [exact RP|].
        symmetry. apply parent_children; lia. }
      simpl negb. cbv iota. rewrite Hpath, Hback. reflexivity.
    + rewrite Hpath, Hback. reflexivity.
  - (* the path goes through the right child *)
    replace (2 * pos' + 1 + 1)%nat with pos by lia. rewrite Hpath.
    destruct (<[pos' := c']> (<[pos := P]> h) !! (2 * pos' + 1)%nat) as [l|] eqn:El.
    2:{ apply lookup_ge_None in El. rewrite !length_insert in El. lia. }
    rewrite Hother in El by lia.
    assert (Event_lt l P = false) as ->.
    { apply Event_lt_false. apply Qlt_le_weak.
      apply (Hstrict (2 * pos' + 1)%nat); [lia | exact El|].
      replace ((2 * pos' + 1 - 1) / 2)%nat with pos'; [exact RP|].
      symmetry. apply parent_children; lia. }
    simpl negb. cbv iota. rewrite Hpath, Hback. reflexivity.
Qed.

Lemma strict_insert_own (pos : nat) (x : Event) :
  R !! pos = Some x → (pos = 0%nat ∨
    ∃ p, R !! ((pos - 1) / 2)%nat = Some p ∧ Event_lt x p = false).
Proof.
  intros Hx. destruct pos as [|k]; [left; reflexivity|right].
  assert ((S k - 1) / 2 < S k)%nat as Hlt by (apply parent_lt; lia).
  destruct (R !! ((S k - 1) / 2)%nat) as [p|] eqn:Ep.
  - exists p. split; [reflexivity|]. apply Event_lt_false, Qlt_le_weak.
    apply (Hstrict (S k)); [lia | exact Hx | exact Ep].
  - apply lookup_ge_None in Ep. apply lookup_lt_Some in Hx. lia.
Qed.

Lemma put_back_min : heappop (heappush R e) = Some (e, R).
Proof.
  destruct (length R) as [|f] eqn:Hn.
  { destruct R; [reflexivity | discriminate]. }
  set (n := S f) in *.
  set (pos1 := ((n - 1) / 2)%nat).
  assert (pos1 < n)%nat as Hlt by (apply parent_lt; lia).
  assert (n = 2 * pos1 + 1 ∨ n = 2 * pos1 + 2)%nat as Hshape.
  { apply parent_children; [lia | reflexivity]. }
  destruct (R !! pos1) as [P0|] eqn:RP.
  2:{ apply lookup_ge_None in RP. lia. }
  destruct (siftup_undo f R pos1) with (stale := P0)
    as (d & c & Hd & _ & _ & Hroot & HlenT & Hup); [lia | lia | reflexivity | auto |].
  set (T := siftdown_loop f R 0 pos1 e) in *.
  assert (heappush R e = T ++ [P0]) as ->.
  { unfold heappush, _siftdown. rewrite Hn.
    rewrite lookup_app_r by lia. rewrite Hn, Nat.sub_diag. simpl lookup.
    subst n. cbn [siftdown_loop]. simpl Nat.ltb. cbv iota.
    fold pos1. rewrite lookup_app_l by lia. rewrite RP.
    assert (Event_lt e P0 = true) as ->.
    { apply Event_lt_spec, Hmin. eapply list_elem_of_lookup_2. exact RP. }
    replace (<[S f := P0]> (R ++ [e])) with (R ++ [P0]).
    - apply siftdown_loop_app. lia.
    - rewrite <- Hn. replace (length R) with (length R + 0)%nat at 1 by lia.
      rewrite insert_app_r. reflexivity. }
  unfold heappop. rewrite last_snoc, removelast_last.
  destruct T as [|t0 rest'] eqn:ET; [discriminate|].
  simpl in Hroot. injection Hroot as ->. f_equal. f_equal.
  change (P0 :: rest') with (<[0%nat := P0]> (e :: rest')).
  unfold _siftup.
  rewrite list_lookup_insert_eq by (simpl; lia).
  rewrite length_insert, HlenT, Hn.
  replace n with (d + (n - d))%nat by lia.
  rewrite Hup.
  assert (∀ x, <[pos1 := x]> (<[pos1 := c]> R) = <[pos1 := x]> R) as Hins
    by (intros; apply list_insert_insert_eq).
  destruct Hshape as [Hodd|Heven].
  - (* the pushed item was a left child: the hole ends at its parent *)
    assert (siftup_loop (n - d) (<[pos1 := c]> R) pos1 = (<[pos1 := c]> R, pos1)) as ->.
    { destruct (n - d)%nat; [reflexivity|]. cbn [siftup_loop].
      rewrite length_insert, Hn.
      assert ((2 * pos1 + 1 <? n)%nat = false) as -> by (apply Nat.ltb_ge; lia).
      reflexivity. }
    rewrite Hins, list_insert_id by exact RP.
    unfold _siftdown. rewrite RP.
    destruct (strict_insert_own pos1 P0 RP) as [E0 | (p & Ep & Hp)].
    + rewrite E0 in *. cbn [siftdown_loop]. apply list_insert_id. exact RP.
    + destruct pos1 as [|k] eqn:Epos1.
      { cbn [siftdown_loop]. apply list_insert_id. exact RP. }
      cbn [siftdown_loop]. simpl Nat.ltb. cbv iota. rewrite Ep, Hp.
      apply list_insert_id. exact RP.
  - (* the pushed item was a right child: the hole ends at its sibling *)
    destruct (R !! (2 * pos1 + 1)%nat) as [l|] eqn:Rl.
    2:{ apply lookup_ge_None in Rl. lia. }
    assert (time P0 < time l) as Hl.
    { apply (Hstrict (2 * pos1 + 1)%nat); [lia | exact Rl|].
      replace ((2 * pos1 + 1 - 1) / 2)%nat with pos1; [exact RP|].
      symmetry. apply parent_children; lia. }
    assert (siftup_loop (n - d) (<[pos1 := c]> R) pos1
            = (<[pos1 := l]> R, (2 * pos1 + 1)%nat)) as ->.
    { destruct (n - d)%nat as [|f3] eqn:Ef; [lia|]. cbn [siftup_loop].
      rewrite length_insert, Hn.
      assert ((2 * pos1 + 1 <? n)%nat = true) as -> by (apply Nat.ltb_lt; lia).
      rewrite (list_lookup_insert_ne R pos1 (2 * pos1 + 1)) by lia. rewrite Rl.
      assert (<[pos1 := c]> R !! (2 * pos1 + 1 + 1)%nat = None) as ->.
      { apply lookup_ge_None. rewrite length_insert. lia. }
      rewrite (list_lookup_insert_ne R pos1 (2 * pos1 + 1)) by lia. rewrite Rl.
      rewrite Hins.
      destruct f3; [reflexivity|]. cbn [siftup_loop].
      rewrite length_insert, Hn.
      assert ((2 * (2 * pos1 + 1) + 1 <? n)%nat = false) as ->
        by (apply Nat.ltb_ge; lia).
      reflexivity. }
    unfold _siftdown.
    rewrite list_lookup_insert_eq by (rewrite length_insert; lia).
    replace (2 * pos1 + 1)%nat with (S (2 * pos1)) by lia.
    cbn [siftdown_loop]. simpl Nat.ltb. cbv iota.
    replace ((S (2 * pos1) - 1) / 2)%nat with pos1
      by (symmetry; apply parent_children; lia).
    rewrite list_lookup_insert_ne by lia.
    rewrite list_lookup_insert_eq by lia.
    assert (Event_lt P0 l = true) as -> by (apply Event_lt_spec; exact Hl).
    rewrite list_insert_insert_eq.
    rewrite list_insert_insert_ne by lia.
    rewrite (list_insert_id R (S (2 * pos1)) l)
      by (replace (S (2 * pos1)) with (2 * pos1 + 1)%nat by lia; exact Rl).
    destruct (strict_insert_own pos1 P0 RP) as [E0 | (p & Ep & Hp)].
    + rewrite E0 in *. change (2 * 0)%nat with 0%nat. cbn [siftdown_loop].
      rewrite list_insert_insert_eq. apply list_insert_id. exact RP.
    + destruct pos1 as [|k] eqn:Epos1.
      { change (2 * 0)%nat with 0%nat. cbn [siftdown_loop].
        rewrite list_insert_insert_eq. apply list_insert_id. exact RP. }
      replace (2 * S k)%nat with (S (2 * k + 1)) by lia.
      cbn [siftdown_loop]. simpl Nat.ltb. cbv iota.
      assert ((S k - 1) / 2 < S k)%nat by (apply parent_lt; lia).
      rewrite list_lookup_insert_ne by lia. rewrite Ep, Hp.
      rewrite list_insert_insert_eq. apply list_insert_id. exact RP.
Qed.

End PutBack.

(** Pushing an event that is earlier than the whole heap, on a heap
    without equal times, and popping again gives the event and the very
    same heap back. *)
Lemma heappop_heappush_min (rest : list Event) (e : Event) :
  heap_ordered rest → tie_free (e :: rest) →
  (∀ x, x ∈ rest → time e <= time x) →
  Heapq.heappop (Heapq.heappush rest e) = Some (e, rest).
Proof.
  intros Hh [Hne Hfree] Hmin. apply put_back_min.
  - intros i c p Hi Hc Hp.
    destruct (Qle_lt_or_eq _ _ (Hh i c p Hi Hc Hp)) as [Hlt|Heq]; [exact Hlt|].
    exfalso. apply (tie_free_lookup rest Hfree ((i - 1) / 2)%nat i p c);
      [apply parent_lt; exact Hi | exact Hp | exact Hc | exact Heq].
  - intros x Hx. destruct (Qle_lt_or_eq _ _ (Hmin x Hx)) as [Hlt|Heq]; [exact Hlt|].
    exfalso. rewrite Forall_forall in Hne. apply (Hne x Hx). symmetry. exact Heq.
Qed.

Section Resume.
Import Heapq.
Variable normal : Q → Q → nat → Q.

Lemma heappush_nil (e : Event) : heappush [] e = [e].
Proof. reflexivity. Qed.

Lemma heappush_later (m c : Event) :
  time m <= time c → heappush [m] c = [m; c].
Proof.
  intros H. unfold heappush, _siftdown. cbn.
  apply Event_lt_false in H. rewrite H. reflexivity.
Qed.

Lemma heappush_earlier (m c : Event) :
  time m < time c → heappush [c] m = [m; c].
Proof.
  intros H. unfold heappush, _siftdown. cbn.
  apply Event_lt_spec in H. rewrite H. reflexivity.
Qed.

Lemma heappop_one (e : Event) : heappop [e] = Some (e, []).
Proof. reflexivity. Qed.

Lemma heappop_two (m c : Event) : heappop [m; c] = Some (m, [c]).
Proof. reflexivity. Qed.

(** On a tidy queue, pushing the popped event back restores the queue. *)
Lemma tidy_put_back (q : list Event) (e : Event) (rest : list Event) :
  tidy q → heappop q = Some (e, rest) → heappush rest e = q ∧ tidy rest.
Proof.
  intros [->|[[x ->]|(m & c & -> & Hm & Hlt)]].
  - discriminate.
  - rewrite heappop_one. intros [= <- <-]. split; [reflexivity | left; reflexivity].
  - rewrite heappop_two. intros [= <- <-].
    split; [apply heappush_earlier; exact Hlt|]. right. left. eexists. reflexivity.
Qed.

Lemma follow_ups_tidy (clk : Q) (id : string) (mgr : bool) (ty : EventType)
    (l : list Event) :
  follow_ups clk id mgr ty l → tidy (schedule_all l []).
Proof.
  assert (∀ m c f, time m = clk → 0 < f → clk + f <= time c → time m < time c)
    as Hlt.
  { intros m c f Hm Hf Hc. rewrite Hm. lra. }
  destruct 1; unfold schedule_all; cbn [foldl]; rewrite ?heappush_nil;
    try (left; reflexivity);
    try (right; left; eexists; reflexivity).
  all: rewrite heappush_later
    by (apply Qlt_le_weak; eapply Hlt; [eassumption | | eassumption]; reflexivity).
  all: right; right; eexists; eexists; split; [reflexivity|].
  all: split;
    [match goal with
     | |- is_marker (event_type ?x) = true =>
         match goal with H : event_type x = _ |- _ => rewrite H; reflexivity end
     end
    | eapply Hlt; [eassumption | | eassumption]; reflexivity].
Qed.

Lemma tidy_round (end_time : option Q) (s s' : Simulation) :
  tidy (event_queue s) → event_queue s ≠ [] →
  run_body normal end_time s = Continue s' ∨
  run_body normal end_time s = Break s' →
  tidy (event_queue s').
Proof.
  intros Ht Hq Hbody.
  destruct (run_body_pop normal end_time s Hq) as (e & rest & Hpop & Heq).
  rewrite Heq in Hbody.
  destruct (tidy_put_back _ _ _ Ht Hpop) as [Hback Hrest].
  destruct (horizon_exceeded end_time e).
  - destruct Hbody as [Hbody|Hbody]; [discriminate|].
    injection Hbody as <-. fields. rewrite Hback. exact Ht.
  - destruct Hbody as [Hbody|Hbody].
    2:{ unfold process_event in Hbody. revert Hbody. fields.
        destruct (entities s !! entity_id e); [|discriminate].
        destruct (dispatch _ _ _ _); discriminate. }
    apply process_event_effect in Hbody
      as (_ & _ & _ & _ & _ & _ & [(_ & Hqueue & _)|Hdisp]).
    + revert Hqueue. fields. intros ->. exact Hrest.
    + destruct Hdisp as (ref & self & self' & sim' & l & _ & _ & _ & _ & _ & _ & _ & _
                         & Hqueue & Hfollow).
      revert Hqueue. fields. intros ->.
      destruct Ht as [Hn|[[x Hx]|(m & c & Hmc & Hm & Hlt)]].
      * congruence.
      * rewrite Hx, heappop_one in Hpop. injection Hpop as <- <-.
        eapply follow_ups_tidy. exact Hfollow.
      * rewrite Hmc, heappop_two in Hpop. injection Hpop as <- <-.
        rewrite (follow_ups_marker _ _ _ _ _ Hfollow Hm).
        right. left. eexists. reflexivity.
Qed.

Lemma set_clock_run_body (c : Q) (end_time : option Q) (s : Simulation) :
  run_body normal end_time (set_clock c s) = run_body normal end_time s.
Proof.
  unfold run_body, get_next_event. fields.
  destruct (event_queue s) as [|x q]; [reflexivity|].
  destruct (heappop _) as [[e rest]|]; [|reflexivity].
  destruct end_time as [t|]; [destruct (_ && _)|]; reflexivity.
Qed.

Lemma set_clock_run_loop (c : Q) (fuel : nat) (end_time : option Q)
    (s : Simulation) :
  event_queue s ≠ [] → running s = true →
  run_loop normal fuel end_time (set_clock c s) = run_loop normal fuel end_time s.
Proof.
  intros Hq Hr. destruct fuel; cbn [run_loop]; fields;
    destruct (event_queue s); try congruence; rewrite Hr; [reflexivity|].
  rewrite set_clock_run_body. reflexivity.
Qed.

Lemma restart_same (s : Simulation) :
  running s = true → set_running true (set_running false s) = s.
Proof. destruct s. fields. intros ->. reflexivity. Qed.

Lemma restart_after_break (a : Q) (e : Event) (rest : list Event)
    (s : Simulation) :
  running s = true →
  set_running true
    (set_running false
       (set_clock a (schedule_event e (set_event_queue rest s))))
  = set_clock a (set_event_queue (heappush rest e) s).
Proof. destruct s. fields. intros ->. reflexivity. Qed.

(** The loop sees the queue only through [heappop]. *)
Lemma requeue_run_loop (q' : list Event) (fuel : nat) (end_time : option Q)
    (s : Simulation) :
  running s = true → event_queue s ≠ [] → q' ≠ [] →
  heappop q' = heappop (event_queue s) →
  run_loop normal fuel end_time (set_event_queue q' s)
  = run_loop normal fuel end_time s.
Proof.
  intros Hr Hq Hq' Hpop.
  assert (run_body normal end_time (set_event_queue q' s)
          = run_body normal end_time s) as Hbody.
  { unfold run_body, get_next_event. fields.
    destruct q' as [|x' q'']; [congruence|]. rewrite Hpop.
    destruct (event_queue s) as [|x q] eqn:Q; [congruence|].
    destruct (heappop (x :: q)) as [[e rest]|]; [|reflexivity].
    assert (set_event_queue rest (set_event_queue (x' :: q'') s)
            = set_event_queue rest s) as E by (destruct s; reflexivity).
    fields_in E. rewrite E. reflexivity. }
  destruct fuel; cbn [run_loop]; fields; rewrite Hr.
  - destruct q'; [congruence|]. destruct (event_queue s); [congruence|].
    reflexivity.
  - rewrite Hbody. destruct q'; [congruence|].
    destruct (event_queue s); [congruence|]. reflexivity.
Qed.

Lemma round_ordered (end_time : option Q) (s s' : Simulation) :
  heap_ordered (event_queue s) → event_queue s ≠ [] →
  run_body normal end_time s = Continue s' ∨
  run_body normal end_time s = Break s' →
  heap_ordered (event_queue s').
Proof.
  intros Hheap Hq Hbody.
  destruct (run_body_pop normal end_time s Hq) as (e & rest & Hpop & Heq).
  rewrite Heq in Hbody.
  pose proof (heappop_ordered _ _ _ Hheap Hpop) as Hrest.
  destruct (horizon_exceeded end_time e).
  - destruct Hbody as [Hbody|Hbody]; [discriminate|].
    injection Hbody as <-. fields. apply heappush_ordered. exact Hrest.
  - destruct Hbody as [Hbody|Hbody].
    2:{ unfold process_event in Hbody. revert Hbody. fields.
        destruct (entities s !! entity_id e); [|discriminate].
        destruct (dispatch _ _ _ _); discriminate. }
    apply process_event_effect in Hbody
      as (_ & _ & _ & _ & _ & _ & [(_ & Hqueue & _)|Hdisp]).
    + rewrite Hqueue. exact Hrest.
    + destruct Hdisp as (ref & self & self' & sim' & l & _ & _ & _ & _ & _ & _ & _ & _
                         & Hqueue & _).
      rewrite Hqueue. apply schedule_all_ordered. exact Hrest.
Qed.

(** Stopping at an earlier non-zero bound and going on to a later bound
    is going to the later bound at once, when the queue left at the stop
    holds no two events due at the same time: the event that was put back
    is then popped again, and leaves the heap as it was. *)
Lemma run_loop_resume (a b : Q) (fuel : nat) :
  float_truthy a = true → a <= b →
  ∀ s s1, heap_ordered (event_queue s) → running s = true →
    run_loop normal fuel (Some a) s = Done s1 →
    tie_free (event_queue s1) →
    ∀ fuel2, ∃ fuel',
      run_loop normal fuel' (Some b) s
      = run_loop normal fuel2 (Some b) (set_running true s1).
Proof.
  intros Ha Hab. induction fuel as [|fuel IH];
    intros s s1 Hheap Hr Hrun Htie fuel2.
  - cbn [run_loop] in Hrun. destruct (event_queue s) eqn:Q.
    + injection Hrun as <-. rewrite restart_same by exact Hr. eauto.
    + rewrite Hr in Hrun. discriminate.
  - cbn [run_loop] in Hrun. destruct (event_queue s) as [|x q] eqn:Q.
    { injection Hrun as <-. rewrite restart_same by exact Hr. eauto. }
    rewrite Hr in Hrun. rewrite <- Q in Hheap.
    assert (event_queue s ≠ []) as Hq by congruence.
    destruct (run_body_pop normal (Some a) s Hq) as (e & rest & Hpop & Heqa).
    destruct (run_body_pop normal (Some b) s Hq) as (e' & rest' & Hpop' & Heqb).
    rewrite Hpop in Hpop'. injection Hpop' as <- <-.
    rewrite Heqa in Hrun.
    destruct (horizon_exceeded (Some a) e) eqn:Hex.
    + (* the event is beyond the earlier bound: it is put back *)
      injection Hrun as <-. cbn [default]. fields_in Htie.
      assert (heappop (heappush rest e) = Some (e, rest)) as Hback.
      { apply heappop_heappush_min.
        - eapply heappop_ordered; eassumption.
        - eapply tie_free_Permutation; [apply heappush_Permutation | exact Htie].
        - intros y Hy. apply (heappop_minimal _ _ _ Hheap Hpop).
          rewrite (heappop_Permutation _ _ _ Hpop). right. exact Hy. }
      assert (heappush rest e ≠ []) as Hne.
      { intros E. rewrite E in Hback. discriminate. }
      rewrite (restart_after_break a e rest s Hr).
      exists fuel2. symmetry.
      rewrite set_clock_run_loop; [|exact Hne | exact Hr].
      apply requeue_run_loop; [exact Hr | exact Hq | exact Hne|].
      rewrite Hback, Hpop. reflexivity.
    + (* the event is within the earlier bound, hence within the later *)
      pose proof (horizon_not_exceeded _ _ _ Hex eq_refl Ha) as Hin.
      assert (horizon_exceeded (Some b) e = false) as Hexb.
      { simpl. apply andb_false_iff. right. apply Qltb_ge. lra. }
      rewrite Hexb in Heqb.
      destruct (process_event normal e (set_event_queue rest s))
        as [s'|s'|exn] eqn:B; [| |discriminate].
      * assert (heap_ordered (event_queue s')) as Hheap'.
        { apply (round_ordered (Some a) s s' Hheap Hq). left. exact Heqa. }
        assert (running s' = true) as Hr'.
        { apply process_event_effect in B as (_ & _ & H & _).
          rewrite H. exact Hr. }
        destruct (IH s' s1 Hheap' Hr' Hrun Htie fuel2) as [fuel' Hres].
        exists (S fuel'). cbn [run_loop]. rewrite Q, Hr, Heqb. exact Hres.
      * unfold process_event in B. revert B. fields.
        destruct (entities s !! entity_id e); [|discriminate].
        destruct (dispatch _ _ _ _); discriminate.
Qed.

Lemma run_tidy (end_time : option Q) (fuel : nat) (s s' : Simulation) :
  tidy (event_queue s) → run normal fuel end_time s = Done s' →
  tidy (event_queue s').
Proof.
  apply (run_invariant normal (λ x, tidy (event_queue x)) end_time).
  - intros x b H. exact H.
  - intros x x' H Hq Hbody. apply (tidy_round end_time x x' H Hq). left. exact Hbody.
  - intros x x' H Hq Hbody. apply (tidy_round end_time x x' H Hq). right. exact Hbody.
Qed.

Lemma run_ordered (end_time : option Q) (fuel : nat) (s s' : Simulation) :
  heap_ordered (event_queue s) → run normal fuel end_time s = Done s' →
  heap_ordered (event_queue s').
Proof.
  apply (run_invariant normal (λ x, heap_ordered (event_queue x)) end_time).
  - intros x b H. exact H.
  - intros x x' H Hq Hbody. apply (round_ordered end_time x x' H Hq). left. exact Hbody.
  - intros x x' H Hq Hbody. apply (round_ordered end_time x x' H Hq). right. exact Hbody.
Qed.

Lemma run_resume (a b : Q) (fuel fuel2 : nat) (s s1 : Simulation) :
  float_truthy a = true → a <= b → heap_ordered (event_queue s) →
  run normal fuel (Some a) s = Done s1 → tie_free (event_queue s1) →
  ∃ fuel', run normal fuel' (Some b) s = run normal fuel2 (Some b) s1.
Proof.
  intros Ha Hab Hheap Hrun Htie. unfold run in *.
  apply (run_loop_resume a b fuel Ha Hab (set_running true s) s1 Hheap eq_refl
           Hrun Htie).
Qed.

(** An exception met before the earlier bound is met before the later. *)
Lemma run_loop_raises (a b : Q) (fuel : nat) (exn : Exn) :
  float_truthy a = true → a <= b →
  ∀ s, run_loop normal fuel (Some a) s = Raised exn →
       run_loop normal fuel (Some b) s = Raised exn.
Proof.
  intros Ha Hab. induction fuel as [|fuel IH]; intros s Hrun;
    cbn [run_loop] in *; destruct (event_queue s) as [|x q] eqn:Q;
    try discriminate; destruct (running s); try discriminate.
  assert (event_queue s ≠ []) as Hq by congruence.
  destruct (run_body_pop normal (Some a) s Hq) as (e & rest & Hpop & Heqa).
  destruct (run_body_pop normal (Some b) s Hq) as (e' & rest' & Hpop' & Heqb).
  rewrite Hpop in Hpop'. injection Hpop' as <- <-.
  rewrite Heqa in Hrun. rewrite Heqb.
  destruct (horizon_exceeded (Some a) e) eqn:Hex; [discriminate|].
  pose proof (horizon_not_exceeded _ _ _ Hex eq_refl Ha) as Hin.
  assert (horizon_exceeded (Some b) e = false) as ->.
  { simpl. apply andb_false_iff. right. apply Qltb_ge. lra. }
  destruct (process_event normal e (set_event_queue rest s)); try discriminate.
  - apply IH. exact Hrun.
  - exact Hrun.
Qed.

(** A [run] with a non-zero bound ends, and more fuel changes nothing. *)
Lemma run_ends (h : Q) (s : Simulation) :
  float_truthy h = true →
  ∃ fuel o, o ≠ OutOfFuel ∧
            ∀ fuel', (fuel ≤ fuel')%nat → run normal fuel' (Some h) s = o.
Proof.
  intros Hh. set (fuel := S (queue_weight h (event_queue s))).
  assert (run normal fuel (Some h) s ≠ OutOfFuel) as Hne.
  { unfold run. apply run_loop_ends; [exact Hh|]. subst fuel. fields. lia. }
  exists fuel, (run normal fuel (Some h) s). split; [exact Hne|].
  intros fuel' Hle. unfold run in *. apply run_loop_more_fuel; assumption.
Qed.

Lemma run_stable (end_time : option Q) (fuel fuel' : nat) (s : Simulation)
    (o : outcome Simulation) :
  run normal fuel end_time s = o → o ≠ OutOfFuel → (fuel ≤ fuel')%nat →
  run normal fuel' end_time s = o.
Proof.
  intros <- Hne Hle. unfold run in *. apply run_loop_more_fuel; assumption.
Qed.

(** The state in which a [run] stops does not depend on the fuel. *)
Lemma run_Done_at (fuel0 fuel : nat) (end_time : option Q) (s s1 : Simulation) :
  run normal fuel end_time s = Done s1 →
  run normal fuel0 end_time s ≠ OutOfFuel →
  run normal fuel0 end_time s = Done s1.
Proof.
  intros Hrun Hne. destruct (Nat.le_ge_cases fuel fuel0) as [Hle|Hle].
  - apply (run_stable _ fuel); [exact Hrun | discriminate | exact Hle].
  - rewrite <- Hrun. symmetry.
    apply (run_stable _ fuel0); [reflexivity | exact Hne | exact Hle].
Qed.

Lemma tidy_tie_free (q : list Event) : tidy q → tie_free q.
Proof.
  intros [->|[[x ->]|(m & c & -> & _ & Hlt)]]; simpl; auto.
  split; [|auto]. constructor; [|constructor].
  intros E. rewrite E in Hlt. exact (Qlt_irrefl _ Hlt).
Qed.

Lemma tidy_ordered (q : list Event) : tidy q → heap_ordered q.
Proof.
  intros [->|[[x ->]|(m & c & -> & _ & Hlt)]] i ch p Hi Hc Hp.
  - discriminate.
  - destruct i as [|[|i]]; [lia | discriminate | discriminate].
  - destruct i as [|[|i]]; [lia | | discriminate].
    simpl in Hc, Hp. injection Hc as <-. injection Hp as <-.
    apply Qlt_le_weak. exact Hlt.
Qed.

(** With a single vessel no stop leaves two events due at the same time. *)
Lemma tidy_stops_without_ties (bounds : list Q) :
  ∀ s, tidy (event_queue s) → stops_without_ties normal bounds s.
Proof.
  induction bounds as [|b bounds IH]; intros s Ht; [exact I|].
  intros fuel s1 Hrun. pose proof (run_tidy _ _ _ _ Ht Hrun) as Ht1.
  split; [apply tidy_tie_free; exact Ht1 | apply IH; exact Ht1].
Qed.

(** C6, amended.  Take an engine whose queue is a heap, any generator, and
    bounds that are not zero and not beyond a non-zero [T], such that no
    call of [run] with one of the bounds stops with two events of the
    queue due at the same time.  Then calling [run] with each bound in
    turn and then with [T] ends, a single [run(T)] ends as well, and both
    yield the same outcome: the same final state (clock, queue,
    statistics, vessels, draws and output) or the same exception.  The
    number of vessels is not restricted, and events may be due at the same
    time between the stops. *)
Theorem resumed_run_equals_single_run (s : Simulation) (bounds : list Q) (T : Q) :
  heap_ordered (event_queue s) →
  Forall (λ b, float_truthy b = true ∧ b <= T) bounds →
  float_truthy T = true →
  stops_without_ties normal bounds s →
  ∃ fuel o, o ≠ OutOfFuel ∧
    ∀ fuel', (fuel ≤ fuel')%nat →
      run_each normal fuel' (bounds ++ [T]) s = o ∧
      run normal fuel' (Some T) s = o.
Proof.
  intros Hheap Hb HT Hstops. revert s Hheap Hstops.
  induction bounds as [|b bounds IH]; intros s Hheap Hstops.
  - destruct (run_ends T s HT) as (fuel & o & Hne & Hrun).
    exists fuel, o. split; [exact Hne|]. intros fuel' Hle.
    split; [|apply Hrun; exact Hle]. cbn [app run_each].
    rewrite (Hrun fuel' Hle). destruct o; reflexivity.
  - apply Forall_cons in Hb as [[Htruthy Hle] Hb].
    destruct (run_ends b s Htruthy) as (fuel_b & ob & Hneb & Hrunb).
    destruct ob as [s1|exn|]; [| |congruence].
    + assert (run normal fuel_b (Some b) s = Done s1) as Hrun_b
        by (apply Hrunb; lia).
      destruct (Hstops fuel_b s1 Hrun_b) as [Htie1 Hstops1].
      destruct (IH Hb s1) as (fuel1 & o1 & Hne1 & Hrun1).
      { eapply run_ordered; [exact Hheap | exact Hrun_b]. }
      { exact Hstops1. }
      destruct (run_resume b T fuel_b fuel1 s s1 Htruthy Hle Hheap Hrun_b Htie1)
        as [fuel2 Hres].
      destruct (Hrun1 fuel1 ltac:(lia)) as [_ HT1]. rewrite HT1 in Hres.
      exists (Nat.max fuel_b (Nat.max fuel1 fuel2)), o1. split; [exact Hne1|].
      intros fuel' Hle'. split.
      * cbn [app run_each]. rewrite (Hrunb fuel') by lia.
        apply Hrun1. lia.
      * apply (run_stable _ fuel2); [exact Hres | exact Hne1 | lia].
    + exists fuel_b, (Raised exn). split; [discriminate|].
      intros fuel' Hle'. split.
      * cbn [app run_each]. rewrite (Hrunb fuel' Hle'). reflexivity.
      * unfold run. apply (run_loop_raises b T); [exact Htruthy | exact Hle|].
        apply (Hrunb fuel' Hle').
Qed.

End Resume.

Lemma one_vessel_tidy (id : string) (cfg : TSHDConfig) :
  tidy (event_queue (one_vessel id cfg)).
Proof. right. left. eexists. reflexivity. Qed.

(** Two vessels with different dredging times: both start at time 0, and
    the calls of [run] with the bounds 1 and 3 stop with two events that
    are due at different times. *)
Lemma two_different_vessels_ordered :
  heap_ordered (event_queue two_different_vessels).
Proof.
  intros i c p Hi Hc Hp. destruct i as [|[|i]]; [lia | | discriminate].
  vm_compute in Hc, Hp. injection Hc as <-. injection Hp as <-.
  vm_compute. discriminate.
Qed.

Lemma two_different_vessels_stops :
  stops_without_ties exact_mean [1; 3] two_different_vessels.
Proof.
  intros fuel s1 H1.
  apply (run_Done_at exact_mean 20) in H1; [|vm_compute; discriminate].
  vm_compute in H1. injection H1 as <-. split.
  { cbn [event_queue tie_free].
    repeat split; repeat constructor; cbn [time]; intros E; vm_compute in E;
      discriminate. }
  intros fuel2 s2 H2.
  apply (run_Done_at exact_mean 20) in H2; [|vm_compute; discriminate].
  vm_compute in H2. injection H2 as <-. split; [|exact I].
  cbn [event_queue tie_free].
  repeat split; repeat constructor; cbn [time]; intros E; vm_compute in E;
    discriminate.
Qed.

Lemma resumed_run_equals_single_run_witness :
  ∃ fuel o, o ≠ OutOfFuel ∧
    ∀ fuel', (fuel ≤ fuel')%nat →
      run_each exact_mean fuel' [1; 3; 5] two_different_vessels = o ∧
      run exact_mean fuel' (Some 5) two_different_vessels = o.
Proof.
  apply (resumed_run_equals_single_run exact_mean two_different_vessels [1; 3] 5).
  - apply two_different_vessels_ordered.
  - repeat constructor; discriminate.
  - reflexivity.
  - apply two_different_vessels_stops.
Defined.
(** * Further properties *)

(** ** The event queue *)

Section QueueProperties.
Import Heapq.

(** X1. [schedule_event] adds exactly the given event to the queue: the new
    queue holds the old events and the new one, each as often as before; it
    is a heap when the old one was; nothing else of the engine changes. *)
Theorem schedule_event_adds_one (s : Simulation) (event : Event) :
  event_queue (schedule_event event s) ≡ₚ event :: event_queue s ∧
  (heap_ordered (event_queue s) →
   heap_ordered (event_queue (schedule_event event s))) ∧
  clock (schedule_event event s) = clock s ∧
  entities (schedule_event event s) = entities s ∧
  statistics (schedule_event event s) = statistics s ∧
  running (schedule_event event s) = running s ∧
  objects (schedule_event event s) = objects s.
Proof.
  fields. split; [apply heappush_Permutation|].
  split; [apply heappush_ordered|]. repeat split.
Qed.

(** X2. On a queue that is a heap, [get_next_event] returns an event that
    is not later than any queued event and leaves a heap with exactly the
    other events; on an empty queue it returns [None] and changes
    nothing. *)
Theorem get_next_event_is_earliest (s : Simulation) :
  heap_ordered (event_queue s) →
  match get_next_event s with
  | (Some e, s') =>
      event_queue s ≡ₚ e :: event_queue s' ∧
      (∀ x, x ∈ event_queue s → time e <= time x) ∧
      heap_ordered (event_queue s') ∧
      s' = set_event_queue (event_queue s') s
  | (None, s') => event_queue s = [] ∧ s' = s
  end.
Proof.
  intros Hheap. unfold get_next_event.
  destruct (event_queue s) as [|x q] eqn:Q; [split; reflexivity|].
  destruct (heappop_nonempty (x :: q)) as (e & rest & Hpop); [discriminate|].
  rewrite Hpop. fields. split; [apply heappop_Permutation; exact Hpop|].
  split; [apply heappop_minimal with (rest := rest); assumption|].
  split; [eapply heappop_ordered; eassumption | reflexivity].
Qed.

(** X3. An event scheduled strictly before every queued event is the next
    one that [get_next_event] returns, and the queue is then back to the
    events it held. *)
Theorem earliest_scheduled_is_next (s : Simulation) (event : Event) :
  heap_ordered (event_queue s) →
  Forall (λ x, time event < time x) (event_queue s) →
  ∃ s', get_next_event (schedule_event event s) = (Some event, s') ∧
        event_queue s' ≡ₚ event_queue s ∧
        heap_ordered (event_queue s') ∧
        s' = set_event_queue (event_queue s') s.
Proof.
  intros Hheap Hlater.
  pose proof (heappush_Permutation (event_queue s) event) as Hperm.
  pose proof (heappush_ordered _ event Hheap) as Hheap'.
  unfold get_next_event, schedule_event. fields.
  destruct (heappush (event_queue s) event) as [|x q] eqn:Q.
  { apply Permutation_nil_cons in Hperm. contradiction. }
  destruct (heappop_nonempty (x :: q)) as (e & rest & Hpop); [discriminate|].
  rewrite Hpop.
  pose proof (heappop_Permutation _ _ _ Hpop) as Hpop_perm.
  pose proof (heappop_minimal _ _ _ Hheap' Hpop) as Hmin.
  assert (e = event) as ->.
  { assert (e ∈ event :: event_queue s) as He.
    { rewrite <- Hperm, Hpop_perm. left. }
    apply elem_of_cons in He as [He|He]; [exact He|].
    rewrite Forall_forall in Hlater. specialize (Hlater e He).
    assert (time e <= time event) as Hle.
    { apply Hmin. rewrite Hperm. left. }
    exfalso. apply (Qlt_irrefl (time e)). eapply Qle_lt_trans; eassumption. }
  eexists. split; [reflexivity|]. fields.
  split.
  - apply (Permutation_cons_inv (a := event)).
    rewrite <- Hpop_perm. exact Hperm.
  - split; [eapply heappop_ordered; eassumption|].
    destruct s; reflexivity.
Qed.

End QueueProperties.

Lemma late_event_heap : heap_ordered (event_queue engine_with_late_event).
Proof.
  apply (schedule_event_engine_ok (Simulation_init [] 0 []) late_event).
  - apply fresh_engine_ok.
  - vm_compute. discriminate.
Qed.

Lemma get_next_event_is_earliest_witness :
  heap_ordered (event_queue engine_with_late_event) ∧
  match get_next_event engine_with_late_event with
  | (Some e, s') =>
      event_queue engine_with_late_event ≡ₚ e :: event_queue s' ∧
      (∀ x, x ∈ event_queue engine_with_late_event → time e <= time x) ∧
      heap_ordered (event_queue s') ∧
      s' = set_event_queue (event_queue s') engine_with_late_event
  | (None, s') => event_queue engine_with_late_event = [] ∧ s' = engine_with_late_event
  end.
Proof.
  split; [exact late_event_heap|].
  exact (get_next_event_is_earliest engine_with_late_event late_event_heap).
Defined.

Lemma earliest_scheduled_is_next_witness :
  ∃ s', get_next_event (schedule_event lone_event engine_with_late_event)
        = (Some lone_event, s') ∧
        event_queue s' ≡ₚ event_queue engine_with_late_event ∧
        heap_ordered (event_queue s') ∧
        s' = set_event_queue (event_queue s') engine_with_late_event.
Proof.
  apply (earliest_scheduled_is_next engine_with_late_event lone_event).
  - exact late_event_heap.
  - repeat constructor.
Defined.

(** ** The loop of [run]: where it stops and what it leaves alone *)

Section RunProperties.
Variable normal : Q → Q → nat → Q.

Lemma heap_round (end_time : option Q) (s s' : Simulation) :
  heap_ordered (event_queue s) → event_queue s ≠ [] →
  run_body normal end_time s = Continue s' →
  heap_ordered (event_queue s') ∧ running s' = running s ∧
  (∀ t, end_time = Some t → float_truthy t = true → clock s' <= t).
Proof.
  intros Hheap Hq Hbody.
  destruct (run_body_pop normal end_time s Hq) as (e & rest & Hpop & Heq).
  rewrite Heq in Hbody.
  pose proof (heappop_ordered _ _ _ Hheap Hpop) as Hrest.
  destruct (horizon_exceeded end_time e) eqn:Hex; [discriminate|].
  apply process_event_effect in Hbody
    as (Hclock & _ & Hrun & _ & _ & _ & Hcases).
  split; [|split; [exact Hrun|]].
  - destruct Hcases as [(_ & Hqueue & _)|Hdisp].
    + rewrite Hqueue. exact Hrest.
    + destruct Hdisp as (ref & self & self' & sim' & l & _ & _ & _ & _ & _ & _ & _ & _
                         & Hqueue & _).
      rewrite Hqueue. apply schedule_all_ordered. exact Hrest.
  - intros t -> Ht. rewrite Hclock. eapply horizon_not_exceeded; eauto.
Qed.

Lemma heap_break (end_time : option Q) (s s' : Simulation) :
  heap_ordered (event_queue s) → event_queue s ≠ [] →
  run_body normal end_time s = Break s' →
  ∃ t, end_time = Some t ∧ float_truthy t = true ∧ clock s' = t ∧
       heap_ordered (event_queue s') ∧
       Forall (λ e, t < time e) (event_queue s').
Proof.
  intros Hheap Hq Hbody.
  destruct (run_body_pop normal end_time s Hq) as (e & rest & Hpop & Heq).
  rewrite Heq in Hbody.
  pose proof (heappop_Permutation _ _ _ Hpop) as Hperm.
  pose proof (heappop_ordered _ _ _ Hheap Hpop) as Hrest.
  pose proof (heappop_minimal _ _ _ Hheap Hpop) as Hmin.
  destruct (horizon_exceeded end_time e) eqn:Hex.
  - injection Hbody as <-.
    destruct (horizon_is_exceeded _ _ Hex) as (t & -> & Htruthy & Hlt).
    exists t. fields. repeat split; try assumption.
    + apply heappush_ordered. exact Hrest.
    + rewrite heappush_Permutation, <- Hperm. apply Forall_forall.
      intros x Hx. eapply Qlt_le_trans; [exact Hlt|]. apply Hmin. exact Hx.
  - unfold process_event in Hbody. revert Hbody. fields.
    destruct (entities s !! entity_id e); [|discriminate].
    destruct (dispatch _ _ _ _); discriminate.
Qed.

Lemma run_loop_stops (end_time : option Q) (fuel : nat) :
  ∀ s s', heap_ordered (event_queue s) → running s = true →
  run_loop normal fuel end_time s = Done s' →
  running s' = false ∧ heap_ordered (event_queue s') ∧
  (event_queue s' = [] ∨
   ∃ t, end_time = Some t ∧ float_truthy t = true ∧ clock s' = t ∧
        Forall (λ e, t < time e) (event_queue s')) ∧
  (∀ t, end_time = Some t → float_truthy t = true → clock s <= t →
        clock s' <= t).
Proof.
  induction fuel as [|fuel IH]; intros s s' Hheap Hrun; cbn [run_loop]; rewrite Hrun.
  - destruct (event_queue s) eqn:Q; [|discriminate]. intros [= <-]. fields.
    rewrite Q. repeat split; auto.
  - destruct (event_queue s) as [|x q] eqn:Q.
    { intros [= <-]. fields. rewrite Q. repeat split; auto. }
    assert (event_queue s ≠ []) as Hq by (rewrite Q; discriminate).
    rewrite <- Q in *.
    destruct (run_body normal end_time s) as [s1|s1|] eqn:B; [| |discriminate].
    + intros Hdone.
      destruct (heap_round end_time s s1 Hheap Hq B) as (Hheap1 & Hrun1 & Hclk).
      rewrite Hrun in Hrun1.
      destruct (IH s1 s' Hheap1 Hrun1 Hdone) as (R & H & C & K).
      repeat split; try assumption.
      intros t Ht Htruthy _. apply (K t Ht Htruthy). apply (Hclk t Ht Htruthy).
    + intros [= <-].
      destruct (heap_break end_time s s1 Hheap Hq B) as (t & -> & Ht & Hc & Hh & Hall).
      fields. repeat split; try assumption.
      * right. exists t. repeat split; assumption.
      * intros t' [= <-] _ _. rewrite Hc. apply Qle_refl.
Qed.

(** X4. When [run] returns, the engine is stopped and its queue is still a
    heap; either the queue is empty, or the bound is a non-zero number, the
    clock is exactly the bound and every queued event is later than the
    bound.  A clock that was not past a non-zero bound is not past it
    afterwards. *)
Theorem run_stops_at_the_bound (fuel : nat) (end_time : option Q)
    (s s' : Simulation) :
  heap_ordered (event_queue s) →
  run normal fuel end_time s = Done s' →
  running s' = false ∧ heap_ordered (event_queue s') ∧
  (event_queue s' = [] ∨
   ∃ t, end_time = Some t ∧ float_truthy t = true ∧ clock s' = t ∧
        Forall (λ e, t < time e) (event_queue s')) ∧
  (∀ t, end_time = Some t → float_truthy t = true → clock s <= t →
        clock s' <= t).
Proof.
  intros Hheap Hrun.
  apply (run_loop_stops end_time fuel (set_running true s) s'); auto.
Qed.

End RunProperties.

Lemma run_stops_at_the_bound_witness :
  ∃ s', run exact_mean 5 (Some 5) engine_with_late_event = Done s' ∧
        running s' = false ∧ clock s' = 5 ∧
        Forall (λ e, 5 < time e) (event_queue s').
Proof.
  edestruct (run_stops_at_the_bound exact_mean 5 (Some 5) engine_with_late_event)
    as (R & _ & [Q|(t & Ht & _ & C & A)] & _);
    [exact late_event_heap | vm_compute; reflexivity | |].
  - vm_compute in Q. discriminate.
  - injection Ht as <-.
    eexists. split; [vm_compute; reflexivity|]. repeat split; assumption.
Defined.
(** ** What a handler does to the vessel *)

Section HandlerProperties.
Variable normal : Q → Q → nat → Q.

Lemma handler_log (self : TSHD) (event : Event) (sim : Simulation)
    (self' : TSHD) (sim' : Simulation) :
  TSHD_handle_event normal self event sim = Ok (self', sim') →
  (∃ entries, event_log self' = event_log self ++ entries ∧
              (1 ≤ messages entries)%nat ∧
              (segment_manager sim = None → messages entries = 1%nat)) ∧
  (∃ entries, state_history self' = state_history self ++ entries ∧
              Forall (λ p, p.1 = clock sim) entries).
Proof.
  intros H. unfold_handlers H.
  destruct (event_type event); split_ok H; injection H as <- <-; fields;
    rewrite <- ?app_assoc;
    (split; [eexists; split; [reflexivity|]; cbn; split; [lia|]; congruence|]);
    first [ eexists; split; [reflexivity|]; repeat constructor
          | exists []; split; [symmetry; apply app_nil_r | constructor] ].
Qed.

Lemma handler_counts (self : TSHD) (event : Event) (sim : Simulation)
    (self' : TSHD) (sim' : Simulation) :
  TSHD_handle_event normal self event sim = Ok (self', sim') →
  (cycle_count self' - cycle_count self =
   dredging_cycles (statistics sim') - dredging_cycles (statistics sim))%Z ∧
  (rng_draws sim ≤ rng_draws sim' ≤ S (rng_draws sim))%nat.
Proof.
  intros H. unfold_handlers H.
  destruct (event_type event); split_ok H; injection H as <- <-; fields;
    split; lia.
Qed.

End HandlerProperties.
(** ** What a run leaves alone, and what it counts *)

Lemma sum_list_with_insert {A : Type} (f : A → nat) (l : list A) (i : nat)
    (x y : A) :
  l !! i = Some x →
  (sum_list_with f (<[i := y]> l) + f x = sum_list_with f l + f y)%nat.
Proof.
  revert i. induction l as [|a l IH]; intros [|i] H; simpl in *; try discriminate.
  - injection H as ->. lia.
  - specialize (IH i H). lia.
Qed.

Lemma cycles_insert (l : list TSHD) (i : nat) (x y : TSHD) :
  l !! i = Some x →
  (foldr Z.add 0 (map cycle_count (<[i := y]> l)) =
   foldr Z.add 0 (map cycle_count l) - cycle_count x + cycle_count y)%Z.
Proof.
  revert i. induction l as [|a l IH]; intros [|i] H; simpl in *; try discriminate.
  - injection H as ->. lia.
  - specialize (IH i H). lia.
Qed.

Section Frame.
Variable normal : Q → Q → nat → Q.

Lemma break_effect (end_time : option Q) (s s' : Simulation) :
  event_queue s ≠ [] → run_body normal end_time s = Break s' →
  ∃ t q, s' = set_clock t (set_event_queue q s).
Proof.
  intros Hq Hbody.
  destruct (run_body_pop normal end_time s Hq) as (e & rest & Hpop & Heq).
  rewrite Heq in Hbody.
  destruct (horizon_exceeded end_time e).
  - injection Hbody as <-. eexists. eexists. reflexivity.
  - unfold process_event in Hbody. revert Hbody. fields.
    destruct (entities s !! entity_id e); [|discriminate].
    destruct (dispatch _ _ _ _); discriminate.
Qed.

Lemma continue_effect (end_time : option Q) (s s' : Simulation) :
  event_queue s ≠ [] → run_body normal end_time s = Continue s' →
  ∃ e rest, Heapq.heappop (event_queue s) = Some (e, rest) ∧
            horizon_exceeded end_time e = false ∧
            process_event normal e (set_event_queue rest s) = Continue s'.
Proof.
  intros Hq Hbody.
  destruct (run_body_pop normal end_time s Hq) as (e & rest & Hpop & Heq).
  rewrite Heq in Hbody. exists e, rest.
  destruct (horizon_exceeded end_time e); [discriminate|]. auto.
Qed.

Lemma round_frame (end_time : option Q) (s s' : Simulation) :
  event_queue s ≠ [] →
  run_body normal end_time s = Continue s' ∨
  run_body normal end_time s = Break s' →
  entities s' = entities s ∧ length (objects s') = length (objects s) ∧
  (∀ ref v, objects s !! ref = Some v →
     ∃ v', objects s' !! ref = Some v' ∧
           tshd_entity_id v' = tshd_entity_id v ∧ config v' = config v ∧
           event_log v `prefix_of` event_log v' ∧
           state_history v `prefix_of` state_history v') ∧
  (∀ ref, unregistered s ref → objects s' !! ref = objects s !! ref) ∧
  stdout s `prefix_of` stdout s' ∧ (rng_draws s ≤ rng_draws s')%nat.
Proof.
  intros Hq [Hbody|Hbody].
  2:{ destruct (break_effect _ _ _ Hq Hbody) as (t & q & ->). fields.
      repeat split; try reflexivity; try lia.
      intros ref v Hv. exists v. repeat split; auto. }
  destruct (continue_effect _ _ _ Hq Hbody) as (e & rest & _ & _ & Hproc).
  apply process_event_effect in Hproc
    as (_ & Hent & _ & Hlen & _ & _ & Hcases).
  revert Hent Hlen Hcases. fields. intros Hent Hlen Hcases.
  split; [exact Hent|]. split; [exact Hlen|].
  destruct Hcases as [(_ & _ & Hobj & _ & Hrng & Hout)|Hdisp].
  - rewrite Hobj, Hrng, Hout. repeat split; try lia.
    + intros ref v Hv. exists v. repeat split; auto.
    + apply prefix_app_r. reflexivity.
  - destruct Hdisp as (ref & self & self' & sim' & l & Hreg & Hself & Hhandle & ->
                       & Hobj & Hid & Hcfg & Hout & _).
    pose proof (handler_log normal _ _ _ _ _ Hhandle)
      as ((entries & Hlog & _) & (hist & Hhist & _)).
    pose proof (handler_counts normal _ _ _ _ _ Hhandle) as (_ & Hrng & _).
    revert Hobj Hout Hrng. fields. intros Hobj Hout Hrng.
    rewrite Hobj, Hout. repeat split; try lia; try reflexivity.
    + intros r v Hv. destruct (decide (r = ref)) as [->|Hne].
      * exists self'. rewrite list_lookup_insert_eq by (eapply lookup_lt_Some; eauto).
        assert (v = self) as -> by congruence.
        repeat split; try assumption.
        -- rewrite Hlog. apply prefix_app_r. reflexivity.
        -- rewrite Hhist. apply prefix_app_r. reflexivity.
      * exists v. rewrite list_lookup_insert_ne by congruence.
        repeat split; auto.
    + intros r Hun. destruct (decide (r = ref)) as [->|Hne].
      * exfalso. eapply Hun. exact Hreg.
      * apply list_lookup_insert_ne. congruence.
Qed.

Lemma round_counts (end_time : option Q) (s s' : Simulation) :
  event_queue s ≠ [] →
  run_body normal end_time s = Continue s' ∨
  run_body normal end_time s = Break s' →
  (dredging_cycles (statistics s') - total_cycles s' =
   dredging_cycles (statistics s) - total_cycles s)%Z ∧
  (segment_manager s = None →
   segment_manager s' = None ∧
   (events_processed (statistics s')
    - Z.of_nat (total_messages s' + length (stdout s')) =
    events_processed (statistics s)
    - Z.of_nat (total_messages s + length (stdout s)))%Z).
Proof.
  intros Hq [Hbody|Hbody].
  2:{ destruct (break_effect _ _ _ Hq Hbody) as (t & q & ->).
      unfold total_cycles, total_messages. fields. auto. }
  destruct (continue_effect _ _ _ Hq Hbody) as (e & rest & _ & _ & Hproc).
  pose proof Hproc as Hproc'. unfold process_event in Hproc'. revert Hproc'. fields.
  intros Hproc'.
  apply process_event_effect in Hproc
    as (_ & _ & _ & _ & Hev & Hmgr & Hcases).
  revert Hev Hmgr Hcases. fields. intros Hev Hmgr Hcases.
  destruct Hcases as [(Hreg & _ & Hobj & _ & _ & Hout)|Hdisp].
  - rewrite Hreg in Hproc'. injection Hproc' as <-.
    unfold total_cycles, total_messages. fields. split; [reflexivity|].
    intros Hm. split; [exact Hm|]. rewrite length_app. simpl. lia.
  - destruct Hdisp as (ref & self & self' & sim' & l & Hreg & Hself & Hhandle & ->
                       & Hobj & _ & _ & Hout & _).
    pose proof (handler_log normal _ _ _ _ _ Hhandle)
      as ((entries & Hlog & _ & Hone) & _).
    pose proof (handler_counts normal _ _ _ _ _ Hhandle) as (Hcyc & _).
    revert Hobj Hout Hcyc Hone Hev. unfold total_cycles, total_messages. fields.
    intros Hobj Hout Hcyc Hone Hev. rewrite Hobj, Hout.
    rewrite (cycles_insert _ _ _ self' Hself).
    split; [lia|]. intros Hm. split; [auto|].
    pose proof (sum_list_with_insert (λ v, messages (event_log v)) _ _ _ self' Hself)
      as Hsum.
    cbv beta in Hsum. rewrite Hlog in Hsum.
    assert (messages (event_log self ++ entries)
            = (messages (event_log self) + messages entries)%nat) as Happ
      by apply sum_list_with_app.
    rewrite Happ, (Hone Hm) in Hsum. lia.
Qed.

Lemma run_frame (fuel : nat) (end_time : option Q)
    (s s' : Simulation) :
  run normal fuel end_time s = Done s' →
  entities s' = entities s ∧ length (objects s') = length (objects s) ∧
  (∀ ref v, objects s !! ref = Some v →
     ∃ v', objects s' !! ref = Some v' ∧
           tshd_entity_id v' = tshd_entity_id v ∧ config v' = config v ∧
           event_log v `prefix_of` event_log v' ∧
           state_history v `prefix_of` state_history v') ∧
  (∀ ref, unregistered s ref → objects s' !! ref = objects s !! ref) ∧
  stdout s `prefix_of` stdout s' ∧ (rng_draws s ≤ rng_draws s')%nat.
Proof.
  intros Hrun.
  pose (P := λ x : Simulation,
    entities x = entities s ∧ length (objects x) = length (objects s) ∧
    (∀ ref v, objects s !! ref = Some v →
       ∃ v', objects x !! ref = Some v' ∧
             tshd_entity_id v' = tshd_entity_id v ∧ config v' = config v ∧
             event_log v `prefix_of` event_log v' ∧
             state_history v `prefix_of` state_history v') ∧
    (∀ ref, unregistered s ref → objects x !! ref = objects s !! ref) ∧
    stdout s `prefix_of` stdout x ∧ (rng_draws s ≤ rng_draws x)%nat).
  assert (∀ x x', P x → event_queue x ≠ [] →
            run_body normal end_time x = Continue x' ∨
            run_body normal end_time x = Break x' → P x') as Hround.
  { intros x x' (He & Hl & Hv & Hu & Ho & Hr) Hq Hbody.
    destruct (round_frame end_time x x' Hq Hbody) as (He' & Hl' & Hv' & Hu' & Ho' & Hr').
    split; [congruence|]. split; [congruence|]. split; [|split; [|split]].
    - intros ref v H0. destruct (Hv ref v H0) as (v1 & H1 & Hid1 & Hc1 & Hlog1 & Hh1).
      destruct (Hv' ref v1 H1) as (v2 & H2 & Hid2 & Hc2 & Hlog2 & Hh2).
      exists v2. repeat split; try congruence; etrans; eauto.
    - intros ref Hun. rewrite <- (Hu ref Hun). apply Hu'.
      intros id. rewrite He. apply Hun.
    - etrans; eauto.
    - lia. }
  apply (run_invariant normal P end_time) with (fuel := fuel) (s := s).
  - intros x b H. exact H.
  - intros x x' HP Hq Hbody. eapply Hround; eauto.
  - intros x x' HP Hq Hbody. eapply Hround; eauto.
  - repeat split; auto. intros ref v Hv. exists v. repeat split; auto.
  - exact Hrun.
Qed.

(** X5. A run changes neither the registry nor the number of vessels, nor
    the id and the configuration of any vessel; the log and the state
    history of a vessel, and the console output, only grow at the end; a
    vessel registered under no id is left exactly as it was. *)
Theorem run_leaves_the_rest_alone (fuel : nat) (end_time : option Q)
    (s s' : Simulation) :
  run normal fuel end_time s = Done s' →
  entities s' = entities s ∧ length (objects s') = length (objects s) ∧
  (∀ ref v, objects s !! ref = Some v →
     ∃ v', objects s' !! ref = Some v' ∧
           tshd_entity_id v' = tshd_entity_id v ∧ config v' = config v ∧
           event_log v `prefix_of` event_log v' ∧
           state_history v `prefix_of` state_history v') ∧
  (∀ ref, unregistered s ref → objects s' !! ref = objects s !! ref) ∧
  stdout s `prefix_of` stdout s' ∧ (rng_draws s ≤ rng_draws s')%nat.
Proof. exact (run_frame fuel end_time s s'). Qed.

(** X6. The counter of dredging cycles of the engine and the cycle counts
    of the vessels move together: over a run, the counter grows by what the
    cycle counts of all the vessels grow by. *)
Theorem cycles_are_counted_twice_alike (fuel : nat) (end_time : option Q)
    (s s' : Simulation) :
  run normal fuel end_time s = Done s' →
  (dredging_cycles (statistics s') - dredging_cycles (statistics s) =
   total_cycles s' - total_cycles s)%Z.
Proof.
  intros Hrun.
  pose (P := λ x : Simulation,
    (dredging_cycles (statistics x) - total_cycles x =
     dredging_cycles (statistics s) - total_cycles s)%Z).
  assert (P s') as HP; [|unfold P in HP; lia].
  apply (run_invariant normal P end_time) with (fuel := fuel) (s := s).
  - intros x b H. exact H.
  - intros x x' HP Hq Hbody. unfold P in *.
    destruct (round_counts end_time x x' Hq (or_introl Hbody)) as (H & _). lia.
  - intros x x' HP Hq Hbody. unfold P in *.
    destruct (round_counts end_time x x' Hq (or_intror Hbody)) as (H & _). lia.
  - reflexivity.
  - exact Hrun.
Qed.

(** X7. Without a segment manager, every event that a run processes leaves
    exactly one trace: one message in the log of the vessel that handled
    it, or one warning on the console when no vessel is registered under
    its id.  The counter of processed events grows by the number of new
    messages and warnings. *)
Theorem every_processed_event_is_logged (fuel : nat) (end_time : option Q)
    (s s' : Simulation) :
  segment_manager s = None →
  run normal fuel end_time s = Done s' →
  (events_processed (statistics s') - events_processed (statistics s) =
   Z.of_nat (total_messages s' + length (stdout s'))
   - Z.of_nat (total_messages s + length (stdout s)))%Z.
Proof.
  intros Hmgr Hrun.
  pose (P := λ x : Simulation,
    segment_manager x = None ∧
    (events_processed (statistics x)
     - Z.of_nat (total_messages x + length (stdout x)) =
     events_processed (statistics s)
     - Z.of_nat (total_messages s + length (stdout s)))%Z).
  assert (P s') as (_ & HP); [|lia].
  apply (run_invariant normal P end_time) with (fuel := fuel) (s := s).
  - intros x b H. exact H.
  - intros x x' (Hm & HP) Hq Hbody.
    destruct (round_counts end_time x x' Hq (or_introl Hbody)) as (_ & H).
    destruct (H Hm) as (Hm' & Heq). split; [exact Hm'|]. lia.
  - intros x x' (Hm & HP) Hq Hbody.
    destruct (round_counts end_time x x' Hq (or_intror Hbody)) as (_ & H).
    destruct (H Hm) as (Hm' & Heq). split; [exact Hm'|]. lia.
  - split; [exact Hmgr | reflexivity].
  - exact Hrun.
Qed.

End Frame.

Lemma run_leaves_the_rest_alone_witness :
  ∃ s', run exact_mean 20 (Some (35 # 10)) (one_vessel "TSHD-1" TSHDConfig_default)
        = Done s' ∧
        entities s' = entities (one_vessel "TSHD-1" TSHDConfig_default) ∧
        length (objects s') = length (objects (one_vessel "TSHD-1" TSHDConfig_default)).
Proof.
  edestruct (run_leaves_the_rest_alone exact_mean 20 (Some (35 # 10))
               (one_vessel "TSHD-1" TSHDConfig_default)) as (He & Hl & _);
    [vm_compute; reflexivity|].
  eexists. split; [vm_compute; reflexivity|]. split; [exact He | exact Hl].
Defined.

Lemma cycles_are_counted_twice_alike_witness :
  ∃ s', run exact_mean 20 (Some (35 # 10)) (one_vessel "TSHD-1" TSHDConfig_default)
        = Done s' ∧
        (dredging_cycles (statistics s')
         - dredging_cycles (statistics (one_vessel "TSHD-1" TSHDConfig_default)) =
         total_cycles s' - total_cycles (one_vessel "TSHD-1" TSHDConfig_default))%Z.
Proof.
  eexists. split; [vm_compute; reflexivity|].
  apply (cycles_are_counted_twice_alike exact_mean 20 (Some (35 # 10))).
  vm_compute. reflexivity.
Defined.

Lemma every_processed_event_is_logged_witness :
  ∃ s', run exact_mean 20 (Some (35 # 10)) (one_vessel "TSHD-1" TSHDConfig_default)
        = Done s' ∧
        (events_processed (statistics s')
         - events_processed (statistics (one_vessel "TSHD-1" TSHDConfig_default)) =
         Z.of_nat (total_messages s' + length (stdout s'))
         - Z.of_nat (total_messages (one_vessel "TSHD-1" TSHDConfig_default)
                     + length (stdout (one_vessel "TSHD-1" TSHDConfig_default))))%Z.
Proof.
  eexists. split; [vm_compute; reflexivity|].
  apply (every_processed_event_is_logged exact_mean 20 (Some (35 # 10))
           (one_vessel "TSHD-1" TSHDConfig_default)); [reflexivity|].
  vm_compute. reflexivity.
Defined.
(** ** The vessel as a state machine *)

Section Transitions.
Variable normal : Q → Q → nat → Q.


Lemma allocate_nothing (m : SegmentManager) (v : Q) :
  v <= 0 ∨ next_segment_with_work m = None → allocate m v = (None, m).
Proof.
  intros H. unfold allocate.
  destruct (Qle_bool v 0) eqn:E; [reflexivity|].
  destruct H as [H|H].
  - apply Qle_bool_iff in H. congruence.
  - rewrite H. reflexivity.
Qed.

(** X9. When the channel has no work left (or the vessel has no hopper
    capacity to ask for), a DREDGING_START on an engine with a segment
    manager parks the vessel: it is left idle, nothing is scheduled, no
    random number is drawn and the engine is unchanged.  The log receives
    the start message and the idle message, and the state history receives
    a dredging entry, so that the last entry of the history says dredging
    while the vessel is idle. *)
Theorem exhausted_channel_parks_the_vessel (self : TSHD) (event : Event)
    (sim : Simulation) (m : SegmentManager) :
  event_type event = DREDGING_START →
  segment_manager sim = Some m →
  hopper_capacity (config self) <= 0 ∨ next_segment_with_work m = None →
  ∃ self',
    TSHD_handle_event normal self event sim = Ok (self', sim) ∧
    state self' = IDLE ∧
    event_log self' =
      event_log self ++ [LogEvent (clock sim) Starting_dredging DREDGING;
                         LogEvent (clock sim) No_segment_work_remaining IDLE] ∧
    state_history self' = state_history self ++ [(clock sim, DREDGING)] ∧
    last (state_history self') = Some (clock sim, DREDGING) ∧
    hopper_level self' = hopper_level self ∧
    total_dredged self' = total_dredged self ∧
    cycle_count self' = cycle_count self ∧
    current_segment_index self' = current_segment_index self.
Proof.
  intros Ty Hm Hnone. unfold TSHD_handle_event, _start_dredging. rewrite Ty, Hm.
  fields. rewrite (allocate_nothing m _ Hnone).
  assert (set_segment_manager (Some m) sim = sim) as ->.
  { destruct sim. simpl in *. subst. reflexivity. }
  eexists. split; [reflexivity|]. fields. rewrite <- app_assoc.
  repeat split; try reflexivity. apply last_snoc.
Qed.

End Transitions.


Lemma exhausted_channel_parks_the_vessel_witness :
  ∃ self',
    TSHD_handle_event exact_mean (TSHD_init "TSHD-1" TSHDConfig_default)
      {| time := 0; event_type := DREDGING_START; entity_id := "TSHD-1"; data := ∅ |}
      (set_segment_manager
         (Some {| segment_length_nm := 2; remaining_m3 := [0; 0] |})
         (one_vessel "TSHD-1" TSHDConfig_default))
    = Ok (self',
          set_segment_manager
            (Some {| segment_length_nm := 2; remaining_m3 := [0; 0] |})
            (one_vessel "TSHD-1" TSHDConfig_default)) ∧
    state self' = IDLE ∧ last (state_history self') = Some (0, DREDGING).
Proof.
  destruct (exhausted_channel_parks_the_vessel exact_mean
              (TSHD_init "TSHD-1" TSHDConfig_default)
              {| time := 0; event_type := DREDGING_START; entity_id := "TSHD-1";
                 data := ∅ |}
              (set_segment_manager
                 (Some {| segment_length_nm := 2; remaining_m3 := [0; 0] |})
                 (one_vessel "TSHD-1" TSHDConfig_default))
              {| segment_length_nm := 2; remaining_m3 := [0; 0] |}
              eq_refl eq_refl (or_intror eq_refl))
    as (self' & H & Hst & _ & _ & Hlast & _).
  exists self'. split; [exact H|]. split; [exact Hst | exact Hlast].
Defined.
(** ** The segment manager *)




(** X10. The constructor of the segment manager refuses a segment length
    that is not positive with a [ValueError], and otherwise keeps the length
    and one entry for every given volume: the volume itself when it is not
    negative, zero when it is.  The manager it returns has no negative
    entry. *)
Theorem SegmentManager_init_checks (segment_volumes_m3 : list Q) (length_nm : Q) :
  (length_nm <= 0 →
   SegmentManager_init segment_volumes_m3 length_nm = Raise ValueError) ∧
  (0 < length_nm →
   ∃ m, SegmentManager_init segment_volumes_m3 length_nm = Ok m ∧
        segment_length_nm m = length_nm ∧
        length (remaining_m3 m) = length segment_volumes_m3 ∧
        Forall (λ r, 0 <= r) (remaining_m3 m) ∧
        0 <= total_remaining m ∧
        ∀ i v, segment_volumes_m3 !! i = Some v →
               ∃ r, remaining_m3 m !! i = Some r ∧
                    (0 <= v → r == v) ∧ (v <= 0 → r = 0)).
Proof.
  unfold SegmentManager_init. split.
  - intros H. apply Qle_bool_iff in H. rewrite H. reflexivity.
  - intros H. apply Qle_bool_false in H. rewrite H. eexists. split; [reflexivity|].
    simpl. split; [reflexivity|]. split; [apply length_map|].
    assert (Forall (λ r, 0 <= r) (map (pymax 0) segment_volumes_m3)) as Hnn.
    { apply Forall_map, Forall_forall. intros x _. apply pymax_floor. }
    split; [exact Hnn|]. split.
    + unfold total_remaining. simpl. rewrite pysum_Qsum. apply Qsum_nonneg. exact Hnn.
    + intros i v Hv. exists (pymax 0 v).
      split; [apply (list_lookup_fmap_Some_2 (pymax 0)); exact Hv|]. unfold pymax. destruct (Qltb 0 v) eqn:E.
      * apply Qltb_lt in E. split; [reflexivity|]. intros Hle.
        exfalso. apply (Qlt_irrefl 0). eapply Qlt_le_trans; eassumption.
      * apply Qltb_ge in E. split; [|reflexivity]. intros Hle.
        apply Qle_antisym; assumption.
Qed.



Lemma no_work_total (m : SegmentManager) :
  Forall (λ r, 0 <= r) (remaining_m3 m) →
  (next_segment_with_work m = None ↔ total_remaining m == 0).
Proof.
  intros Hnn. unfold next_segment_with_work, total_remaining.
  rewrite first_with_work_None, pysum_Qsum.
  induction (remaining_m3 m) as [|a l IH]; simpl.
  - split; [reflexivity | constructor].
  - apply Forall_cons in Hnn as (Ha & Hl). specialize (IH Hl).
    pose proof (Qsum_nonneg _ Hl) as Hs. split.
    + intros H. apply Forall_cons in H as (Ha' & Hl').
      apply IH in Hl'. rewrite Hl'.
      assert (a <= 0) by (apply Qnot_lt_le; exact Ha'). lra.
    + intros H. constructor.
      * intros Hpos. lra.
      * apply IH. lra.
Qed.

(** X12. On a manager without negative entries (as the constructor makes
    them and allocations keep them), there is no segment with work exactly
    when the total that remains is zero. *)
Theorem no_work_iff_nothing_remains (m : SegmentManager) :
  Forall (λ r, 0 <= r) (remaining_m3 m) →
  (next_segment_with_work m = None ↔ total_remaining m == 0).
Proof. exact (no_work_total m). Qed.

Lemma no_work_iff_nothing_remains_witness :
  Forall (λ r, 0 <= r) (remaining_m3 scenario_B) ∧
  (next_segment_with_work scenario_B = None ↔ total_remaining scenario_B == 0).
Proof.
  assert (Forall (λ r, 0 <= r) (remaining_m3 scenario_B)) as H.
  { repeat constructor; discriminate. }
  split; [exact H|]. exact (no_work_iff_nothing_remains scenario_B H).
Defined.








(** ** Registering a fleet *)

Lemma pydiv_zero (a b : Q) :
  (b == 0 ∧ pydiv a b = Raise ZeroDivisionError) ∨
  (¬ b == 0 ∧ pydiv a b = Ok (a / b)).
Proof.
  unfold pydiv. destruct (Qeq_bool b 0) eqn:E.
  - left. split; [apply Qeq_bool_iff; exact E | reflexivity].
  - right. split; [|reflexivity]. intros H. apply Qeq_bool_iff in H. congruence.
Qed.

Lemma register_fleet_effect (fleet : list (string * TSHDConfig)) :
  ∀ sim dredgers cycle_times,
  match register_fleet fleet sim dredgers cycle_times with
  | Raise e => e = ZeroDivisionError ∧ Exists (λ p, zero_speed p.2) fleet
  | Ok (sim', dredgers', cycle_times') =>
      Forall (λ p, ¬ zero_speed p.2) fleet ∧
      objects sim' = objects sim ++ map (λ p, TSHD_init p.1 p.2) fleet ∧
      dredgers' = dredgers ++ seq (length (objects sim)) (length fleet) ∧
      cycle_times' = cycle_times ++ map (λ p, mean_cycle p.2) fleet ∧
      event_queue sim' ≡ₚ event_queue sim ++ map (λ p, start_event p.1) fleet ∧
      (heap_ordered (event_queue sim) → heap_ordered (event_queue sim')) ∧
      (∀ id, id ∉ map fst fleet → entities sim' !! id = entities sim !! id) ∧
      (∀ i p, fleet !! i = Some p →
         (∀ j q, (i < j)%nat → fleet !! j = Some q → q.1 ≠ p.1) →
         entities sim' !! p.1 = Some (length (objects sim) + i)%nat) ∧
      clock sim' = clock sim ∧ statistics sim' = statistics sim ∧
      running sim' = running sim ∧ segment_manager sim' = segment_manager sim ∧
      rng_draws sim' = rng_draws sim ∧ stdout sim' = stdout sim
  end.
Proof.
  induction fleet as [|[label cfg] fleet IH]; intros sim dredgers cts;
    cbn [register_fleet].
  - simpl. rewrite !app_nil_r. repeat split; auto.
    intros i p H. discriminate H.
  - destruct (pydiv_zero (distance_to_da cfg) (speed_to_da cfg)) as [[Hz ->]|[Hnz ->]].
    { cbn. split; [reflexivity|]. left. left. exact Hz. }
    cbn [mbind result_bind].
    destruct (pydiv_zero (distance_back cfg) (speed_back cfg)) as [[Hz ->]|[Hnz' ->]].
    { cbn. split; [reflexivity|]. left. right. exact Hz. }
    cbn [mbind result_bind].
    match goal with
    | |- context [register_fleet fleet ?s1 ?d1 ?c1] =>
        specialize (IH s1 d1 c1);
        destruct (register_fleet fleet s1 d1 c1) as [[[sim' ds'] cts']|exn]
    end.
    2:{ destruct IH as (-> & IH). split; [reflexivity|]. right. exact IH. }
    revert IH. unfold start_work. fields. cbn [TSHD_init tshd_entity_id].
    intros (Hnz0 & Hobj & Hds & Hcts & Hq & Hheap & Hother & Hlast & Hrest).
    split; [constructor; [intros [H|H]; auto | exact Hnz0]|].
    split; [rewrite Hobj, <- app_assoc; reflexivity|].
    split; [rewrite Hds, <- app_assoc, length_app; simpl;
            rewrite Nat.add_1_r; reflexivity|].
    split; [rewrite Hcts, <- app_assoc; reflexivity|].
    split.
    { rewrite Hq, heappush_Permutation. simpl.
      change (start_event label :: event_queue sim
                ++ map (λ p, start_event p.1) fleet)
        with ((start_event label :: event_queue sim)
                ++ map (λ p, start_event p.1) fleet).
      rewrite <- Permutation_middle. reflexivity. }
    split; [intros H; apply Hheap, heappush_ordered; exact H|].
    split.
    { intros id Hid. simpl in Hid. apply not_elem_of_cons in Hid as (Hne & Hid).
      rewrite (Hother id Hid). apply lookup_insert_ne. congruence. }
    split; [|exact Hrest].
    intros [|i] p Hp Hlater; simpl in Hp.
    + injection Hp as <-. simpl. rewrite Hother.
      * rewrite lookup_insert_eq. f_equal. lia.
      * intros Hin. apply list_elem_of_fmap in Hin as (q & Hq1 & Hq2).
        apply list_elem_of_lookup in Hq2 as (j & Hj).
        apply (Hlater (S j) q); [lia | exact Hj | symmetry; exact Hq1].
    + rewrite (Hlast i p Hp).
      * rewrite length_app. simpl. f_equal. lia.
      * intros j q Hij Hj. apply (Hlater (S j) q); [lia | exact Hj].
Qed.

Section Fleet.
Variable normal : Q → Q → nat → Q.

(** X15. The driver registers the vessels in the order of the fleet: on
    an engine with [n] vessels the [i]-th vessel of the fleet becomes the
    vessel [n + i], in its initial state, and is the [i]-th of the vessels
    returned; one DREDGING_START event at time 0 is queued for each; the
    mean cycles are collected in order.  An id of the fleet is registered
    for the LAST vessel that carries it, so that of two vessels with the
    same label only the later one can be reached by events.  Nothing else
    of the engine changes. *)
Theorem register_fleet_in_order (fleet : list (string * TSHDConfig))
    (sim : Simulation) (dredgers : list nat) (cycle_times : list Q)
    (sim' : Simulation) (dredgers' : list nat) (cycle_times' : list Q) :
  register_fleet fleet sim dredgers cycle_times = Ok (sim', dredgers', cycle_times') →
  objects sim' = objects sim ++ map (λ p, TSHD_init p.1 p.2) fleet ∧
  dredgers' = dredgers ++ seq (length (objects sim)) (length fleet) ∧
  cycle_times' = cycle_times ++ map (λ p, mean_cycle p.2) fleet ∧
  event_queue sim' ≡ₚ event_queue sim ++ map (λ p, start_event p.1) fleet ∧
  (heap_ordered (event_queue sim) → heap_ordered (event_queue sim')) ∧
  (∀ id, id ∉ map fst fleet → entities sim' !! id = entities sim !! id) ∧
  (∀ i p, fleet !! i = Some p →
     (∀ j q, (i < j)%nat → fleet !! j = Some q → q.1 ≠ p.1) →
     entities sim' !! p.1 = Some (length (objects sim) + i)%nat) ∧
  clock sim' = clock sim ∧ statistics sim' = statistics sim ∧
  running sim' = running sim ∧ segment_manager sim' = segment_manager sim ∧
  rng_draws sim' = rng_draws sim ∧ stdout sim' = stdout sim.
Proof.
  intros H. pose proof (register_fleet_effect fleet sim dredgers cycle_times) as E.
  rewrite H in E. destruct E as (_ & E). exact E.
Qed.

(** X16. The driver fails with a [ZeroDivisionError] exactly when some
    vessel of the fleet has a speed of zero, to the dumping area or back:
    the mean cycle is computed while the fleet is registered, so the
    failure comes before any event is processed, whatever the target; no
    other exception can come from the registration. *)
Theorem zero_speed_fails_before_running (fleet : list (string * TSHDConfig))
    (target_volume : Q) (draws : nat) :
  (Exists (λ p, zero_speed p.2) fleet →
   ∀ fuel, run_simulation_streamlit normal fuel fleet target_volume draws
           = Raised ZeroDivisionError) ∧
  (Forall (λ p, ¬ zero_speed p.2) fleet →
   ∃ r, register_fleet fleet (Simulation_init [] (S draws) []) [] [] = Ok r) ∧
  (∀ sim dredgers cycle_times e,
     register_fleet fleet sim dredgers cycle_times = Raise e →
     e = ZeroDivisionError ∧ Exists (λ p, zero_speed p.2) fleet).
Proof.
  split; [|split].
  - intros Hex fuel. unfold run_simulation_streamlit.
    pose proof (register_fleet_effect fleet (Simulation_init [] (S draws) []) [] [])
      as E.
    destruct (register_fleet fleet _ [] []) as [[[sim' ds'] cts']|exn].
    + destruct E as (Hall & _). exfalso.
      apply Exists_exists in Hex as (p & Hp & Hz).
      rewrite Forall_forall in Hall. exact (Hall p Hp Hz).
    + destruct E as (-> & _). reflexivity.
  - intros Hall.
    pose proof (register_fleet_effect fleet (Simulation_init [] (S draws) []) [] [])
      as E.
    destruct (register_fleet fleet _ [] []) as [r|exn]; [eexists; reflexivity|].
    destruct E as (_ & Hex). exfalso.
    apply Exists_exists in Hex as (p & Hp & Hz).
    rewrite Forall_forall in Hall. exact (Hall p Hp Hz).
  - intros sim dredgers cts e H.
    pose proof (register_fleet_effect fleet sim dredgers cts) as E.
    rewrite H in E. exact E.
Qed.

End Fleet.

Lemma last_occurrence (id : string) (l : list (string * TSHDConfig)) :
  id ∈ map fst l →
  ∃ k p, l !! k = Some p ∧ p.1 = id ∧
         ∀ j q, (k < j)%nat → l !! j = Some q → q.1 ≠ id.
Proof.
  induction l as [|a l IH]; intros Hin; [inversion Hin|].
  destruct (decide (id ∈ map fst l)) as [Hl|Hl].
  - destruct (IH Hl) as (k & p & Hk & Hp & Hlater).
    exists (S k), p. split; [exact Hk|]. split; [exact Hp|].
    intros [|j] q Hj Hq; [lia|]. apply (Hlater j q); [lia | exact Hq].
  - simpl in Hin. apply elem_of_cons in Hin as [Hin|Hin]; [|contradiction].
    exists 0%nat, a. split; [reflexivity|]. split; [symmetry; exact Hin|].
    intros [|j] q Hj Hq; [lia|]. simpl in Hq. intros Heq. apply Hl.
    apply list_elem_of_fmap. exists q. split; [symmetry; exact Heq|].
    eapply list_elem_of_lookup_2. exact Hq.
Qed.

Section Shadow.
Variable normal : Q → Q → nat → Q.

Lemma campaign_frame (fuel rounds : nat) :
  ∀ sim dredgers target step h sim',
    campaign_loop normal fuel rounds sim dredgers target step h = Done sim' →
    entities sim' = entities sim ∧
    ∀ ref, unregistered sim ref → objects sim' !! ref = objects sim !! ref.
Proof.
  induction rounds as [|rounds IH]; intros sim dredgers target step h sim';
    cbn [campaign_loop]; [discriminate|].
  destruct (run normal fuel (Some h) sim) as [sim1| |] eqn:R; try discriminate.
  destruct (run_frame normal _ _ _ _ R) as (He & _ & _ & Hu & _).
  destruct (Qle_bool target (total_material sim1 dredgers)
            || Qle_bool max_simulation_time (clock sim1)).
  - intros [= <-]. split; [exact He | exact Hu].
  - intros Hc. destruct (IH _ _ _ _ _ _ Hc) as (He' & Hu').
    split; [congruence|]. intros ref Hun. rewrite <- (Hu ref Hun). apply Hu'.
    intros id. rewrite He. apply Hun.
Qed.

(** X17. Of two vessels of the fleet with the same label, the earlier one
    never works: it is among the vessels that the driver returns, but when
    the driver returns it is still as it was created, idle, with an empty
    log and nothing dredged.  The events started for it are handled by the
    later vessel, which is registered under the shared id. *)
Theorem shadowed_vessel_never_works (fuel : nat)
    (fleet : list (string * TSHDConfig)) (target_volume : Q) (draws : nat)
    (sim : Simulation) (dredgers : list nat) (i j : nat)
    (p q : string * TSHDConfig) :
  run_simulation_streamlit normal fuel fleet target_volume draws
  = Done (sim, dredgers) →
  fleet !! i = Some p → fleet !! j = Some q → (i < j)%nat → q.1 = p.1 →
  dredgers !! i = Some i ∧ objects sim !! i = Some (TSHD_init p.1 p.2) ∧
  entities sim !! p.1 ≠ Some i.
Proof.
  unfold run_simulation_streamlit. intros Hrun Hi Hj Hij Hlabel.
  pose proof (register_fleet_effect fleet (Simulation_init [] (S draws) []) [] [])
    as E.
  destruct (register_fleet fleet _ [] []) as [[[sim0 ds] cts]|exn]; [|discriminate].
  destruct E as (_ & Hobj & Hds & _ & _ & _ & Hother & Hlast & _).
  simpl in Hobj, Hds, Hother, Hlast.
  destruct (campaign_loop normal fuel fuel sim0 ds target_volume (step_of cts)
              (step_of cts)) as [sim1| |] eqn:C; try discriminate.
  injection Hrun as <- <-.
  destruct (campaign_frame _ _ _ _ _ _ _ _ C) as (He & Hu).
  assert (unregistered sim0 i) as Hun.
  { intros id Hid. destruct (decide (id ∈ map fst fleet)) as [Hin|Hin].
    - destruct (last_occurrence id fleet Hin) as (k & r & Hk & Hr & Hlater).
      subst id. rewrite (Hlast k r Hk) in Hid.
      + injection Hid as ->. assert (r = p) as -> by congruence.
        apply (Hlater j q Hij Hj). exact Hlabel.
      + exact Hlater.
    - rewrite (Hother id Hin) in Hid. discriminate Hid. }
  split; [|split].
  - rewrite Hds. apply lookup_seq. split; [reflexivity|].
    eapply lookup_lt_Some. exact Hi.
  - rewrite (Hu i Hun), Hobj.
    apply (list_lookup_fmap_Some_2 (λ p, TSHD_init p.1 p.2)). exact Hi.
  - rewrite He. apply Hun.
Qed.

End Shadow.

Lemma register_fleet_in_order_witness :
  ∃ sim' dredgers' cycle_times',
    register_fleet [("A"%string, TSHDConfig_default); ("A"%string, TSHDConfig_default)]
      (Simulation_init [] 1 []) [] [] = Ok (sim', dredgers', cycle_times') ∧
    dredgers' = [0; 1]%nat ∧ entities sim' !! "A"%string = Some 1%nat.
Proof.
  edestruct (register_fleet_in_order
               [("A"%string, TSHDConfig_default); ("A"%string, TSHDConfig_default)]
               (Simulation_init [] 1 []) [] [])
    as (_ & Hds & _ & _ & _ & _ & Hlast & _); [vm_compute; reflexivity|].
  eexists. eexists. eexists. split; [vm_compute; reflexivity|].
  split; [exact Hds|].
  apply (Hlast 1%nat ("A"%string, TSHDConfig_default) eq_refl).
  intros [|[|j]] q Hj Hq; try lia; discriminate Hq.
Defined.

Lemma shadowed_vessel_never_works_witness :
  ∃ sim dredgers,
    run_simulation_streamlit exact_mean 40
      [("A"%string, TSHDConfig_default); ("A"%string, TSHDConfig_default)] 100 0
    = Done (sim, dredgers) ∧
    dredgers !! 0%nat = Some 0%nat ∧
    objects sim !! 0%nat = Some (TSHD_init "A" TSHDConfig_default) ∧
    entities sim !! "A"%string ≠ Some 0%nat.
Proof.
  eexists. eexists. split; [vm_compute; reflexivity|].
  apply (shadowed_vessel_never_works exact_mean 40
           [("A"%string, TSHDConfig_default); ("A"%string, TSHDConfig_default)]
           100 0 _ _ 0 1 ("A"%string, TSHDConfig_default)
           ("A"%string, TSHDConfig_default));
    [vm_compute; reflexivity | reflexivity | reflexivity | lia | reflexivity].
Defined.
